(** * Road-drawing delivery game: graph construction, path finding, car motion

    A shallow embedding of the two scripts of the repository:

    - [GameJs]  : [src/game.js], the script with a plain [car] object;
    - [Classes] : the class-based script ([class Road], [class Car]).

    Both rebuild the graph of drawn roads on every frame, search it breadth
    first and move the car along the path that was found.

    JavaScript numbers are IEEE 754 binary64 values and are modelled by Rocq's
    primitive [float]s, which are exactly that format; general facts about
    them go through the specification [Prim2SF] of the primitive operations,
    and bounds on rounding errors through the real number [B2R] that a
    finite number stands for.  [Math.hypot], whose last bits ECMAScript
    leaves to the engine, is the function of V8.
    Objects used as maps from node ids ([adj], [cameFrom]) are [gmap]s. *)

From Stdlib Require Import Reals Lra.
From Stdlib Require Import Floats ZArith List Lia.
From stdpp Require Import gmap list strings pretty.

Local Open Scope nat_scope.

(** ** Numbers *)

(** [Math.hypot(dx, dy)].  ECMAScript fixes the result when an argument is
    infinite ([+Infinity]), when one is NaN and none infinite (NaN) and
    when all are zero ([+0]), and leaves the approximation of the square
    root of the sum of the squares to the engine otherwise.  This is the
    function as V8 has it (Chrome, Node.js): a first loop over the
    arguments finds the largest absolute value [max] and notes whether an
    argument is NaN; a second loop adds the squares of the arguments
    divided by [max], with Kahan's compensated summation; the result is
    the square root of that sum times [max]. *)

(** The body of the first loop. *)
Definition hypot_max (st : bool * float) (value : float) : bool * float :=
  let '(oneArgIsNaN, max) := st in
  if is_nan value then (true, max)
  else
    let absValue := abs value in
    if (max <? absValue)%float then (oneArgIsNaN, absValue) else (oneArgIsNaN, max).

(** The body of the second loop. *)
Definition hypot_sum (max : float) (st : float * float) (absValue : float)
    : float * float :=
  let '(sum, compensation) := st in
  let n := (absValue / max)%float in
  let summand := (n * n - compensation)%float in
  let preliminary := (sum + summand)%float in
  (preliminary, (preliminary - sum - summand)%float).

(** The function. *)
Definition hypot (dx dy : float) : float :=
  let '(oneArgIsNaN, max) := fold_left hypot_max [dx; dy] (false, 0%float) in
  if (max =? infinity)%float then infinity
  else if oneArgIsNaN then nan
  else if (max =? 0)%float then 0%float
  else
    let sum := fst (fold_left (hypot_sum max) [abs dx; abs dy] (0%float, 0%float)) in
    (PrimFloat.sqrt sum * max)%float.

(** [a >= b] on numbers; like [<=] it is false as soon as one side is NaN. *)
Definition geb (a b : float) : bool := (b <=? a)%float.

(** [a > b] on numbers. *)
Definition gtb (a b : float) : bool := (b <? a)%float.

(** [const SNAP_THRESHOLD = 10] *)
Definition SNAP_THRESHOLD : float := 10%float.

(** ** Outcome of running a piece of the script *)

Inductive result (A : Type) : Type :=
| Ret (a : A)   (** ran to completion *)
| Throw         (** a [TypeError]: a property of [undefined] was read *)
| Timeout.      (** the loop was still running when the fuel ran out *)
Arguments Ret {A} a.
Arguments Throw {A}.
Arguments Timeout {A}.

#[global] Instance result_ret : MRet result := fun A a => Ret a.

#[global] Instance result_bind : MBind result := fun A B k r =>
  match r with
  | Ret a => k a
  | Throw => Throw
  | Timeout => Timeout
  end.

(** [xs.forEach(f)] for a body [f] that may throw while updating a state. *)
Fixpoint forEach {A S : Type} (f : S -> A -> result S) (xs : list A) (s : S)
  : result S :=
  match xs with
  | [] => Ret s
  | a :: xs' => s' ← f s a; forEach f xs' s'
  end.

(** ** Data model *)

(** [{ id, x, y }] *)
Record node : Type := Node { node_id : nat; node_x : float; node_y : float }.

(** [{ x1, y1, x2, y2 }] *)
Record road : Type := Road { x1 : float; y1 : float; x2 : float; y2 : float }.

(** An entry [{ id, dist }] of an adjacency list. *)
Record neighbor : Type := Neighbor { nb_id : nat; nb_dist : float }.

(** [{ nodes, adj, startNode, destNode }] *)
Record graph : Type := Graph {
  nodes : list node;
  adj : gmap nat (list neighbor);
  startNode : node;
  destNode : node
}.

(** The canvas element; its size fixes the destination. *)
Record canvas : Type := Canvas { width : float; height : float }.

(** [const start = { x: 80, y: 80 }] *)
Definition start : float * float := (80%float, 80%float).

(** [const dest = { x: canvas.width - 80, y: canvas.height - 80 }] *)
Definition dest (cv : canvas) : float * float :=
  ((width cv - 80)%float, (height cv - 80)%float).

(** An element of a path array: a node object, or [undefined] ([None]). *)
Abbreviation path_t := (list (option node)).

(** The car.  [path = None] is [null].  The segment index is a count (it
    is only ever set to 0 or incremented), and so is the score below. *)
Record car : Type := Car {
  car_x : float;
  car_y : float;
  speed : float;
  path : option path_t;
  segIndex : nat;
  progress : float
}.

(** The globals that a frame reads and writes. *)
Record game : Type := Game {
  score : nat;
  roads : list road;
  the_car : car
}.

(** The car as the script creates it: at the warehouse, speed 2. *)
Definition initial_car : car :=
  Car (fst start) (snd start) 2%float None 0 0%float.

(** The globals as the script sets them up: score 0, no road. *)
Definition initial_game : game := Game 0 [] initial_car.

(** ** Pieces shared by the two scripts *)

(** The test of [getOrCreateNode]'s loop:
    [Math.hypot(node.x - x, node.y - y) < SNAP_THRESHOLD]. *)
Definition near (n : node) (x y : float) : bool :=
  (hypot (node_x n - x) (node_y n - y) <? SNAP_THRESHOLD)%float.

(** [arr[i]] for an array that may hold [undefined]: out of range reads
    [undefined] as well. *)
Definition at_index (p : path_t) (i : nat) : option node := mjoin (p !! i).

(** [resetCar()] : back to the warehouse, segment 0, progress 0. *)
Definition resetCar (c : car) : car :=
  Car (fst start) (snd start) (speed c) (path c) 0 0%float.

(** [car.progress = p] *)
Definition set_progress (p : float) (c : car) : car :=
  Car (car_x c) (car_y c) (speed c) (path c) (segIndex c) p.

(** [car.segIndex = i] *)
Definition set_segIndex (i : nat) (c : car) : car :=
  Car (car_x c) (car_y c) (speed c) (path c) i (progress c).

(** [car.path = p] *)
Definition set_path (p : option path_t) (c : car) : car :=
  Car (car_x c) (car_y c) (speed c) p (segIndex c) (progress c).

(** [car.x = currentNode.x + dx * car.progress; car.y = currentNode.y + dy * car.progress] *)
Definition interpolate (currentNode : node) (dx dy : float) (c : car) : car :=
  Car (node_x currentNode + dx * progress c)%float
      (node_y currentNode + dy * progress c)%float
      (speed c) (path c) (segIndex c) (progress c).

(** The test and the [roads.push] of the mouse-up handler: the drawn
    segment is kept when it is longer than 5. *)
Definition add_road (drawStart endPos : float * float) (rs : list road)
  : list road :=
  if gtb (hypot (fst endPos - fst drawStart) (snd endPos - snd drawStart)) 5%float
  then rs ++ [Road (fst drawStart) (snd drawStart) (fst endPos) (snd endPos)]
  else rs.

(** The mouse-up handler, for a drawing in progress. *)
Definition mouseup (drawStart endPos : float * float) (g : game) : game :=
  Game (score g) (add_road drawStart endPos (roads g)) (the_car g).

(** *** The mouse *)

(** [let isDrawing = false; let drawStart = { x: 0, y: 0 }; let mousePos = { x: 0, y: 0 };] *)
Record pointer : Type := Pointer {
  isDrawing : bool;
  drawStart : float * float;
  mousePos : float * float
}.

(** The pointer as the script sets it up. *)
Definition initial_pointer : pointer :=
  Pointer false (0%float, 0%float) (0%float, 0%float).

(** What a listener reads of its event [e]: [e.clientX] and [e.clientY]. *)
Record mouse_event : Type := MouseEvent { clientX : float; clientY : float }.

(** What a listener reads of [canvas.getBoundingClientRect()]. *)
Record dom_rect : Type := DomRect { rect_left : float; rect_top : float }.

(** [{ x: e.clientX - rect.left, y: e.clientY - rect.top }] *)
Definition canvas_pos (rect : dom_rect) (e : mouse_event) : float * float :=
  ((clientX e - rect_left rect)%float, (clientY e - rect_top rect)%float).

(** All the globals: those that a frame reads and writes, and those of
    the mouse. *)
Record world : Type := World { globals : game; the_pointer : pointer }.

(** All the globals as the script sets them up. *)
Definition initial_world : world := World initial_game initial_pointer.

(** The [mousedown] listener. *)
Definition on_mousedown (rect : dom_rect) (e : mouse_event) (w : world) : world :=
  World (globals w)
        (Pointer true (canvas_pos rect e) (mousePos (the_pointer w))).

(** The [mousemove] listener. *)
Definition on_mousemove (rect : dom_rect) (e : mouse_event) (w : world) : world :=
  if isDrawing (the_pointer w)
  then World (globals w)
             (Pointer (isDrawing (the_pointer w)) (drawStart (the_pointer w))
                      (canvas_pos rect e))
  else w.

(** The [mouseup] listener. *)
Definition on_mouseup (rect : dom_rect) (e : mouse_event) (w : world) : world :=
  if isDrawing (the_pointer w)
  then let endPos := canvas_pos rect e in
       World (mouseup (drawStart (the_pointer w)) endPos (globals w))
             (Pointer false (drawStart (the_pointer w)) (mousePos (the_pointer w)))
  else w.

(** *** The canvas *)

(** What the scripts do to the 2D context [ctx]: a call of one of its
    methods, or an assignment to one of its properties. *)
Inductive ctx_op : Type :=
| ClearRect (x y w h : float)
| StrokeStyle (style : string)
| FillStyle (style : string)
| LineWidth (w : float)
| Font (font : string)
| BeginPath
| MoveTo (x y : float)
| LineTo (x y : float)
| Stroke
| Arc (x y radius startAngle endAngle : float)
| Fill
| FillText (text : string) (x y : float).

(** How a piece of drawing code ends: it runs to its end, it throws a
    [TypeError], or its loop is still running when the fuel runs out. *)
Inductive ending : Type := Done | Threw | Hung.

(** What a piece of drawing code has done to the context, and how it ended. *)
Definition drawing : Type := (list ctx_op * ending)%type.

(** Straight-line drawing code. *)
Definition draws (ops : list ctx_op) : drawing := (ops, Done).

(** One piece of drawing code after the other: the second runs if the
    first ran to its end. *)
Definition and_then (a b : drawing) : drawing :=
  match snd a with
  | Done => (fst a ++ fst b, snd b)
  | _ => a
  end.

(** The statements of a function body, in order. *)
Definition in_order (ds : list drawing) : drawing :=
  foldr and_then (draws []) ds.

(** [const gridSize = 20] *)
Definition gridSize : float := 20%float.

(** [Math.PI] *)
Definition PI : float := 0x1.921fb54442d18p+1%float.

(** [for (let x = 0; x < limit; x += gridSize) { ... }], from the current
    value [x] of the counter on. *)
Fixpoint for_grid (fuel : nat) (limit : float) (body : float -> list ctx_op)
    (x : float) : drawing :=
  match fuel with
  | 0 => ([], Hung)
  | S fuel' =>
      if (x <? limit)%float
      then and_then (draws (body x)) (for_grid fuel' limit body (x + gridSize)%float)
      else draws []
  end.

(** [function drawGrid()], the same in both scripts. *)
Definition drawGrid (fuel : nat) (cv : canvas) : drawing :=
  in_order [
    draws [StrokeStyle "#444"; LineWidth 1];
    for_grid fuel (width cv)
      (fun x => [BeginPath; MoveTo x 0; LineTo x (height cv); Stroke]) 0;
    for_grid fuel (height cv)
      (fun y => [BeginPath; MoveTo 0 y; LineTo (width cv) y; Stroke]) 0 ].

(** [for (let i = 1; i < car.path.length; i++) ctx.lineTo(car.path[i].x, car.path[i].y);]
    over the elements from index 1 on. *)
Fixpoint line_to_each (p : path_t) : drawing :=
  match p with
  | [] => draws []
  | Some n :: p' => and_then (draws [LineTo (node_x n) (node_y n)]) (line_to_each p')
  | None :: _ => ([], Threw)                     (* car.path[i].x of undefined *)
  end.

(** [if (car.path) { ... }]: the computed path as a white line. *)
Definition draw_path (path : option path_t) : drawing :=
  match path with
  | Some p =>
      in_order [
        draws [StrokeStyle "#fff"; LineWidth 2; BeginPath];
        match at_index p 0 with
        | Some n0 =>
            in_order [ draws [MoveTo (node_x n0) (node_y n0)];
                       line_to_each (drop 1 p);
                       draws [Stroke] ]
        | None => ([], Threw)                    (* car.path[0].x of undefined *)
        end ]
  | None => draws []
  end.

(** [if (isDrawing) { ... }]: the road being drawn, as a yellow line. *)
Definition draw_preview (p : pointer) : drawing :=
  if isDrawing p
  then draws [StrokeStyle "#ff0"; LineWidth 2; BeginPath;
              MoveTo (fst (drawStart p)) (snd (drawStart p));
              LineTo (fst (mousePos p)) (snd (mousePos p)); Stroke]
  else draws [].

(** The warehouse as a green disc and the delivery point as a red one. *)
Definition draw_anchors (cv : canvas) : drawing :=
  draws [FillStyle "#0f0"; BeginPath;
         Arc (fst start) (snd start) 8 0 (PI * 2); Fill;
         FillStyle "#f00"; BeginPath;
         Arc (fst (dest cv)) (snd (dest cv)) 8 0 (PI * 2); Fill].

(** ['Score: ' + score], at its place. *)
Definition draw_score (score : nat) : drawing :=
  draws [FillStyle "#fff"; Font "20px Arial";
         FillText ("Score: " +:+ pretty score) 10 25].

(** *** Breadth-first search

    The two [findPath]s differ in one expression only, the list the inner
    loop runs over: [adj[current]] in [game.js] (a [TypeError] when it is
    missing) and [adj[current] || []] in the class-based script.  That
    expression is the parameter [neighborsOf]. *)
Section Bfs.
Variable neighborsOf : nat -> result (list neighbor).
Variable nodes_ : list node.
Variable dest_id : nat.

(** The inner [for (neighbor of ...)] loop. *)
Definition visit (current : nat)
    (st : list nat * gmap nat (option nat)) (nb : neighbor)
  : list nat * gmap nat (option nat) :=
  let '(queue, cameFrom) := st in
  match cameFrom !! nb_id nb with
  | Some _ => st                                  (* neighbor.id in cameFrom *)
  | None => (queue ++ [nb_id nb], <[nb_id nb := Some current]> cameFrom)
  end.

(** [while (current !== null) { path.unshift(nodes.find(...)); current = cameFrom[current]; }]
    [current] is [Some (Some c)] for an id, [Some None] for [null] and
    [None] for [undefined].  Once [current] is [undefined] it stays so and
    the loop never ends. *)
Fixpoint reconstruct (fuel : nat) (cameFrom : gmap nat (option nat))
    (current : option (option nat)) (path : path_t) : result path_t :=
  match current with
  | Some None => Ret path
  | None => Timeout
  | Some (Some c) =>
      match fuel with
      | 0 => Timeout
      | S fuel' =>
          let node := List.find (fun n => Nat.eqb (node_id n) c) nodes_ in
          reconstruct fuel' cameFrom (cameFrom !! c) (node :: path)
      end
  end.

(** [while (queue.length) { ... }]; [rfuel] is the fuel of the inner
    path reconstruction. *)
Fixpoint bfs (fuel rfuel : nat) (queue : list nat)
    (cameFrom : gmap nat (option nat)) : result (option path_t) :=
  match fuel with
  | 0 => Timeout
  | S fuel' =>
      match queue with
      | [] => Ret None                               (* return null *)
      | current :: queue' =>
          if Nat.eqb current dest_id then
            p ← reconstruct rfuel cameFrom (Some (Some current)) [];
            Ret (Some p)
          else
            ns ← neighborsOf current;
            let '(queue'', cameFrom') :=
              fold_left (visit current) ns (queue', cameFrom) in
            bfs fuel' rfuel queue'' cameFrom'
      end
  end.
End Bfs.

(** The searches are run with as much fuel as the graph has nodes, plus
    one: [findPath_enough_fuel] below shows that more fuel changes nothing. *)
Definition findPath_with (neighborsOf : graph -> nat -> result (list neighbor))
    (fuel : nat) (g : graph) : result (option path_t) :=
  bfs (neighborsOf g) (nodes g) (node_id (destNode g)) fuel fuel
      [node_id (startNode g)] {[ node_id (startNode g) := None ]}.

(** ** [src/game.js] *)
Module GameJs.

(** The builder's local state: [nodes] and [adj]. *)
Definition build_state : Type := (list node * gmap nat (list neighbor))%type.

(** [function getOrCreateNode(x, y)], a closure over [nodes] and [adj]. *)
Definition getOrCreateNode (x y : float) (st : build_state)
  : node * build_state :=
  match List.find (fun n => near n x y) (fst st) with
  | Some n => (n, st)
  | None =>
      let newNode := Node (length (fst st)) x y in
      (newNode, (fst st ++ [newNode], <[node_id newNode := []]> (snd st)))
  end.

(** [adj[k].push(e)]; a [TypeError] when [adj[k]] is [undefined]. *)
Definition push (k : nat) (e : neighbor) (adj : gmap nat (list neighbor))
  : result (gmap nat (list neighbor)) :=
  match adj !! k with
  | Some l => Ret (<[k := l ++ [e]]> adj)
  | None => Throw
  end.

(** The body of [roads.forEach(road => ...)]. *)
Definition addRoad (st : build_state) (r : road) : result build_state :=
  let '(nodeA, st1) := getOrCreateNode (x1 r) (y1 r) st in
  let '(nodeB, st2) := getOrCreateNode (x2 r) (y2 r) st1 in
  let distance :=
    hypot (node_x nodeA - node_x nodeB) (node_y nodeA - node_y nodeB) in
  adj1 ← push (node_id nodeA) (Neighbor (node_id nodeB) distance) (snd st2);
  adj2 ← push (node_id nodeB) (Neighbor (node_id nodeA) distance) adj1;
  Ret (fst st2, adj2).

(** [function buildGraph()] *)
Definition buildGraph (cv : canvas) (roads : list road) : result graph :=
  let '(startNode, st1) := getOrCreateNode (fst start) (snd start) ([], ∅) in
  let '(destNode, st2) :=
    getOrCreateNode (fst (dest cv)) (snd (dest cv)) st1 in
  st3 ← forEach addRoad roads st2;
  Ret (Graph (fst st3) (snd st3) startNode destNode).

(** [adj[current]] as the subject of [for ... of]. *)
Definition neighborsOf (g : graph) (current : nat) : result (list neighbor) :=
  match adj g !! current with
  | Some l => Ret l
  | None => Throw
  end.

(** [function findPath(graph)] *)
Definition findPath (g : graph) : result (option path_t) :=
  findPath_with neighborsOf (S (length (nodes g))) g.

(** Lines 129-153 of [updateCar]: the motion along [car.path]. *)
Definition moveCar (g : game) : result game :=
  let c := the_car g in
  match path c with
  | Some p =>
      if 1 <? length p then
        match at_index p (segIndex c), at_index p (segIndex c + 1) with
        | Some currentNode, Some nextNode =>
            let dx := (node_x nextNode - node_x currentNode)%float in
            let dy := (node_y nextNode - node_y currentNode)%float in
            let segLength := hypot dx dy in
            let c1 := set_progress (progress c + speed c / segLength)%float c in
            if geb (progress c1) 1%float then
              let c2 := set_progress 0%float (set_segIndex (S (segIndex c1)) c1) in
              if length p - 1 <=? segIndex c2 then
                Ret (Game (S (score g)) (roads g) (resetCar c2))
              else
                Ret (Game (score g) (roads g) (interpolate currentNode dx dy c2))
            else
              Ret (Game (score g) (roads g) (interpolate currentNode dx dy c1))
        | _, _ => Throw        (* nextNode.x or currentNode.x of undefined *)
        end
      else Ret g
  | None => Ret g
  end.

(** [function updateCar()] *)
Definition updateCar (cv : canvas) (g : game) : result game :=
  gr ← buildGraph cv (roads g);
  p ← findPath gr;
  moveCar (Game (score g) (roads g) (set_path p (the_car g))).

(** [function drawScene()] *)
Definition drawScene (fuel : nat) (cv : canvas) (w : world) : drawing :=
  in_order [
    draws [ClearRect 0 0 (width cv) (height cv)];
    drawGrid fuel cv;
    draws ([StrokeStyle "#0af"; LineWidth 4] ++
           flat_map (fun road => [BeginPath; MoveTo (x1 road) (y1 road);
                                  LineTo (x2 road) (y2 road); Stroke])
                    (roads (globals w)));
    draw_preview (the_pointer w);
    draw_anchors cv;
    draw_path (path (the_car (globals w)));
    draws [FillStyle "#ff0"; BeginPath;
           Arc (car_x (the_car (globals w))) (car_y (the_car (globals w))) 6 0 (PI * 2);
           Fill];
    draw_score (score (globals w)) ].

End GameJs.

(** ** The class-based script *)
Module Classes.

(** [function getOrCreateNode(x, y, nodes)] *)
Definition getOrCreateNode (x y : float) (nodes : list node)
  : node * list node :=
  match List.find (fun n => near n x y) nodes with
  | Some n => (n, nodes)
  | None =>
      let newNode := Node (length nodes) x y in
      (newNode, nodes ++ [newNode])
  end.

(** [if (!adj[k]) adj[k] = [];] (an array, even an empty one, is truthy) *)
Definition ensure (k : nat) (adj : gmap nat (list neighbor))
  : gmap nat (list neighbor) :=
  match adj !! k with
  | Some _ => adj
  | None => <[k := []]> adj
  end.

(** [adj[k].push(e)], for a key that [ensure] has just put there. *)
Definition push (k : nat) (e : neighbor) (adj : gmap nat (list neighbor))
  : gmap nat (list neighbor) :=
  <[k := default [] (adj !! k) ++ [e]]> adj.

(** [function addEdge(n1, n2)], a closure over [adj]. *)
Definition addEdge (n1 n2 : node) (adj : gmap nat (list neighbor))
  : gmap nat (list neighbor) :=
  let d := hypot (node_x n1 - node_x n2) (node_y n1 - node_y n2) in
  let adj1 := ensure (node_id n1) adj in
  let adj2 := ensure (node_id n2) adj1 in
  let adj3 := push (node_id n1) (Neighbor (node_id n2) d) adj2 in
  push (node_id n2) (Neighbor (node_id n1) d) adj3.

(** The body of [roads.forEach(r => ...)]. *)
Definition addRoad (st : list node * gmap nat (list neighbor)) (r : road)
  : list node * gmap nat (list neighbor) :=
  let '(nodeA, nodes1) := getOrCreateNode (x1 r) (y1 r) (fst st) in
  let '(nodeB, nodes2) := getOrCreateNode (x2 r) (y2 r) nodes1 in
  (nodes2, addEdge nodeA nodeB (snd st)).

(** [function buildGraph()] *)
Definition buildGraph (cv : canvas) (roads : list road) : graph :=
  let '(startNode, nodes1) := getOrCreateNode (fst start) (snd start) [] in
  let '(destNode, nodes2) :=
    getOrCreateNode (fst (dest cv)) (snd (dest cv)) nodes1 in
  let st := fold_left addRoad roads (nodes2, ∅) in
  Graph (fst st) (snd st) startNode destNode.

(** [adj[current] || []] *)
Definition neighborsOf (g : graph) (current : nat) : result (list neighbor) :=
  Ret (default [] (adj g !! current)).

(** [function findPath(graph)] *)
Definition findPath (g : graph) : result (option path_t) :=
  findPath_with neighborsOf (S (length (nodes g))) g.

(** [Car.prototype.update]; [score] and [resetCar] are the globals. *)
Definition Car_update (g : game) : result game :=
  let this := the_car g in
  match path this with
  | Some p =>
      if 1 <? length p then
        match at_index p (segIndex this), at_index p (segIndex this + 1) with
        | Some curr, Some next =>
            let dx := (node_x next - node_x curr)%float in
            let dy := (node_y next - node_y curr)%float in
            let segLength := hypot dx dy in
            let c1 := set_progress (progress this + speed this / segLength)%float this in
            if geb (progress c1) 1%float then
              let c2 := set_progress 0%float (set_segIndex (S (segIndex c1)) c1) in
              if length p - 1 <=? segIndex c2 then
                Ret (Game (S (score g)) (roads g) (resetCar c2))
              else
                Ret (Game (score g) (roads g) (interpolate curr dx dy c2))
            else
              Ret (Game (score g) (roads g) (interpolate curr dx dy c1))
        | _, _ => Throw                 (* next.x or curr.x of undefined *)
        end
      else Ret g
  | None => Ret g
  end.

(** The guard of [updateCar]:
    [car.path && car.path.length > 1 && car.segIndex >= car.path.length]. *)
Definition stale_index (c : car) : bool :=
  match path c with
  | Some p => (1 <? length p) && (length p <=? segIndex c)
  | None => false
  end.

(** [function updateCar()] *)
Definition updateCar (cv : canvas) (g : game) : result game :=
  p ← findPath (buildGraph cv (roads g));
  let c := set_path p (the_car g) in
  let c' := if stale_index c
            then set_progress 0%float (set_segIndex 0 c)
            else c in
  Car_update (Game (score g) (roads g) c').

(** [Road.prototype.draw] *)
Definition Road_draw (this : road) : list ctx_op :=
  [StrokeStyle "#0af"; LineWidth 4; BeginPath;
   MoveTo (x1 this) (y1 this); LineTo (x2 this) (y2 this); Stroke].

(** [Car.prototype.draw] *)
Definition Car_draw (this : car) : list ctx_op :=
  [FillStyle "#ff0"; BeginPath; Arc (car_x this) (car_y this) 6 0 (PI * 2); Fill].

(** [function drawScene()]; [new Road(r.x1, r.y1, r.x2, r.y2)] copies the
    four coordinates. *)
Definition drawScene (fuel : nat) (cv : canvas) (w : world) : drawing :=
  in_order [
    draws [ClearRect 0 0 (width cv) (height cv)];
    drawGrid fuel cv;
    draws (flat_map (fun r => Road_draw (Road (x1 r) (y1 r) (x2 r) (y2 r)))
                    (roads (globals w)));
    draw_preview (the_pointer w);
    draw_anchors cv;
    draw_path (path (the_car (globals w)));
    draws (Car_draw (the_car (globals w)));
    draw_score (score (globals w)) ].

End Classes.

(** ** Frames and drawing *)

(** What happens between two frames: nothing, or the user finishes drawing
    a segment. *)
Inductive event : Type :=
| Frame
| Draw (drawStart endPos : float * float).

(** [gameLoop] runs [updateCar] once per frame; an exception leaves the loop
    (the next frame is never requested). *)
Definition run_with (upd : game -> result game) : list event -> game -> result game :=
  forEach (fun g e => match e with
                      | Frame => upd g
                      | Draw a b => Ret (mouseup a b g)
                      end).

(** [n] frames in a row. *)
Definition frames (n : nat) : list event := repeat Frame n.

(** ** The script as the browser runs it *)

(** [function gameLoop()], one round: [updateCar(); drawScene();], after
    which the next round is asked for.  What comes out is what has been
    drawn, and the globals if the round ran to its end. *)
Definition gameLoop (upd : game -> result game)
    (draw : world -> drawing) (w : world) : list ctx_op * result world :=
  match upd (globals w) with
  | Ret g' =>
      let w' := World g' (the_pointer w) in
      (fst (draw w'),
       match snd (draw w') with
       | Done => Ret w'
       | Threw => Throw
       | Hung => Timeout
       end)
  | Throw => ([], Throw)
  | Timeout => ([], Timeout)
  end.

(** What the browser calls, one call after the other: the frame callback,
    or one of the three listeners with its event and the rectangle of the
    canvas at that time. *)
Inductive input : Type :=
| Tick
| MouseDown (rect : dom_rect) (e : mouse_event)
| MouseMove (rect : dom_rect) (e : mouse_event)
| MouseUp (rect : dom_rect) (e : mouse_event).

(** The script under a sequence of calls; [tick] is the frame callback,
    and an exception in it ends the run. *)
Definition play (tick : world -> result world)
  : list input -> world -> result world :=
  forEach (fun w i => match i with
                      | Tick => tick w
                      | MouseDown rect e => Ret (on_mousedown rect e w)
                      | MouseMove rect e => Ret (on_mousemove rect e w)
                      | MouseUp rect e => Ret (on_mouseup rect e w)
                      end).

(** * Vocabulary of the statements *)

(** ** Graphs *)

(** The id of a node is its index in the node list. *)
Definition ids_ok (ns : list node) : Prop :=
  forall i n, ns !! i = Some n -> node_id n = i.

(** The neighbor list of [k], empty when [adj] has no entry for [k]. *)
Definition neighbors (adj : gmap nat (list neighbor)) (k : nat) : list neighbor :=
  default [] (adj !! k).

(** What holds of [nodes] and [adj] all through a build: ids are indices,
    every key and every neighbor id is the id of a node, and the lists are
    symmetric. *)
Record wf_build (ns : list node) (adj : gmap nat (list neighbor)) : Prop := WfBuild {
  wf_ids : ids_ok ns;
  wf_keys : forall k, is_Some (adj !! k) -> k < length ns;
  wf_nbrs : forall k e, e ∈ neighbors adj k -> nb_id e < length ns;
  wf_sym : forall a b d,
    Neighbor b d ∈ neighbors adj a -> Neighbor a d ∈ neighbors adj b
}.

(** What adding the two directed entries of a road does to the lists. *)
Definition edge_added (a b : nat) (d : float)
    (adj adj' : gmap nat (list neighbor)) : Prop :=
  (forall k, neighbors adj' k =
     neighbors adj k ++ (if decide (k = a) then [Neighbor b d] else [])
                     ++ (if decide (k = b) then [Neighbor a d] else [])) /\
  (forall k, is_Some (adj' !! k) <-> is_Some (adj !! k) \/ k = a \/ k = b).

(** Whenever [b] is listed under [a] with distance [d], [a] is listed under
    [b] with the same distance. *)
Definition symmetric_adj (adj : gmap nat (list neighbor)) : Prop :=
  forall a b d la, adj !! a = Some la -> Neighbor b d ∈ la ->
    exists lb, adj !! b = Some lb /\ Neighbor a d ∈ lb.

(** Every node of the graph has an entry in [adj]. *)
Definition every_node_has_entry (g : graph) : Prop :=
  forall n, n ∈ nodes g -> is_Some (adj g !! node_id n).

(** The node an endpoint [(x, y)] resolves to in a node list: the first
    node within the snap threshold. *)
Definition resolve (ns : list node) (x y : float) : option node :=
  List.find (fun n => near n x y) ns.

(** [n] is the node of one of the two endpoints of [r]. *)
Definition endpoint_of (g : graph) (r : road) (n : node) : Prop :=
  resolve (nodes g) (x1 r) (y1 r) = Some n \/
  resolve (nodes g) (x2 r) (y2 r) = Some n.

(** Same nodes, same anchors, same neighbor lists; only the keys of [adj]
    may differ. *)
Definition same_graph (g g' : graph) : Prop :=
  nodes g = nodes g' /\ startNode g = startNode g' /\ destNode g = destNode g' /\
  forall k, neighbors (adj g) k = neighbors (adj g') k.

(** ** Walks and routes *)

(** [edge nbrs u v]: [v] is listed among the neighbors of [u]. *)
Definition edge (nbrs : nat -> list neighbor) (u v : nat) : Prop :=
  exists e, e ∈ nbrs u /\ nb_id e = v.

(** [walk_to nbrs s l v]: [l] lists the ids of a walk from [s] to [v]. *)
Inductive walk_to (nbrs : nat -> list neighbor) (s : nat) : list nat -> nat -> Prop :=
| walk_start : walk_to nbrs s [s] s
| walk_snoc l u v :
    walk_to nbrs s l u -> edge nbrs u v -> walk_to nbrs s (l ++ [v]) v.

(** The same walk, following the [cameFrom] links. *)
Inductive chain (nbrs : nat -> list neighbor) (s : nat)
    (cf : gmap nat (option nat)) : list nat -> nat -> Prop :=
| chain_start : cf !! s = Some None -> chain nbrs s cf [s] s
| chain_snoc l u v :
    chain nbrs s cf l u -> cf !! v = Some (Some u) -> edge nbrs u v ->
    chain nbrs s cf (l ++ [v]) v.

(** What [findPath] owes its caller: a shortest walk, or [null] when there
    is no walk at all. *)
Definition path_spec (nbrs : nat -> list neighbor) (ns : list node) (s t : nat)
    (r : option path_t) : Prop :=
  match r with
  | Some p =>
      exists ids, p = (fun i => ns !! i) <$> ids /\
        Forall (fun i => i < length ns) ids /\
        walk_to nbrs s ids t /\
        forall l, walk_to nbrs s l t -> length ids <= length l
  | None => forall l, ~ walk_to nbrs s l t
  end.

(** [b] is listed among the neighbors of [a]. *)
Definition adjacent (g : graph) (a b : node) : Prop :=
  exists d, Neighbor (node_id b) d ∈ neighbors (adj g) (node_id a).

(** A sequence of nodes that starts at the start node, ends at the
    destination node and moves along edges of the graph. *)
Definition route (g : graph) (p : list node) : Prop :=
  head p = Some (startNode g) /\ last p = Some (destNode g) /\
  forall i a b, p !! i = Some a -> p !! S i = Some b -> adjacent g a b.

(** The result of a search: a route with as few nodes as any route has, all
    of them nodes of the graph; or [null], and then there is no route. *)
Definition shortest_or_none (g : graph) (r : option path_t) : Prop :=
  match r with
  | Some p =>
      exists ns, p = Some <$> ns /\ Forall (fun n => n ∈ nodes g) ns /\
        route g ns /\ forall ns', route g ns' -> length ns <= length ns'
  | None => forall ns', ~ route g ns'
  end.

(** ** Runs of the game *)

(** The game with [car.path] set to [p] and nothing else changed. *)
Definition with_path (p : option path_t) (g : game) : game :=
  Game (score g) (roads g) (set_path p (the_car g)).

(** No sequence of edges leads from the origin to the destination. *)
Definition disconnected (cv : canvas) (rs : list road) : Prop :=
  forall p, ~ route (Classes.buildGraph cv rs) p.

(** Every frame of the run finds the graph of the roads drawn so far
    without a route. *)
Fixpoint stays_disconnected (cv : canvas) (es : list event) (rs : list road)
  : Prop :=
  match es with
  | [] => True
  | Frame :: es' => disconnected cv rs /\ stays_disconnected cv es' rs
  | Draw a b :: es' => stays_disconnected cv es' (add_road a b rs)
  end.

(** The node of the origin: the first node of every graph. *)
Definition origin_node : node := Node 0 (fst start) (snd start).

(** The destination lies within the snap threshold of the origin. *)
Definition anchors_coincide (cv : canvas) : Prop :=
  near origin_node (fst (dest cv)) (snd (dest cv)) = true.

(** The node of the destination, when it does not merge with the origin. *)
Definition dest_node (cv : canvas) : node :=
  Node 1 (fst (dest cv)) (snd (dest cv)).

(** The two-node path from the origin to the destination. *)
Definition direct_path (cv : canvas) : path_t :=
  [Some origin_node; Some (dest_node cv)].

(** [r] joins the two anchors, drawn in either direction: one endpoint
    snaps to the origin, the other to the destination. *)
Definition joins_anchors (cv : canvas) (r : road) : Prop :=
  (near origin_node (x1 r) (y1 r) = true /\
   near origin_node (x2 r) (y2 r) = false /\
   near (dest_node cv) (x2 r) (y2 r) = true) \/
  (near origin_node (x1 r) (y1 r) = false /\
   near (dest_node cv) (x1 r) (y1 r) = true /\
   near origin_node (x2 r) (y2 r) = true).

(** [next.x - curr.x] on the direct path. *)
Definition direct_dx (cv : canvas) : float := (fst (dest cv) - fst start)%float.

(** Likewise [next.y - curr.y]. *)
Definition direct_dy (cv : canvas) : float := (snd (dest cv) - snd start)%float.

(** The length [L] of the direct segment, as the car computes it. *)
Definition direct_length (cv : canvas) : float :=
  hypot (direct_dx cv) (direct_dy cv).

(** The progress after [k] more frames, from progress [p]: [step] is added
    [k] times, one rounded addition per frame. *)
Fixpoint accumulate (p step : float) (k : nat) : float :=
  match k with
  | 0 => p
  | S k' => accumulate (p + step)%float step k'
  end.

(** None of the next [k] frames brings the progress to 1. *)
Fixpoint no_arrival (p step : float) (k : nat) : bool :=
  match k with
  | 0 => true
  | S k' => negb (geb (p + step)%float 1%float) && no_arrival (p + step)%float step k'
  end.

(** The car on the direct segment at progress [p]. *)
Definition en_route (cv : canvas) (s p : float) : car :=
  Car (fst start + direct_dx cv * p)%float (snd start + direct_dy cv * p)%float
      s (Some (direct_path cv)) 0 p.

(** The car back at the origin after an arrival. *)
Definition arrived (cv : canvas) (s : float) : car :=
  Car (fst start) (snd start) s (Some (direct_path cv)) 0 0%float.

(** One frame on the direct path. *)
Definition direct_frame (cv : canvas) (g : game) : game :=
  let c := the_car g in
  let p1 := (progress c + speed c / direct_length cv)%float in
  if geb p1 1%float
  then Game (S (score g)) (roads g) (arrived cv (speed c))
  else Game (score g) (roads g) (en_route cv (speed c) p1).

(** A canvas of 190 by 160: the destination is at (110, 80). *)
Definition detour_canvas : canvas := Canvas 190 160.

(** Two roads from the origin over (95, 100) to the destination, thirteen
    frames, which take the car over the first of them, and then a third
    road straight from the origin to the destination. *)
Definition detour_then_shortcut : list event :=
  [Draw (80, 80)%float (95, 100)%float; Draw (95, 100)%float (110, 80)%float]
  ++ frames 13 ++ [Draw (80, 80)%float (110, 80)%float].

(** The state the run leaves: three roads, the car on segment 1 of the
    three-node path of the frame before. *)
Definition after_shortcut : game :=
  Game 0
    [Road 80 80 95 100; Road 95 100 110 80; Road 80 80 110 80]
    (Car 80 80 2
       (Some [Some (Node 0 80 80); Some (Node 2 95 100); Some (Node 1 110 80)])
       1 0).

(** ** Distances *)

(** Coordinates that are numbers proper: neither infinite nor NaN. *)
Definition finite_node (n : node) : bool :=
  is_finite (node_x n) && is_finite (node_y n).

(** Likewise for the two endpoints of a road. *)
Definition finite_road (r : road) : bool :=
  is_finite (x1 r) && is_finite (y1 r) && is_finite (x2 r) && is_finite (y2 r).

(** Likewise for the destination that the canvas fixes. *)
Definition finite_canvas (cv : canvas) : bool :=
  is_finite (fst (dest cv)) && is_finite (snd (dest cv)).

(** No node is within the threshold of a node registered before it, and
    all coordinates are finite. *)
Definition spread (ns : list node) : Prop :=
  (forall i j a b, i < j -> ns !! i = Some a -> ns !! j = Some b ->
     near a (node_x b) (node_y b) = false) /\
  Forall (fun n => finite_node n = true) ns.

(** Any two distinct nodes are at least the snap threshold apart. *)
Definition apart (ns : list node) : Prop :=
  forall i j a b, i <> j -> ns !! i = Some a -> ns !! j = Some b ->
    (SNAP_THRESHOLD <=? hypot (node_x a - node_x b) (node_y a - node_y b))%float = true.

(** Consecutive nodes of a path are different nodes at different
    positions, and the segment between them, as the car measures it, is at
    least the snap threshold long; in particular it is not zero. *)
Definition segments_nonzero (p : path_t) : Prop :=
  forall i a b, at_index p i = Some a -> at_index p (S i) = Some b ->
    node_id a <> node_id b /\
    (node_x a, node_y a) <> (node_x b, node_y b) /\
    (SNAP_THRESHOLD <=? hypot (node_x b - node_x a) (node_y b - node_y a))%float = true /\
    (hypot (node_x b - node_x a) (node_y b - node_y a) =? 0)%float = false.

(** ** Shapes of binary64 numbers *)

(** The shape of a number: finite (zero included), infinite or NaN. *)
Definition sf_finite (x : spec_float) : bool :=
  match x with
  | S754_zero _ | S754_finite _ _ _ => true
  | _ => false
  end.

(** NaN. *)
Definition sf_nan (x : spec_float) : bool :=
  match x with S754_nan => true | _ => false end.

(** Zero or positive (with [+0] but not [-0]), [+infinity] included. *)
Definition sf_nonneg (x : spec_float) : bool :=
  match x with
  | S754_zero s | S754_infinity s | S754_finite s _ _ => negb s
  | S754_nan => false
  end.

(** [hypot] on the specification side: the body of its first loop, the
    body of its second loop, and the function. *)
Definition sf_hypot_max (st : bool * spec_float) (value : spec_float)
    : bool * spec_float :=
  let '(oneArgIsNaN, max) := st in
  if sf_nan value then (true, max)
  else if SFltb max (SFabs value) then (oneArgIsNaN, SFabs value)
  else (oneArgIsNaN, max).

Definition sf_hypot_sum (max : spec_float) (st : spec_float * spec_float)
    (absValue : spec_float) : spec_float * spec_float :=
  let '(sum, compensation) := st in
  let n := SF64div absValue max in
  let summand := SF64sub (SF64mul n n) compensation in
  let preliminary := SF64add sum summand in
  (preliminary, SF64sub (SF64sub preliminary sum) summand).

Definition sf_hypot (dx dy : spec_float) : spec_float :=
  let '(oneArgIsNaN, max) :=
    fold_left sf_hypot_max [dx; dy] (false, S754_zero false) in
  if SFeqb max (S754_infinity false) then S754_infinity false
  else if oneArgIsNaN then S754_nan
  else if SFeqb max (S754_zero false) then S754_zero false
  else
    let sum := fst (fold_left (sf_hypot_sum max) [SFabs dx; SFabs dy]
                      (S754_zero false, S754_zero false)) in
    SF64mul (SF64sqrt sum) max.

(** The exponent to which a mantissa of magnitude [k] is rounded. *)
Definition fexp64 (k : Z) : Z := SpecFloat.fexp prec emax k.

(** *** The real number a binary64 number stands for *)

(** [2 ^ e] for an integer [e] of either sign. *)
Definition bpow (e : Z) : R := powerRZ 2 e.
Global Arguments bpow : simpl never.

(** The value of a finite number; 0 for the others. *)
Definition SF2R (x : spec_float) : R :=
  match x with
  | S754_finite s m e => ((if s then - IZR (Zpos m) else IZR (Zpos m)) * bpow e)%R
  | _ => 0%R
  end.

(** Likewise for a number of the script. *)
Definition B2R (x : float) : R := SF2R (Prim2SF x).

(** A finite number that is not negative. *)
Definition nonneg_finite (x : float) : Prop :=
  sf_finite (Prim2SF x) = true /\ sf_nonneg (Prim2SF x) = true.

(** ** Merging and building *)

(** [g'] extends [g]: the same anchors, and the node list and every
    neighbor list of [g] continued. *)
Definition extends_graph (g g' : graph) : Prop :=
  nodes g `prefix_of` nodes g' /\
  startNode g' = startNode g /\ destNode g' = destNode g /\
  forall k, neighbors (adj g) k `prefix_of` neighbors (adj g') k.

(** The anchors of [g] are where every build puts them: the origin is
    node 0, and the destination is node 1 unless it merged with the origin. *)
Definition anchored (cv : canvas) (g : graph) : Prop :=
  startNode g = origin_node /\ nodes g !! 0 = Some origin_node /\
  if near origin_node (fst (dest cv)) (snd (dest cv))
  then destNode g = origin_node
  else destNode g = dest_node cv /\ nodes g !! 1 = Some (dest_node cv).

(** The distance that is stored with the edge between [a] and [b]. *)
Definition edge_dist (a b : node) : float :=
  hypot (node_x a - node_x b) (node_y a - node_y b).

(** The endpoints of [r] resolve to the nodes [a] and [b]. *)
Definition road_between (ns : list node) (r : road) (a b : node) : Prop :=
  resolve ns (x1 r) (y1 r) = Some a /\ resolve ns (x2 r) (y2 r) = Some b.

(** The entry [e] under the key [k] is one of the two that an edge between
    [a] and [b] makes. *)
Definition entry_of (a b : node) (k : nat) (e : neighbor) : Prop :=
  (k = node_id a /\ e = Neighbor (node_id b) (edge_dist a b)) \/
  (k = node_id b /\ e = Neighbor (node_id a) (edge_dist a b)).

(** The entries of [adj] are those of the roads [rs]: every road has its
    two entries, and every entry is one of some road. *)
Definition edges_of_roads (ns : list node) (adj : gmap nat (list neighbor))
    (rs : list road) : Prop :=
  (forall r, r ∈ rs -> exists a b, road_between ns r a b /\
     Neighbor (node_id b) (edge_dist a b) ∈ neighbors adj (node_id a) /\
     Neighbor (node_id a) (edge_dist a b) ∈ neighbors adj (node_id b)) /\
  (forall k e, e ∈ neighbors adj k ->
     exists r a b, r ∈ rs /\ road_between ns r a b /\ entry_of a b k e).

(** The number of entries in all the adjacency lists together. *)
Definition entry_count (ns : list node) (adj : gmap nat (list neighbor)) : nat :=
  sum_list_with (fun k => length (neighbors adj k)) (seq 0 (length ns)).

(** ** Paths *)

(** A path without [undefined] that visits no node twice and holds at
    most as many nodes as the graph has. *)
Definition simple_path (g : graph) (p : path_t) : Prop :=
  exists ns, p = Some <$> ns /\ NoDup (node_id <$> ns) /\
    1 <= length ns <= length (nodes g).

(** A path, if there is one, holds nodes only, and at least one. *)
Definition defined_path (r : option path_t) : Prop :=
  match r with
  | Some p => exists ns, p = Some <$> ns /\ 1 <= length ns
  | None => True
  end.

(** ** Frames *)

(** The car's segment index names a segment of its path: both
    [path[segIndex]] and [path[segIndex + 1]] are there.  Nothing is asked
    of a car without a path of two nodes or more. *)
Definition on_segment (c : car) : Prop :=
  match path c with
  | Some p => 1 < length p -> segIndex c + 1 < length p
  | None => True
  end.

(** The car is where [resetCar] puts it: at the origin, on segment 0, at
    progress 0. *)
Definition at_origin (c : car) : Prop :=
  car_x c = fst start /\ car_y c = snd start /\
  segIndex c = 0 /\ progress c = 0%float.

(** What a frame that finds the path [r] does, whatever the move of the
    car: the roads and the speed stay, the car's path is [r] and its
    segment index names a segment of it, and the score stays or goes up by
    one, which it does only as the car is put back at the origin. *)
Definition frame_step (r : option path_t) (g g' : game) : Prop :=
  roads g' = roads g /\
  speed (the_car g') = speed (the_car g) /\
  path (the_car g') = r /\
  on_segment (the_car g') /\
  (score g' = score g \/ (score g' = S (score g) /\ at_origin (the_car g'))).

(** The game with the car put on segment 0 at progress 0, where it stands. *)
Definition restart (g : game) : game :=
  Game (score g) (roads g) (set_progress 0%float (set_segIndex 0 (the_car g))).

(** The car's segment index fits the path that the next frame will find:
    if that path has two nodes or more, [segIndex + 1] indexes one of them. *)
Definition in_step (cv : canvas) (g : game) : Prop :=
  forall p, Classes.findPath (Classes.buildGraph cv (roads g)) = Ret (Some p) ->
    1 < length p -> segIndex (the_car g) + 1 < length p.

(** The number of frames among the events. *)
Fixpoint frame_count (es : list event) : nat :=
  match es with
  | [] => 0
  | Frame :: es' => S (frame_count es')
  | Draw _ _ :: es' => frame_count es'
  end.

(** The roads after the drawings among the events. *)
Definition roads_after (es : list event) (rs : list road) : list road :=
  fold_left (fun rs e => match e with
                         | Frame => rs
                         | Draw a b => add_road a b rs
                         end) es rs.

(** The progress is a fraction of the segment: at least 0 and below 1. *)
Definition unit_progress (c : car) : bool :=
  (0 <=? progress c)%float && (progress c <? 1)%float.

(** The two ends of a drawing have finite coordinates. *)
Definition finite_event (e : event) : bool :=
  match e with
  | Frame => true
  | Draw a b => is_finite (fst a) && is_finite (snd a) &&
                is_finite (fst b) && is_finite (snd b)
  end.

(** The road is longer than 5, as the [mouseup] listener measures it. *)
Definition long_road (r : road) : bool :=
  gtb (hypot (x2 r - x1 r) (y2 r - y1 r)) 5%float.

(** ** The browser's calls *)

(** The frame callback without its drawing. *)
Definition frame_of (upd : game -> result game) (w : world) : result world :=
  g' ← upd (globals w); Ret (World g' (the_pointer w)).

(** The pointer after one call. *)
Definition pointer_step (p : pointer) (i : input) : pointer :=
  match i with
  | Tick => p
  | MouseDown rect e => Pointer true (canvas_pos rect e) (mousePos p)
  | MouseMove rect e =>
      if isDrawing p then Pointer true (drawStart p) (canvas_pos rect e) else p
  | MouseUp rect e =>
      if isDrawing p then Pointer false (drawStart p) (mousePos p) else p
  end.

(** The frames and drawings that a sequence of calls amounts to: a frame
    for each call of the frame callback, and a drawing for each release of
    a pressed button, from where it was last pressed to where it is
    released. *)
Fixpoint events_of (p : pointer) (ins : list input) : list event :=
  match ins with
  | [] => []
  | i :: ins' =>
      match i with
      | Tick => [Frame]
      | MouseUp rect e =>
          if isDrawing p then [Draw (drawStart p) (canvas_pos rect e)] else []
      | _ => []
      end ++ events_of (pointer_step p i) ins'
  end.

(** Neither side of the canvas is above 100000; a side that is not a
    number passes. *)
Definition fits (cv : canvas) : bool :=
  negb (gtb (width cv) 100000) && negb (gtb (height cv) 100000).

(** The number of steps of 20 from 0 to 100000. *)
Definition grid_steps : nat := 50 * 100.

(** Fuel for each of the two loops of [drawGrid] on such a canvas. *)
Definition grid_fuel : nat := S grid_steps.

(** One end of the road [r] lies within the snap threshold of the node [n]. *)
Definition touches (n : node) (r : road) : Prop :=
  near n (x1 r) (y1 r) = true \/ near n (x2 r) (y2 r) = true.

(** The game with [k] more points and the car's path set to [q]. *)
Definition later (k : nat) (q : option path_t) (g : game) : game :=
  Game (k + score g) (roads g) (set_path q (the_car g)).

(** * Facts about the graph builders *)

Lemma find_some_elem {A} (f : A -> bool) l x :
  List.find f l = Some x -> x ∈ l /\ f x = true.
Proof.
  intros H. apply find_some in H as [H1 H2]. split; [by apply list_elem_of_In|done].
Qed.

Lemma ids_ok_nil : ids_ok [].
Proof. intros i n H. done. Qed.

Lemma ids_ok_snoc ns x y : ids_ok ns -> ids_ok (ns ++ [Node (length ns) x y]).
Proof.
  intros H i n Hi. destruct (decide (i < length ns)) as [Hlt|Hge].
  - rewrite lookup_app_l in Hi by done. by apply H.
  - rewrite lookup_app_r in Hi by lia.
    destruct (i - length ns) as [|k] eqn:E; simpl in Hi; [|done].
    injection Hi as <-. simpl. lia.
Qed.

Lemma find_by_id ns c : ids_ok ns ->
  List.find (fun n => Nat.eqb (node_id n) c) ns = ns !! c.
Proof.
  intros H.
  destruct (List.find _ ns) as [n|] eqn:E.
  - apply find_some_elem in E as [Hin Hc]. apply Nat.eqb_eq in Hc.
    apply list_elem_of_lookup in Hin as [i Hi]. rewrite <- Hc, (H i n Hi). done.
  - destruct (ns !! c) as [n|] eqn:E'; [|done].
    exfalso. pose proof (find_none _ _ E n) as Hn. simpl in Hn.
    rewrite (H c n E'), Nat.eqb_refl in Hn.
    assert (Hin : In n ns) by (apply list_elem_of_In, list_elem_of_lookup; eauto).
    by specialize (Hn Hin).
Qed.

Lemma wf_build_empty : wf_build [] ∅.
Proof.
  split.
  - apply ids_ok_nil.
  - intros k [l Hl]. by rewrite lookup_empty in Hl.
  - intros k e. unfold neighbors. rewrite lookup_empty. simpl. by intros ?%elem_of_nil.
  - intros a b d. unfold neighbors. rewrite lookup_empty. simpl. by intros ?%elem_of_nil.
Qed.

Lemma wf_build_grow ns adj tl :
  wf_build ns adj -> ids_ok (ns ++ tl) -> wf_build (ns ++ tl) adj.
Proof.
  intros [H1 H2 H3 H4] Hids. split; try done.
  - intros k Hk. rewrite length_app. specialize (H2 k Hk). lia.
  - intros k e He. rewrite length_app. specialize (H3 k e He). lia.
Qed.

Lemma wf_build_edge ns adj adj' a b d :
  wf_build ns adj -> a < length ns -> b < length ns ->
  edge_added a b d adj adj' -> wf_build ns adj'.
Proof.
  intros [H1 H2 H3 H4] Ha Hb [Hn Hk]. split; try done.
  - intros k [Hs|[ ->| ->]]%Hk; auto.
  - intros k e. rewrite Hn, !elem_of_app.
    intros [He|[He|He]]; [by eapply H3| |]; case_decide;
      try (by apply elem_of_nil in He); apply list_elem_of_singleton in He; by subst e.
  - intros x y dd. rewrite !Hn, !elem_of_app.
    intros [He|[He|He]].
    + left. by apply H4.
    + case_decide as Hx; [|by apply elem_of_nil in He].
      apply list_elem_of_singleton in He. injection He as -> ->. subst x.
      right; right. rewrite decide_True by done. by apply list_elem_of_singleton.
    + case_decide as Hx; [|by apply elem_of_nil in He].
      apply list_elem_of_singleton in He. injection He as -> ->. subst x.
      right; left. rewrite decide_True by done. by apply list_elem_of_singleton.
Qed.

(** The node list after a lookup-or-append. *)
Lemma lookup_or_append ns x y :
  ids_ok ns ->
  match List.find (fun n => near n x y) ns with
  | Some n => ns !! node_id n = Some n /\ near n x y = true
  | None => ids_ok (ns ++ [Node (length ns) x y]) /\
            (ns ++ [Node (length ns) x y]) !! length ns = Some (Node (length ns) x y)
  end.
Proof.
  intros Hids. destruct (List.find _ ns) as [n|] eqn:E.
  - apply find_some_elem in E as [[i Hi]%list_elem_of_lookup Hn].
    by rewrite (Hids i n Hi).
  - split; [by apply ids_ok_snoc|].
    rewrite lookup_app_r by lia. by rewrite Nat.sub_diag.
Qed.

Lemma neighbors_insert adj k l j :
  neighbors (<[k := l]> adj) j = if decide (j = k) then l else neighbors adj j.
Proof.
  unfold neighbors. case_decide as H.
  - subst. by rewrite lookup_insert_eq.
  - by rewrite lookup_insert_ne.
Qed.

Lemma wf_build_ext ns adj adj' :
  wf_build ns adj ->
  (forall k, neighbors adj' k = neighbors adj k) ->
  (forall k, is_Some (adj' !! k) -> k < length ns) ->
  wf_build ns adj'.
Proof.
  intros [H1 H2 H3 H4] Hn Hk. split; try done.
  - intros k e. rewrite Hn. apply H3.
  - intros a b d. rewrite !Hn. apply H4.
Qed.

Module GameJsFacts.
Import GameJs.

(** In [game.js] the keys of [adj] are exactly the ids of the nodes. *)
Definition total_adj (st : build_state) : Prop :=
  forall k, k < length st.1 <-> is_Some (st.2 !! k).

(** The invariant of the build in [game.js]. *)
Definition good (st : build_state) : Prop := wf_build st.1 st.2 /\ total_adj st.

Lemma gj_getOrCreateNode_good x y st :
  good st ->
  let n := (getOrCreateNode x y st).1 in
  let st' := (getOrCreateNode x y st).2 in
  good st' /\ st'.1 !! node_id n = Some n /\
  (forall k, neighbors st'.2 k = neighbors st.2 k) /\
  exists tl, st'.1 = st.1 ++ tl /\ length tl <= 1.
Proof.
  intros [Hwf Htot]. unfold getOrCreateNode.
  pose proof (lookup_or_append st.1 x y (wf_ids _ _ Hwf)) as H.
  destruct (List.find _ st.1) as [n|]; simpl.
  - destruct H as [H _]. split; [done|]. split; [done|]. split; [done|].
    exists (@nil node). split; [by rewrite app_nil_r|simpl; lia].
  - destruct H as [Hids Hlast].
    assert (Hnone : st.2 !! length st.1 = None).
    { destruct (st.2 !! length st.1) eqn:E; [|done].
      assert (length st.1 < length st.1) by (apply Htot; eauto). lia. }
    assert (Hnb : forall k, neighbors (<[length st.1 := []]> st.2) k = neighbors st.2 k).
    { intros k. rewrite neighbors_insert. case_decide; [subst|done].
      unfold neighbors. by rewrite Hnone. }
    split; [split; [|split]|split; [done|split; [done|]]]; simpl.
    + apply wf_build_ext with (adj := st.2); [by apply wf_build_grow|done|].
      intros k. rewrite length_app. simpl. rewrite lookup_insert.
      case_decide; [lia|]. intros Hs%Htot. lia.
    + rewrite length_app. simpl. rewrite lookup_insert. case_decide; [eauto|].
      intros Hk. apply Htot. lia.
    + rewrite length_app. simpl. rewrite lookup_insert. case_decide; [lia|].
      intros Hk%Htot. lia.
    + exists [Node (length st.1) x y]. split; [done|simpl; lia].
Qed.

Lemma gj_push_total k e adj :
  is_Some (adj !! k) ->
  exists adj', push k e adj = Ret adj' /\
    (forall j, neighbors adj' j =
       neighbors adj j ++ (if decide (j = k) then [e] else [])) /\
    (forall j, is_Some (adj' !! j) <-> is_Some (adj !! j)).
Proof.
  intros [l Hl]. unfold push. rewrite Hl. eexists; split; [done|]. split.
  - intros j. rewrite neighbors_insert. case_decide.
    + subst. unfold neighbors. by rewrite Hl.
    + by rewrite app_nil_r.
  - intros j. rewrite lookup_insert. case_decide; [|done]. subst. rewrite Hl. split; eauto.
Qed.

Lemma gj_addRoad_good st r :
  good st ->
  exists st', addRoad st r = Ret st' /\ good st' /\
    length st'.1 <= length st.1 + 2 /\ exists tl, st'.1 = st.1 ++ tl.
Proof.
  intros Hg. unfold addRoad.
  pose proof (gj_getOrCreateNode_good (x1 r) (y1 r) st Hg) as H1.
  destruct (getOrCreateNode (x1 r) (y1 r) st) as [nodeA st1]. simpl in H1.
  destruct H1 as (Hg1 & HA & Hn1 & tl1 & Htl1 & Hlen1).
  pose proof (gj_getOrCreateNode_good (x2 r) (y2 r) st1 Hg1) as H2.
  destruct (getOrCreateNode (x2 r) (y2 r) st1) as [nodeB st2]. simpl in H2.
  destruct H2 as (Hg2 & HB & Hn2 & tl2 & Htl2 & Hlen2).
  assert (HA2 : node_id nodeA < length st2.1).
  { rewrite Htl2, length_app. apply lookup_lt_Some in HA. lia. }
  assert (HB2 : node_id nodeB < length st2.1) by (by apply lookup_lt_Some in HB).
  destruct Hg2 as [Hwf2 Htot2].
  set (d := hypot _ _).
  destruct (gj_push_total (node_id nodeA) (Neighbor (node_id nodeB) d) st2.2)
    as (adj1 & E1 & Hnb1 & Hk1); [by apply Htot2|]. rewrite E1. simpl.
  destruct (gj_push_total (node_id nodeB) (Neighbor (node_id nodeA) d) adj1)
    as (adj2 & E2 & Hnb2 & Hk2); [by apply Hk1, Htot2|]. rewrite E2.
  simpl. eexists; split; [done|]. simpl.
  split; [split; [|split]|split].
  - apply wf_build_edge with (adj := st2.2) (a := node_id nodeA) (b := node_id nodeB) (d := d);
      try done.
    split.
    + intros k. by rewrite Hnb2, Hnb1, <- app_assoc.
    + intros k. rewrite Hk2, Hk1. split; [auto|].
      intros [?|[ ->| ->]]; [done|by apply Htot2..].
  - simpl. intros Hk. by apply Hk2, Hk1, Htot2.
  - simpl. intros Hk. by apply Htot2, Hk1, Hk2.
  - rewrite Htl2, Htl1, !length_app. lia.
  - exists (tl1 ++ tl2). by rewrite Htl2, Htl1, app_assoc.
Qed.

Lemma gj_forEach_addRoad_good rs : forall st,
  good st ->
  exists st', forEach addRoad rs st = Ret st' /\ good st' /\
    length st'.1 <= length st.1 + 2 * length rs /\ exists tl, st'.1 = st.1 ++ tl.
Proof.
  induction rs as [|r rs IH]; intros st Hg; simpl.
  - exists st. split; [done|]. split; [done|]. split; [lia|].
    exists (@nil node). by rewrite app_nil_r.
  - destruct (gj_addRoad_good st r Hg) as (st1 & -> & Hg1 & Hlen1 & tl1 & Htl1).
    destruct (IH st1 Hg1) as (st2 & Hst2 & Hg2 & Hlen2 & tl2 & Htl2).
    exists st2. simpl. split; [done|]. split; [done|]. split; [lia|].
    exists (tl1 ++ tl2). by rewrite Htl2, Htl1, app_assoc.
Qed.

Lemma gj_good_empty : good ([], ∅).
Proof.
  split; [apply wf_build_empty|]. intros k. simpl. rewrite lookup_empty.
  split; [lia|]. by intros [? ?].
Qed.

(** The graph of [game.js] is always built, and is well formed. *)
Lemma gj_buildGraph_good cv rs :
  exists g, buildGraph cv rs = Ret g /\ good (nodes g, adj g) /\
    length (nodes g) <= 2 * length rs + 2 /\
    startNode g = Node 0 (fst start) (snd start) /\
    nodes g !! 0 = Some (startNode g) /\
    nodes g !! node_id (destNode g) = Some (destNode g).
Proof.
  unfold buildGraph.
  pose proof (gj_getOrCreateNode_good (fst start) (snd start) _ gj_good_empty) as H1.
  destruct (getOrCreateNode (fst start) (snd start) ([], ∅)) as [sN st1] eqn:E1.
  simpl in H1. destruct H1 as (Hg1 & Hs & _ & tl1 & Htl1 & Hlen1).
  assert (HsN : sN = Node 0 (fst start) (snd start)).
  { unfold getOrCreateNode in E1. simpl in E1. by injection E1 as <- _. }
  pose proof (gj_getOrCreateNode_good (fst (dest cv)) (snd (dest cv)) _ Hg1) as H2.
  destruct (getOrCreateNode (fst (dest cv)) (snd (dest cv)) st1) as [dN st2].
  simpl in H2. destruct H2 as (Hg2 & Hd & _ & tl2 & Htl2 & Hlen2).
  destruct (gj_forEach_addRoad_good rs st2 Hg2) as (st3 & -> & Hg3 & Hlen3 & tl3 & Htl3).
  simpl. eexists; split; [done|]. simpl.
  split; [by destruct st3|].
  split. { rewrite Htl2, Htl1, !length_app in Hlen3. simpl in Hlen3. lia. }
  split; [done|].
  split.
  - rewrite Htl3, Htl2. rewrite !lookup_app_l; [by subst sN|..].
    + apply lookup_lt_Some in Hs. by subst sN.
    + rewrite length_app. apply lookup_lt_Some in Hs. subst sN. simpl in Hs. lia.
  - rewrite Htl3. rewrite lookup_app_l; [done|]. by apply lookup_lt_Some in Hd.
Qed.

End GameJsFacts.

Module ClassesFacts.
Import Classes.

Lemma cl_ensure_spec k adj :
  (forall j, neighbors (ensure k adj) j = neighbors adj j) /\
  (forall j, is_Some (ensure k adj !! j) <-> is_Some (adj !! j) \/ j = k).
Proof.
  unfold ensure. destruct (adj !! k) as [l|] eqn:E.
  - split; [done|]. intros j. split; [auto|]. intros [?| ->]; eauto.
  - split.
    + intros j. rewrite neighbors_insert. case_decide; [subst|done].
      unfold neighbors. by rewrite E.
    + intros j. rewrite lookup_insert. case_decide.
      * subst. split; eauto.
      * split; [auto|]. by intros [?|?].
Qed.

Lemma cl_push_spec k e adj :
  (forall j, neighbors (push k e adj) j =
     neighbors adj j ++ (if decide (j = k) then [e] else [])) /\
  (forall j, is_Some (push k e adj !! j) <-> is_Some (adj !! j) \/ j = k).
Proof.
  unfold push. split.
  - intros j. rewrite neighbors_insert. case_decide; [by subst|by rewrite app_nil_r].
  - intros j. rewrite lookup_insert. case_decide.
    + subst. split; eauto.
    + split; [auto|]. by intros [?|?].
Qed.

Lemma cl_addEdge_edge_added n1 n2 adj :
  edge_added (node_id n1) (node_id n2)
    (hypot (node_x n1 - node_x n2) (node_y n1 - node_y n2)) adj (addEdge n1 n2 adj).
Proof.
  unfold addEdge. set (d := hypot _ _).
  destruct (cl_ensure_spec (node_id n1) adj) as [Hn1 Hk1].
  destruct (cl_ensure_spec (node_id n2) (ensure (node_id n1) adj)) as [Hn2 Hk2].
  destruct (cl_push_spec (node_id n1) (Neighbor (node_id n2) d)
              (ensure (node_id n2) (ensure (node_id n1) adj))) as [Hn3 Hk3].
  destruct (cl_push_spec (node_id n2) (Neighbor (node_id n1) d)
              (push (node_id n1) (Neighbor (node_id n2) d)
                 (ensure (node_id n2) (ensure (node_id n1) adj)))) as [Hn4 Hk4].
  split.
  - intros k. by rewrite Hn4, Hn3, Hn2, Hn1, <- app_assoc.
  - intros k. rewrite Hk4, Hk3, Hk2, Hk1. tauto.
Qed.

(** Every entry of [adj] holds at least one neighbor. *)
Definition no_empty_entry (adj : gmap nat (list neighbor)) : Prop :=
  forall k, is_Some (adj !! k) -> neighbors adj k <> [].

(** The invariant of the build in the class-based script. *)
Definition good (st : list node * gmap nat (list neighbor)) : Prop :=
  wf_build st.1 st.2 /\ no_empty_entry st.2.

Lemma cl_getOrCreateNode_good x y ns :
  ids_ok ns ->
  let n := (getOrCreateNode x y ns).1 in
  let ns' := (getOrCreateNode x y ns).2 in
  ids_ok ns' /\ ns' !! node_id n = Some n /\
  exists tl, ns' = ns ++ tl /\ length tl <= 1.
Proof.
  intros Hids. unfold getOrCreateNode.
  pose proof (lookup_or_append ns x y Hids) as H.
  destruct (List.find _ ns) as [n|]; simpl.
  - destruct H as [H _]. split; [done|]. split; [done|].
    exists (@nil node). split; [by rewrite app_nil_r|simpl; lia].
  - destruct H as [H1 H2]. split; [done|]. split; [done|].
    eexists. split; [done|simpl; lia].
Qed.

Lemma cl_addRoad_good st r :
  good st ->
  good (addRoad st r) /\
  length (addRoad st r).1 <= length st.1 + 2 /\ exists tl, (addRoad st r).1 = st.1 ++ tl.
Proof.
  intros [Hwf Hne]. unfold addRoad.
  pose proof (cl_getOrCreateNode_good (x1 r) (y1 r) st.1 (wf_ids _ _ Hwf)) as H1.
  destruct (getOrCreateNode (x1 r) (y1 r) st.1) as [nodeA ns1]. simpl in H1.
  destruct H1 as (Hi1 & HA & tl1 & Htl1 & Hlen1).
  pose proof (cl_getOrCreateNode_good (x2 r) (y2 r) ns1 Hi1) as H2.
  destruct (getOrCreateNode (x2 r) (y2 r) ns1) as [nodeB ns2]. simpl in H2.
  destruct H2 as (Hi2 & HB & tl2 & Htl2 & Hlen2).
  assert (HA2 : node_id nodeA < length ns2).
  { rewrite Htl2, length_app. apply lookup_lt_Some in HA. lia. }
  assert (HB2 : node_id nodeB < length ns2) by (by apply lookup_lt_Some in HB).
  pose proof (cl_addEdge_edge_added nodeA nodeB st.2) as Hadd.
  simpl. split; [split|split].
  - eapply wf_build_edge; [|exact HA2|exact HB2|exact Hadd].
    rewrite Htl2, Htl1, <- app_assoc. apply wf_build_grow; [done|].
    by rewrite app_assoc, <- Htl1, <- Htl2.
  - destruct Hadd as [Hn Hk]. intros k Hs. rewrite Hn.
    apply Hk in Hs as [Hs|[ ->| ->]].
    + intros [E _]%app_eq_nil. by apply (Hne k).
    + rewrite decide_True by done. intros [_ [E _]%app_eq_nil]%app_eq_nil. done.
    + rewrite (decide_True (P := node_id nodeB = node_id nodeB)) by done.
      intros [_ [_ E]%app_eq_nil]%app_eq_nil. done.
  - rewrite Htl2, Htl1, !length_app. lia.
  - exists (tl1 ++ tl2). by rewrite Htl2, Htl1, app_assoc.
Qed.

Lemma cl_fold_addRoad_good rs : forall st,
  good st ->
  good (fold_left addRoad rs st) /\
  length (fold_left addRoad rs st).1 <= length st.1 + 2 * length rs /\
  exists tl, (fold_left addRoad rs st).1 = st.1 ++ tl.
Proof.
  induction rs as [|r rs IH]; intros st Hg; simpl.
  - split; [done|]. split; [lia|]. exists (@nil node). by rewrite app_nil_r.
  - destruct (cl_addRoad_good st r Hg) as (Hg1 & Hlen1 & tl1 & Htl1).
    destruct (IH _ Hg1) as (Hg2 & Hlen2 & tl2 & Htl2).
    split; [done|]. split; [lia|].
    exists (tl1 ++ tl2). by rewrite Htl2, Htl1, app_assoc.
Qed.

Lemma cl_buildGraph_good cv rs :
  let g := buildGraph cv rs in
  good (nodes g, adj g) /\
  length (nodes g) <= 2 * length rs + 2 /\
  startNode g = Node 0 (fst start) (snd start) /\
  nodes g !! 0 = Some (startNode g) /\
  nodes g !! node_id (destNode g) = Some (destNode g).
Proof.
  unfold buildGraph.
  pose proof (cl_getOrCreateNode_good (fst start) (snd start) [] ids_ok_nil) as H1.
  destruct (getOrCreateNode (fst start) (snd start) []) as [sN ns1] eqn:E1.
  simpl in H1. destruct H1 as (Hi1 & Hs & tl1 & Htl1 & Hlen1).
  assert (HsN : sN = Node 0 (fst start) (snd start)).
  { unfold getOrCreateNode in E1. simpl in E1. by injection E1 as <- _. }
  pose proof (cl_getOrCreateNode_good (fst (dest cv)) (snd (dest cv)) _ Hi1) as H2.
  destruct (getOrCreateNode (fst (dest cv)) (snd (dest cv)) ns1) as [dN ns2].
  simpl in H2. destruct H2 as (Hi2 & Hd & tl2 & Htl2 & Hlen2).
  assert (Hg2 : good (ns2, ∅)).
  { split; simpl.
    - rewrite <- (app_nil_l ns2). apply wf_build_grow; [apply wf_build_empty|done].
    - intros k [? Hk]. by rewrite lookup_empty in Hk. }
  destruct (cl_fold_addRoad_good rs _ Hg2) as (Hg3 & Hlen3 & tl3 & Htl3).
  simpl in *.
  split; [done|].
  split. { assert (length ns2 <= 2) by (rewrite Htl2, length_app, Htl1; lia). lia. }
  split; [done|].
  split.
  - rewrite Htl3, Htl2. rewrite !lookup_app_l; [by subst sN|..].
    + apply lookup_lt_Some in Hs. by subst sN.
    + rewrite length_app. apply lookup_lt_Some in Hs. subst sN. simpl in Hs. lia.
  - rewrite Htl3. rewrite lookup_app_l; [done|]. by apply lookup_lt_Some in Hd.
Qed.

End ClassesFacts.

(** * Breadth-first search is correct *)

Section BfsCorrect.
Variable nbrs : nat -> list neighbor.
Variable neighborsOf : nat -> result (list neighbor).
Variable ns : list node.
Variables s t : nat.
Hypothesis Hids : ids_ok ns.
Hypothesis Hof : forall k, k < length ns -> neighborsOf k = Ret (nbrs k).
Hypothesis Hclosed : forall k e, e ∈ nbrs k -> nb_id e < length ns.
Hypothesis Hs : s < length ns.

Local Abbreviation walk := (walk_to nbrs s).
Local Abbreviation chn := (chain nbrs s).

Lemma walk_nonempty l v : walk l v -> 1 <= length l.
Proof. destruct 1; [simpl; lia|rewrite length_app; simpl; lia]. Qed.

Lemma walk_in_range l v : walk l v -> Forall (fun i => i < length ns) l /\ v < length ns.
Proof.
  induction 1 as [|l u v Hw [IH1 IH2] (e & He & <-)].
  - split; [by constructor|done].
  - pose proof (Hclosed _ _ He). split; [|done].
    apply Forall_app; split; [done|by constructor].
Qed.

Lemma chain_walk cf l v : chn cf l v -> walk l v.
Proof. induction 1; [constructor|by econstructor]. Qed.

Lemma chain_mono cf cf' l v : cf ⊆ cf' -> chn cf l v -> chn cf' l v.
Proof.
  intros Hsub. induction 1 as [H0|l u v Hc IH Hv He].
  - constructor. by eapply lookup_weaken.
  - econstructor; [exact IH| |done]. by eapply lookup_weaken.
Qed.

Lemma chain_visited cf l v : chn cf l v -> is_Some (cf !! v).
Proof. destruct 1; eauto. Qed.

(** Walking the links back rebuilds the walk, front to back. *)
Lemma reconstruct_chain cf l v :
  chn cf l v ->
  forall fuel acc, length l <= fuel ->
    reconstruct ns fuel cf (Some (Some v)) acc =
    Ret (((fun i => List.find (fun n => Nat.eqb (node_id n) i) ns) <$> l) ++ acc).
Proof.
  induction 1 as [H0|l u v Hc IH Hv He]; intros fuel acc Hf.
  - destruct fuel as [|fuel]; [simpl in Hf; lia|]. simpl. rewrite H0. by destruct fuel.
  - rewrite length_app in Hf. simpl in Hf.
    destruct fuel as [|fuel]; [lia|]. simpl. rewrite Hv.
    rewrite IH by lia. by rewrite fmap_app, <- app_assoc.
Qed.

(** [v] was reached along a shortest walk, of [S d] nodes. *)
Definition lvl (cf : gmap nat (option nat)) (v d : nat) : Prop :=
  (exists l, chn cf l v /\ length l = S d) /\
  forall l', walk l' v -> S d <= length l'.

Lemma lvl_mono cf cf' v d : cf ⊆ cf' -> lvl cf v d -> lvl cf' v d.
Proof.
  intros Hsub [(l & Hc & Hl) Hmin]. split; [|done].
  exists l. split; [by eapply chain_mono|done].
Qed.

(** The loop invariant: the queue is [q1 ++ q2], the nodes of [q1] lie at
    distance [d] from the start and those of [q2] at distance [S d]. *)
Record inv (d : nat) (q1 q2 : list nat) (cf : gmap nat (option nat)) : Prop := Inv {
  inv_q1 : forall v, v ∈ q1 -> lvl cf v d;
  inv_q2 : forall v, v ∈ q2 -> lvl cf v (S d);
  inv_done : forall v, is_Some (cf !! v) -> v ∉ q1 -> v ∉ q2 ->
             v <> t /\ forall w, edge nbrs v w -> is_Some (cf !! w);
  inv_near : forall l v, walk l v -> length l <= S d -> is_Some (cf !! v);
  inv_range : forall v, is_Some (cf !! v) -> v < length ns;
  inv_size : S d + length q2 <= size cf
}.

Lemma inv_init : inv 0 [s] [] {[ s := None ]}.
Proof.
  split.
  - intros v ->%list_elem_of_singleton. split.
    + exists [s]. split; [|done]. constructor. by rewrite lookup_singleton_eq.
    + intros l' Hw. by apply walk_nonempty in Hw.
  - by intros v ?%elem_of_nil.
  - intros v [x Hv] Hq. apply lookup_singleton_Some in Hv as [<- _].
    exfalso. apply Hq. by apply list_elem_of_singleton.
  - intros l v Hw Hl. destruct Hw as [|l u v Hw He].
    + rewrite lookup_singleton_eq. eauto.
    + apply walk_nonempty in Hw. rewrite length_app in Hl. simpl in Hl. lia.
  - intros v [x Hv]. by apply lookup_singleton_Some in Hv as [<- _].
  - rewrite map_size_singleton. simpl. lia.
Qed.

(** When the nodes at distance [d] are used up, those at distance [S d]
    take their place. *)
Lemma inv_rotate d q2 cf : q2 <> [] -> inv d [] q2 cf -> inv (S d) q2 [] cf.
Proof.
  intros Hne [H1 H2 H3 H4 H5 H6]. split; try done.
  - by intros v ?%elem_of_nil.
  - intros v Hv Hq _. apply H3; [done| |done]. by intros ?%elem_of_nil.
  - intros l v Hw Hl.
    destruct (decide (length l <= S d)) as [Hle|Hgt]; [by eapply H4|].
    destruct Hw as [|l u v Hw He].
    { simpl in Hgt. lia. }
    rewrite length_app in Hl, Hgt. simpl in Hl, Hgt.
    assert (Hu : is_Some (cf !! u)) by (eapply H4; [exact Hw|lia]).
    destruct (decide (u ∈ q2)) as [Hin|Hnin].
    + destruct (H2 u Hin) as [_ Hmin]. specialize (Hmin l Hw). lia.
    + apply (H3 u Hu); [by intros ?%elem_of_nil|done|done].
  - destruct q2; [done|]. simpl in *. lia.
Qed.

Lemma size_le_range (cf : gmap nat (option nat)) n :
  (forall v, is_Some (cf !! v) -> v < n) -> size cf <= n.
Proof.
  intros H. rewrite <- size_dom.
  rewrite <- (size_set_seq (C := gset nat) 0 n).
  apply subseteq_size. intros v Hv. apply elem_of_dom in Hv.
  apply elem_of_set_seq. specialize (H v Hv). lia.
Qed.

(** One turn of the inner loop keeps the invariant, with [u] still counted
    among the nodes at distance [d]. *)
Lemma visit_inv u d q1 q2 cf e :
  e ∈ nbrs u ->
  inv d (u :: q1) q2 cf ->
  exists q2' cf',
    visit u (q1 ++ q2, cf) e = (q1 ++ q2', cf') /\
    inv d (u :: q1) q2' cf' /\ cf ⊆ cf' /\ is_Some (cf' !! nb_id e) /\
    size cf' + length q2 = size cf + length q2'.
Proof.
  intros He Hinv. unfold visit.
  destruct (cf !! nb_id e) as [x|] eqn:E.
  - exists q2, cf. rewrite E. eauto 10.
  - set (w := nb_id e) in *.
    exists (q2 ++ [w]), (<[w := Some u]> cf).
    assert (Hsub : cf ⊆ <[w := Some u]> cf) by (by apply insert_subseteq).
    destruct Hinv as [H1 H2 H3 H4 H5 H6].
    split; [by rewrite app_assoc|]. split; [split|].
    + intros v Hv. eapply lvl_mono; [done|]. by apply H1.
    + intros v [Hv| ->%list_elem_of_singleton]%elem_of_app.
      { eapply lvl_mono; [done|]. by apply H2. }
      destruct (H1 u) as [(l & Hc & Hl) Hmin]; [by left|].
      split.
      * exists (l ++ [w]). split.
        -- econstructor; [by eapply chain_mono|by rewrite lookup_insert_eq|by exists e].
        -- rewrite length_app. simpl. lia.
      * intros l' Hw.
        destruct (decide (S (S d) <= length l')) as [|Hlt]; [done|].
        assert (Hv : is_Some (cf !! w)) by (eapply H4; [exact Hw|lia]).
        rewrite E in Hv. by destruct Hv.
    + intros v Hv Hq1 Hq2.
      assert (Hvw : v <> w).
      { intros ->. apply Hq2, elem_of_app. right. by apply list_elem_of_singleton. }
      rewrite lookup_insert_ne in Hv by done.
      destruct (H3 v Hv Hq1) as [Hvt Hexp].
      { intros Hin. apply Hq2, elem_of_app. by left. }
      split; [done|]. intros x Hx. specialize (Hexp x Hx).
      destruct Hexp as [y Hy]. exists y. by eapply lookup_weaken.
    + intros l v Hw Hl. destruct (H4 l v Hw Hl) as [y Hy].
      exists y. by eapply lookup_weaken.
    + intros v. rewrite lookup_insert. case_decide; [|by apply H5].
      subst v. intros _. by eapply Hclosed.
    + rewrite map_size_insert_None by done. rewrite length_app. simpl. lia.
    + split; [done|]. split; [rewrite lookup_insert_eq; eauto|].
      rewrite map_size_insert_None by done. rewrite length_app. simpl. lia.
Qed.

(** The whole inner loop. *)
Lemma visit_loop u d q1 : forall todo q2 cf,
  (forall e, e ∈ todo -> e ∈ nbrs u) ->
  inv d (u :: q1) q2 cf ->
  exists q2' cf',
    fold_left (visit u) todo (q1 ++ q2, cf) = (q1 ++ q2', cf') /\
    inv d (u :: q1) q2' cf' /\ cf ⊆ cf' /\
    (forall e, e ∈ todo -> is_Some (cf' !! nb_id e)) /\
    size cf' + length q2 = size cf + length q2'.
Proof.
  induction todo as [|e todo IH]; intros q2 cf Hin Hinv; cbn [fold_left].
  - exists q2, cf. split; [done|]. split; [done|]. split; [done|].
    split; [by intros e ?%elem_of_nil|done].
  - destruct (visit_inv u d q1 q2 cf e) as (q2a & cfa & -> & Hinva & Hsuba & Hea & Hsza);
      [apply Hin; by left|done|].
    destruct (IH q2a cfa) as (q2b & cfb & -> & Hinvb & Hsubb & Heb & Hszb);
      [intros x Hx; apply Hin; by right|done|].
    exists q2b, cfb. split; [done|]. split; [done|].
    split; [by etrans|]. split; [|lia].
    intros x [->|Hx]%elem_of_cons; [|by apply Heb].
    destruct Hea as [y Hy]. exists y. by eapply lookup_weaken.
Qed.

(** Once its neighbors are all seen, [u] leaves the queue for good. *)
Lemma inv_pop u d q1 q2 cf :
  inv d (u :: q1) q2 cf -> u <> t ->
  (forall e, e ∈ nbrs u -> is_Some (cf !! nb_id e)) ->
  inv d q1 q2 cf.
Proof.
  intros [H1 H2 H3 H4 H5 H6] Hut Hexp. split; try done.
  - intros v Hv. apply H1. by right.
  - intros v Hv Hq1 Hq2. destruct (decide (v = u)) as [->|Hvu].
    + split; [done|]. intros w (e & He & <-). by apply Hexp.
    + apply H3; [done| |done]. by intros [?|?]%elem_of_cons.
Qed.

(** With an empty queue every node a walk can reach has been seen, and
    none of them was the destination. *)
Lemma inv_empty d cf : inv d [] [] cf -> forall l, ~ walk l t.
Proof.
  intros [H1 H2 H3 H4 H5 H6].
  assert (Hall : forall l v, walk l v -> is_Some (cf !! v)).
  { induction 1 as [|l u v Hw IH He].
    - eapply (H4 [s]); [constructor|simpl; lia].
    - destruct (H3 u IH) as [_ Hexp]; [by intros ?%elem_of_nil..|]. by apply Hexp. }
  intros l Hw. destruct (H3 t (Hall _ _ Hw)) as [Hne _]; [by intros ?%elem_of_nil..|].
  done.
Qed.

(** The invariant with the head of the queue at distance [d]. *)
Lemma inv_head d q1 q2 cf u rest :
  inv d q1 q2 cf -> q1 ++ q2 = u :: rest ->
  exists d' q1' q2', inv d' (u :: q1') q2' cf /\ rest = q1' ++ q2'.
Proof.
  intros Hinv Hq. destruct q1 as [|u' q1].
  - simpl in Hq. subst q2. exists (S d), rest, [].
    split; [by apply inv_rotate|by rewrite app_nil_r].
  - simpl in Hq. injection Hq as -> <-. by exists d, q1, q2.
Qed.

(** The search ends within the fuel, and what it returns meets [path_spec]. *)
Lemma bfs_correct rfuel : length ns <= rfuel ->
  forall fuel d q1 q2 cf,
  inv d q1 q2 cf ->
  (length ns - size cf) + length (q1 ++ q2) < fuel ->
  exists r, bfs neighborsOf ns t fuel rfuel (q1 ++ q2) cf = Ret r /\
            path_spec nbrs ns s t r.
Proof.
  intros Hrf. induction fuel as [|fuel IH]; intros d q1 q2 cf Hinv Hfuel; [lia|].
  simpl. destruct (q1 ++ q2) as [|u rest] eqn:Hq.
  - exists None. split; [done|]. simpl.
    apply app_eq_nil in Hq as [-> ->]. by eapply inv_empty.
  - destruct (inv_head _ _ _ _ _ _ Hinv Hq) as (d' & q1' & q2' & Hinv' & ->).
    clear Hinv Hq d q1 q2.
    pose proof (size_le_range cf _ (inv_range _ _ _ _ Hinv')) as Hsz.
    destruct (Nat.eqb_spec u t) as [->|Hut].
    + destruct (inv_q1 _ _ _ _ Hinv' t) as [(l & Hc & Hl) Hmin]; [by left|].
      pose proof (inv_size _ _ _ _ Hinv') as Hsd.
      rewrite (reconstruct_chain cf l t Hc) by lia. simpl.
      eexists. split; [done|]. simpl. exists l.
      destruct (walk_in_range l t (chain_walk _ _ _ Hc)) as [Hrange _].
      split; [|split; [done|split; [by eapply chain_walk|]]].
      * rewrite app_nil_r. apply list_fmap_ext. intros i x _. by apply find_by_id.
      * intros l' Hw. specialize (Hmin l' Hw). lia.
    + assert (Hu : u < length ns).
      { apply (inv_range _ _ _ _ Hinv').
        destruct (inv_q1 _ _ _ _ Hinv' u) as [(l & Hc & _) _]; [by left|].
        by eapply chain_visited. }
      rewrite (Hof u Hu). simpl.
      destruct (visit_loop u d' q1' (nbrs u) q2' cf) as (q2b & cfb & -> & Hinvb & _ & Heb & Hszb);
        [done|done|].
      apply (IH d' q1' q2b cfb).
      * by apply (inv_pop u).
      * pose proof (size_le_range cfb _ (inv_range _ _ _ _ Hinvb)) as Hszb'.
        simpl in Hfuel. rewrite length_app in Hfuel |- *. lia.
Qed.

End BfsCorrect.

(** [findPath] on a graph whose ids are in range. *)
Lemma findPath_with_correct nof nbrs (g : graph) :
  ids_ok (nodes g) ->
  (forall k, k < length (nodes g) -> nof g k = Ret (nbrs k)) ->
  (forall k e, e ∈ nbrs k -> nb_id e < length (nodes g)) ->
  node_id (startNode g) < length (nodes g) ->
  exists r, findPath_with nof (S (length (nodes g))) g = Ret r /\
    path_spec nbrs (nodes g) (node_id (startNode g)) (node_id (destNode g)) r.
Proof.
  intros Hids Hof Hcl Hs. unfold findPath_with.
  eapply (bfs_correct nbrs (nof g) (nodes g) (node_id (startNode g)) (node_id (destNode g)))
    with (d := 0) (q1 := [node_id (startNode g)]) (q2 := []); try done; try lia.
  - by apply inv_init.
  - rewrite map_size_singleton. simpl. lia.
Qed.

(** * Binary64 facts *)

Lemma SFcompare_refl x : SFcompare x x = if sf_nan x then None else Some Eq.
Proof.
  destruct x as [s|s| |s m e]; simpl; try done.
  - by destruct s.
  - rewrite Z.compare_refl, Pos.compare_cont_refl. by destruct s.
Qed.

Lemma is_nan_spec x : is_nan x = sf_nan (Prim2SF x).
Proof.
  unfold is_nan. rewrite FloatAxioms.eqb_spec. unfold SFeqb. rewrite SFcompare_refl.
  by destruct (sf_nan _).
Qed.

Lemma Prim2SF_infinity : Prim2SF infinity = S754_infinity false.
Proof. reflexivity. Qed.

Lemma is_infinity_spec x :
  is_infinity x = match Prim2SF x with S754_infinity _ => true | _ => false end.
Proof.
  unfold is_infinity. rewrite FloatAxioms.eqb_spec, FloatAxioms.abs_spec, Prim2SF_infinity.
  by destruct (Prim2SF x) as [s|s| |s m e].
Qed.

Lemma is_finite_spec x : is_finite x = sf_finite (Prim2SF x).
Proof.
  unfold is_finite. rewrite is_nan_spec, is_infinity_spec.
  by destruct (Prim2SF x).
Qed.

Lemma binary_round_aux_shape s m e l :
  match binary_round_aux prec emax s m e l with
  | S754_zero s' | S754_infinity s' | S754_finite s' _ _ => s' = s
  | S754_nan => True
  end.
Proof.
  unfold binary_round_aux.
  destruct (shr_fexp _ _ _ _ _) as [mrs' e'].
  destruct (shr_fexp _ _ _ _ _) as [mrs'' e''].
  destruct (shr_m mrs''); [done| |done].
  by destruct (Z.leb _ _).
Qed.

(** Rounding a non-negative mantissa never yields NaN. *)
Lemma shr_1_nonneg mrs : (0 <= shr_m mrs)%Z -> (0 <= shr_m (shr_1 mrs))%Z.
Proof.
  destruct mrs as [m r s]. simpl. intros Hm.
  destruct m as [|p|p]; [done| |lia]. by destruct p.
Qed.

Lemma iter_pos_shr_1_nonneg p : forall mrs,
  (0 <= shr_m mrs)%Z -> (0 <= shr_m (SpecFloat.iter_pos shr_1 p mrs))%Z.
Proof.
  induction p as [p IH|p IH|]; intros mrs Hm; simpl.
  - by apply IH, IH, shr_1_nonneg.
  - by apply IH, IH.
  - by apply shr_1_nonneg.
Qed.

Lemma shr_fexp_nonneg m e l :
  (0 <= m)%Z -> (0 <= shr_m (fst (shr_fexp prec emax m e l)))%Z.
Proof.
  intros Hm. unfold shr_fexp, shr.
  assert (H0 : (0 <= shr_m (shr_record_of_loc m l))%Z).
  { destruct l as [|[]]; simpl; done. }
  destruct (_ - e)%Z; simpl; try done. by apply iter_pos_shr_1_nonneg.
Qed.

Lemma round_nearest_even_nonneg m l :
  (0 <= m)%Z -> (0 <= round_nearest_even m l)%Z.
Proof.
  intros Hm. destruct l as [|[]]; simpl; try done; [|lia].
  destruct (Z.even m); lia.
Qed.

Lemma binary_round_aux_not_nan s m e l :
  (0 <= m)%Z -> sf_nan (binary_round_aux prec emax s m e l) = false.
Proof.
  intros Hm. unfold binary_round_aux.
  pose proof (shr_fexp_nonneg m e l Hm) as H1.
  destruct (shr_fexp prec emax m e l) as [mrs' e']. simpl in H1.
  pose proof (shr_fexp_nonneg
    (round_nearest_even (shr_m mrs') (loc_of_shr_record mrs')) e' loc_Exact
    (round_nearest_even_nonneg _ _ H1)) as H2.
  destruct (shr_fexp prec emax _ e' loc_Exact) as [mrs'' e'']. simpl in H2.
  destruct (shr_m mrs''); [done| |lia]. by destruct (Z.leb _ _).
Qed.

Lemma binary_round_aux_sign s m e l :
  (0 <= m)%Z -> sf_nonneg (binary_round_aux prec emax s m e l) = negb s.
Proof.
  intros Hm. pose proof (binary_round_aux_not_nan s m e l Hm) as Hn.
  pose proof (binary_round_aux_shape s m e l) as Hs.
  destruct (binary_round_aux prec emax s m e l); simpl in *; by subst.
Qed.

Lemma binary_round_not_nan s m e : sf_nan (binary_round prec emax s m e) = false.
Proof.
  unfold binary_round. destruct (shl_align _ _ _) as [mz ez].
  by apply binary_round_aux_not_nan.
Qed.

Lemma binary_round_sign s m e : sf_nonneg (binary_round prec emax s m e) = negb s.
Proof.
  unfold binary_round. destruct (shl_align _ _ _) as [mz ez].
  by apply binary_round_aux_sign.
Qed.

Lemma binary_round_opp m e :
  binary_round prec emax true m e = SFopp (binary_round prec emax false m e).
Proof.
  unfold binary_round. destruct (shl_align _ _ _) as [mz ez].
  unfold binary_round_aux.
  destruct (shr_fexp _ _ _ _ _) as [mrs' e'].
  destruct (shr_fexp _ _ _ _ _) as [mrs'' e''].
  destruct (shr_m mrs''); [done| |done]. by destruct (Z.leb _ _).
Qed.

Lemma binary_normalize_not_nan z e :
  sf_nan (binary_normalize prec emax z e false) = false.
Proof. destruct z; simpl; [done|apply binary_round_not_nan..]. Qed.

(** A square is never negative. *)
Lemma SFmul_square x :
  sf_nan x = false ->
  sf_nan (SF64mul x x) = false /\ sf_nonneg (SF64mul x x) = true.
Proof.
  destruct x as [s|s| |s m e]; simpl; intros Hx; try done.
  - by destruct s.
  - by destruct s.
  - split; [by apply binary_round_aux_not_nan|].
    rewrite binary_round_aux_sign by done. by destruct s.
Qed.

Lemma SFadd_nonneg x y :
  sf_nan x = false -> sf_nonneg x = true ->
  sf_nan y = false -> sf_nonneg y = true ->
  sf_nan (SF64add x y) = false /\ sf_nonneg (SF64add x y) = true.
Proof.
  destruct x as [[]|[]| |[] mx ex]; simpl; try done;
  destruct y as [[]|[]| |[] my ey]; simpl; try done.
  intros _ _ _ _. unfold SF64add, SFadd. cbn [cond_Zopp Z.add].
  split; [apply binary_round_not_nan|apply binary_round_sign].
Qed.

Lemma sqrtrem_nonneg n : (0 <= n)%Z -> (0 <= fst (Z.sqrtrem n))%Z.
Proof.
  intros Hn. pose proof (Z.sqrtrem_spec n Hn) as H.
  destruct (Z.sqrtrem n) as [q r]. simpl. lia.
Qed.

Lemma SFsqrt_nonneg x :
  sf_nan x = false -> sf_nonneg x = true ->
  sf_nan (SF64sqrt x) = false /\ sf_nonneg (SF64sqrt x) = true.
Proof.
  destruct x as [[]|[]| |[] m e]; simpl; try done.
  intros _ _. unfold SF64sqrt, SFsqrt, SFsqrt_core_binary.
  set (m' := match _ with Zpos _ => _ | Z0 => _ | Zneg _ => _ end).
  assert (Hm' : (0 <= m')%Z).
  { subst m'. destruct (_ - _)%Z; try done. by apply Z.shiftl_nonneg. }
  pose proof (sqrtrem_nonneg m' Hm') as Hq.
  destruct (Z.sqrtrem m') as [q r]. simpl in Hq.
  split; [by apply binary_round_aux_not_nan|by rewrite binary_round_aux_sign].
Qed.

(** *** Differences *)

Lemma SFsub_not_nan a b :
  sf_finite a = true -> sf_finite b = true -> sf_nan (SF64sub a b) = false.
Proof.
  destruct a as [sa|sa| |sa ma ea], b as [sb|sb| |sb mb eb]; simpl; try done.
  - by destruct sa, sb.
  - intros _ _. apply binary_normalize_not_nan.
Qed.

Lemma SFsub_finite a b :
  sf_finite (SF64sub a b) = true -> sf_finite a = true /\ sf_finite b = true.
Proof.
  destruct a as [sa|sa| |sa ma ea], b as [sb|sb| |sb mb eb]; simpl; try done.
  by destruct sa, sb.
Qed.

Lemma SFsub_diag a : sf_finite a = true -> SF64sub a a = S754_zero false.
Proof.
  destruct a as [[]| | |s m e]; simpl; try done.
  intros _. by rewrite Z.sub_diag.
Qed.

(** [b - a] is the opposite of [a - b], except that both are [+0] when
    [a = b]; so the two have the same absolute value. *)
Lemma binary_normalize_opp z e :
  binary_normalize prec emax (- z) e false =
  match z with
  | Z0 => S754_zero false
  | _ => SFopp (binary_normalize prec emax z e false)
  end.
Proof.
  destruct z as [|p|p]; simpl; [done|apply binary_round_opp|].
  rewrite binary_round_opp.
  by destruct (binary_round prec emax false p e) as [[]|[]| |[] ? ?].
Qed.

Lemma SFsub_swap_abs a b : SFabs (SF64sub b a) = SFabs (SF64sub a b).
Proof.
  assert (H : SF64sub b a = SFopp (SF64sub a b) \/ SF64sub b a = SF64sub a b).
  { destruct a as [sa|sa| |sa ma ea], b as [sb|sb| |sb mb eb]; simpl;
      try (by destruct sa, sb; auto); try (by destruct sa; auto);
      try (by destruct sb; auto); try (by auto).
    rewrite (Z.min_comm eb ea).
    set (za := cond_Zopp sa _). set (zb := cond_Zopp sb _).
    replace (zb - za)%Z with (- (za - zb))%Z by lia.
    rewrite binary_normalize_opp.
    destruct (za - zb)%Z; auto. }
  destruct H as [-> | ->]; [by destruct (SF64sub a b)|done].
Qed.

(** *** Comparisons *)

Lemma SFcompare_antisym x y :
  SFcompare y x = option_map CompOpp (SFcompare x y).
Proof.
  destruct x as [sx|sx| |sx mx ex], y as [sy|sy| |sy my ey]; simpl;
    try done; try (by destruct sx); try (by destruct sy); try (by destruct sx, sy).
  rewrite (Z.compare_antisym ex ey).
  rewrite (ZC4 my mx).
  destruct sx, sy; simpl; try done; destruct (ex ?= ey)%Z; simpl; try done.
Qed.

Lemma SFltb_false_SFleb x y :
  sf_nan x = false -> sf_nan y = false -> SFltb x y = false -> SFleb y x = true.
Proof.
  intros Hx Hy. unfold SFltb, SFleb. rewrite (SFcompare_antisym x y).
  destruct (SFcompare x y) as [[]|] eqn:E; simpl; try done.
  destruct x, y; simpl in *; try done.
Qed.

(** *** Rounding, on mantissas and exponents *)

Lemma digits2_pos_size p : digits2_pos p = Pos.size p.
Proof. induction p as [p IH|p IH|]; simpl; by rewrite ?IH. Qed.

Lemma Zdigits2_log2 m : (0 < m)%Z -> Zdigits2 m = (Z.log2 m + 1)%Z.
Proof.
  destruct m as [|p|p]; try lia. intros _. simpl. rewrite digits2_pos_size.
  destruct p as [p|p|]; simpl; lia.
Qed.

Lemma Zdigits2_bounds m :
  (0 < m)%Z -> (2 ^ (Zdigits2 m - 1) <= m < 2 ^ Zdigits2 m)%Z.
Proof.
  intros Hm. rewrite Zdigits2_log2 by done.
  pose proof (Z.log2_spec m Hm) as H.
  replace (Z.log2 m + 1 - 1)%Z with (Z.log2 m) by lia.
  by rewrite <- Z.add_1_r in H.
Qed.

Lemma Zdigits2_nonneg m : (0 <= m)%Z -> (0 <= Zdigits2 m)%Z.
Proof. by destruct m. Qed.

Lemma Zdigits2_mono a b : (0 <= a <= b)%Z -> (Zdigits2 a <= Zdigits2 b)%Z.
Proof.
  intros [Ha Hab]. destruct (Z.eq_dec a 0%Z) as [->|Hn].
  - apply Zdigits2_nonneg; lia.
  - rewrite !Zdigits2_log2 by lia. pose proof (Z.log2_le_mono a b Hab). lia.
Qed.

Lemma Zdigits2_below m k : (0 <= k)%Z -> (0 <= m < 2 ^ k)%Z -> (Zdigits2 m <= k)%Z.
Proof.
  intros Hk [Hm Hlt]. destruct (Z.eq_dec m 0%Z) as [->|Hn]; [done|].
  rewrite Zdigits2_log2 by lia.
  assert (Z.log2 m < k)%Z by (apply Z.log2_lt_pow2; lia). lia.
Qed.

Lemma Zdigits2_above m k : (0 <= k)%Z -> (2 ^ k <= m)%Z -> (k + 1 <= Zdigits2 m)%Z.
Proof.
  intros Hk Hm. assert (0 < 2 ^ k)%Z by (apply Z.pow_pos_nonneg; lia).
  rewrite Zdigits2_log2 by lia.
  assert (k <= Z.log2 m)%Z by (apply Z.log2_le_pow2; lia). lia.
Qed.

(** Shifting a mantissa to the right. *)
Lemma shr_1_m mrs : (0 <= shr_m mrs)%Z -> shr_m (shr_1 mrs) = (shr_m mrs / 2)%Z.
Proof.
  destruct mrs as [m r s]. simpl. intros Hm.
  destruct m as [|p|p]; [done| |lia].
  destruct p as [p|p|]; simpl.
  - apply (Z.div_unique _ _ _ 1); lia.
  - apply (Z.div_unique _ _ _ 0); lia.
  - reflexivity.
Qed.

Lemma iter_shr_1_m p : forall mrs, (0 <= shr_m mrs)%Z ->
  shr_m (SpecFloat.iter_pos shr_1 p mrs) = (shr_m mrs / 2 ^ Zpos p)%Z.
Proof.
  induction p as [p IH|p IH|]; intros mrs Hm; simpl SpecFloat.iter_pos.
  - assert (H1 : (0 <= shr_m (shr_1 mrs))%Z) by (rewrite shr_1_m by done; by apply Z.div_pos).
    assert (H2 : (0 <= shr_m (SpecFloat.iter_pos shr_1 p (shr_1 mrs)))%Z).
    { rewrite IH by done. apply Z.div_pos; [done|]. by apply Z.pow_pos_nonneg. }
    rewrite IH, IH, shr_1_m by done.
    rewrite !Z.div_div by (try apply Z.pow_pos_nonneg; lia).
    f_equal. replace (Z.pos p~1) with (1 + Z.pos p + Z.pos p)%Z by lia.
    rewrite !Z.pow_add_r by lia. lia.
  - assert (H2 : (0 <= shr_m (SpecFloat.iter_pos shr_1 p mrs))%Z).
    { rewrite IH by done. apply Z.div_pos; [done|]. by apply Z.pow_pos_nonneg. }
    rewrite IH, IH by done.
    rewrite !Z.div_div by (try apply Z.pow_pos_nonneg; lia).
    f_equal. replace (Z.pos p~0) with (Z.pos p + Z.pos p)%Z by lia.
    rewrite !Z.pow_add_r by lia. lia.
  - by rewrite shr_1_m.
Qed.

Lemma fexp64_eq k : fexp64 k = Z.max (k - 53) (-1074).
Proof. reflexivity. Qed.

Lemma shr_fexp_m m e l : (0 <= m)%Z ->
  snd (shr_fexp prec emax m e l) = Z.max e (fexp64 (Zdigits2 m + e)) /\
  shr_m (fst (shr_fexp prec emax m e l)) =
    (m / 2 ^ (Z.max e (fexp64 (Zdigits2 m + e)) - e))%Z.
Proof.
  intros Hm. unfold shr_fexp, shr. fold (fexp64 (Zdigits2 m + e)).
  assert (H0 : shr_m (shr_record_of_loc m l) = m) by (by destruct l as [|[]]).
  destruct (fexp64 (Zdigits2 m + e) - e)%Z as [|p|p] eqn:E; simpl.
  - rewrite H0. replace (Z.max e _) with e by lia. rewrite Z.sub_diag. simpl.
    by rewrite Z.div_1_r.
  - rewrite iter_shr_1_m by (rewrite H0; done). rewrite H0.
    replace (Z.max e _) with (e + Z.pos p)%Z by lia. split; [done|].
    do 2 f_equal. lia.
  - rewrite H0. replace (Z.max e _) with e by lia. rewrite Z.sub_diag. simpl.
    by rewrite Z.div_1_r.
Qed.

Lemma round_nearest_even_cases m l :
  round_nearest_even m l = m \/ round_nearest_even m l = (m + 1)%Z.
Proof. destruct l as [|[]]; simpl; auto. destruct (Z.even m); auto. Qed.

(** What [binary_round_aux] returns for a mantissa [m] at exponent [e]:
    with [e1] the exponent the mantissa is shifted to and [f] the shifted
    mantissa, the result stands for [m1] times [2 ^ e1] with [m1] either
    [f] or [f + 1]. *)
Lemma binary_round_aux_spec s m e l : (0 <= m)%Z ->
  let e1 := Z.max e (fexp64 (Zdigits2 m + e)) in
  let f := (m / 2 ^ (e1 - e))%Z in
  exists m1 m2 e2,
    (f <= m1 <= f + 1)%Z /\ (e1 <= e2 <= e1 + 1)%Z /\
    m1 = (m2 * 2 ^ (e2 - e1))%Z /\ (0 <= m2)%Z /\
    (l = loc_Exact -> e1 = e -> m1 = m) /\
    binary_round_aux prec emax s m e l =
      match m2 with
      | Z0 => S754_zero s
      | Zpos p => if (e2 <=? emax - prec)%Z then S754_finite s p e2 else S754_infinity s
      | Zneg _ => S754_nan
      end.
Proof.
  intros Hm e1 f.
  assert (Hemin : (-1074 <= e1 \/ e1 = e)%Z) by (unfold e1; rewrite fexp64_eq; lia).
  assert (Hp : (0 < 2 ^ (e1 - e))%Z) by (apply Z.pow_pos_nonneg; lia).
  assert (Hf : (0 <= f)%Z) by (by apply Z.div_pos).
  (* the shifted mantissa is not too long for its exponent *)
  assert (HA : (fexp64 (Zdigits2 f + e1) <= e1)%Z).
  { destruct (Z.eq_dec e1 e) as [Ee|Ne].
    - unfold f. rewrite Ee, Z.sub_diag, Z.div_1_r. unfold e1 in Ee. lia.
    - assert (He1 : e1 = fexp64 (Zdigits2 m + e)) by (unfold e1 in *; lia).
      assert (He : (e < e1)%Z) by (unfold e1 in *; lia).
      destruct (Z.eq_dec m 0%Z) as [->|Hm0].
      { unfold f. rewrite Z.div_0_l by lia. simpl. rewrite fexp64_eq in *. lia. }
      pose proof (Zdigits2_bounds m ltac:(lia)) as [_ Hd].
      destruct (Z_lt_le_dec (Zdigits2 m) (e1 - e)) as [Hlt|Hge].
      + assert (f = 0%Z) as ->.
        { unfold f. apply Z.div_small. split; [done|].
          eapply Z.lt_le_trans; [exact Hd|]. apply Z.pow_le_mono_r; lia. }
        simpl. rewrite fexp64_eq in *. lia.
      + assert (Hfd : (Zdigits2 f <= Zdigits2 m - (e1 - e))%Z).
        { apply Zdigits2_below; [lia|]. split; [done|].
          unfold f. apply Z.div_lt_upper_bound; [done|].
          rewrite <- Z.pow_add_r by lia.
          by replace (e1 - e + (Zdigits2 m - (e1 - e)))%Z with (Zdigits2 m) by lia. }
        rewrite fexp64_eq in *. lia. }
  unfold binary_round_aux.
  destruct (shr_fexp_m m e l Hm) as [E1 E2].
  destruct (shr_fexp prec emax m e l) as [mrs' e'] eqn:Es. simpl in E1, E2.
  fold e1 in E1, E2. fold f in E2. subst e'.
  set (m1 := round_nearest_even (shr_m mrs') (loc_of_shr_record mrs')).
  assert (Hm1 : m1 = f \/ m1 = (f + 1)%Z).
  { unfold m1. rewrite E2. apply round_nearest_even_cases. }
  assert (Hm1' : (0 <= m1)%Z) by lia.
  destruct (shr_fexp_m m1 e1 loc_Exact Hm1') as [E3 E4].
  destruct (shr_fexp prec emax m1 e1 loc_Exact) as [mrs'' e''] eqn:Es'. simpl in E3, E4.
  set (e2 := Z.max e1 (fexp64 (Zdigits2 m1 + e1))) in *.
  exists m1, (shr_m mrs''), e2.
  assert (Hexact : l = loc_Exact -> e1 = e -> m1 = m).
  { intros -> Ee. unfold m1.
    unfold shr_fexp, shr in Es. fold (fexp64 (Zdigits2 m + e)) in Es.
    destruct (fexp64 (Zdigits2 m + e) - e)%Z eqn:E; try (unfold e1 in Ee; lia);
      injection Es as <- _; reflexivity. }
  (* the second shift loses nothing *)
  assert (HB : (e2 <= e1 + 1)%Z /\ m1 = (m1 / 2 ^ (e2 - e1) * 2 ^ (e2 - e1))%Z).
  { destruct (Z.eq_dec e2 e1) as [->|Ne].
    - rewrite Z.sub_diag. simpl. rewrite Z.div_1_r. lia.
    - assert (He2 : (e1 < fexp64 (Zdigits2 m1 + e1))%Z) by (unfold e2 in *; lia).
      assert (Hdd : (Zdigits2 f < Zdigits2 m1)%Z) by (rewrite fexp64_eq in *; lia).
      destruct Hm1 as [Hm1|Hm1]; [rewrite Hm1 in Hdd; lia|].
      assert (Hf0 : (0 < f)%Z).
      { destruct (Z.eq_dec f 0%Z) as [Ef|]; [|lia]. rewrite Hm1, Ef in He2. simpl in He2.
        rewrite fexp64_eq in *. destruct Hemin as [|Ee]; [lia|].
        unfold e1 in Ee. rewrite fexp64_eq in *. lia. }
      pose proof (Zdigits2_bounds f Hf0) as [Hlo Hhi].
      assert (Hpow : m1 = (2 ^ Zdigits2 f)%Z).
      { destruct (Z.eq_dec m1 (2 ^ Zdigits2 f)%Z) as [|Hne]; [done|].
        assert (Zdigits2 m1 <= Zdigits2 f)%Z; [|lia].
        apply Zdigits2_below; [by apply Zdigits2_nonneg|lia]. }
      assert (Hd1 : Zdigits2 m1 = (Zdigits2 f + 1)%Z).
      { apply Z.le_antisymm; [|lia].
        apply Zdigits2_below; [pose proof (Zdigits2_nonneg f); lia|].
        rewrite Hpow, Z.pow_add_r by (try apply Zdigits2_nonneg; lia). lia. }
      assert (He21 : e2 = (e1 + 1)%Z) by (unfold e2; rewrite fexp64_eq in *; lia).
      split; [lia|]. rewrite He21. replace (e1 + 1 - e1)%Z with 1%Z by lia.
      assert (Hdf : (1 <= Zdigits2 f)%Z).
      { rewrite Zdigits2_log2 by done. pose proof (Z.log2_nonneg f). lia. }
      rewrite Hpow. replace (Zdigits2 f) with (Zdigits2 f - 1 + 1)%Z at 1 2 by lia.
      rewrite Z.pow_add_r by lia. change (2 ^ 1)%Z with 2%Z.
      by rewrite Z.div_mul. }
  destruct HB as [HB1 HB2].
  assert (Hp2 : (0 < 2 ^ (e2 - e1))%Z) by (apply Z.pow_pos_nonneg; unfold e2; lia).
  split; [lia|]. split; [unfold e2; lia|]. split; [rewrite E4; exact HB2|].
  split; [rewrite E4; by apply Z.div_pos|]. split; [exact Hexact|].
  subst e''. reflexivity.
Qed.

(** *** Values of binary64 numbers *)

Lemma bpow_pos e : (0 < bpow e)%R.
Proof. apply powerRZ_lt. lra. Qed.

Lemma bpow_add a b : bpow (a + b) = (bpow a * bpow b)%R.
Proof. apply powerRZ_add. lra. Qed.

Lemma bpow_0 : bpow 0 = 1%R.
Proof. reflexivity. Qed.

Lemma bpow_1 : bpow 1 = 2%R.
Proof. unfold bpow. simpl. lra. Qed.

Lemma IZR_pow2 k : (0 <= k)%Z -> IZR (2 ^ k) = bpow k.
Proof.
  intros Hk. unfold bpow. rewrite <- (Z2Nat.id k) by done.
  rewrite <- pow_powerRZ. by rewrite pow_IZR.
Qed.

Lemma bpow_ge_1 k : (0 <= k)%Z -> (1 <= bpow k)%R.
Proof.
  intros Hk. rewrite <- IZR_pow2 by done. apply IZR_le.
  pose proof (Z.pow_pos_nonneg 2 k). lia.
Qed.

Lemma bpow_le a b : (a <= b)%Z -> (bpow a <= bpow b)%R.
Proof.
  intros H. replace b with (a + (b - a))%Z by lia. rewrite bpow_add.
  pose proof (bpow_pos a). pose proof (bpow_ge_1 (b - a) ltac:(lia)). nra.
Qed.

Lemma bpow_lt a b : (a < b)%Z -> (bpow a < bpow b)%R.
Proof.
  intros H. replace b with (a + 1 + (b - a - 1))%Z by lia.
  rewrite !bpow_add, bpow_1.
  pose proof (bpow_pos a). pose proof (bpow_ge_1 (b - a - 1) ltac:(lia)) as H1.
  nra.
Qed.

Lemma bpow_opp e : bpow (- e) = (/ bpow e)%R.
Proof. unfold bpow. apply powerRZ_neg'. Qed.

Lemma Rabs_le_inv a b : (Rabs a <= b)%R -> (- b <= a <= b)%R.
Proof. unfold Rabs. destruct (Rcase_abs a); lra. Qed.

Lemma IZR_digits m : (0 < m)%Z ->
  (bpow (Zdigits2 m - 1) <= IZR m < bpow (Zdigits2 m))%R.
Proof.
  intros Hm. destruct (Zdigits2_bounds m Hm) as [H1 H2].
  assert (Hd : (1 <= Zdigits2 m)%Z).
  { rewrite Zdigits2_log2 by done. pose proof (Z.log2_nonneg m). lia. }
  rewrite <- !IZR_pow2 by lia. split; [by apply IZR_le|by apply IZR_lt].
Qed.

(** Rounding keeps a number between the two neighbours it has on the grid
    of the multiples of [2 ^ e1]; a number between [m * 2 ^ e] and
    [(m + 1) * 2 ^ e] lies between the same two. *)
Lemma round_bracket m e l : (0 <= m)%Z ->
  let e1 := Z.max e (fexp64 (Zdigits2 m + e)) in
  (e1 < emax - prec)%Z ->
  let x := binary_round_aux prec emax false m e l in
  exists F : Z,
    (0 <= F)%Z /\ F = (m / 2 ^ (e1 - e))%Z /\
    (IZR F * bpow e1 <= IZR m * bpow e)%R /\
    ((IZR m + 1) * bpow e <= (IZR F + 1) * bpow e1)%R /\
    sf_finite x = true /\ sf_nonneg x = true /\
    (IZR F * bpow e1 <= SF2R x <= (IZR F + 1) * bpow e1)%R /\
    (l = loc_Exact -> e1 = e -> SF2R x = IZR m * bpow e)%R.
Proof.
  intros Hm e1 He1 x.
  destruct (binary_round_aux_spec false m e l Hm)
    as (m1 & m2 & e2 & Hm1 & He2 & Hm12 & Hm2 & Hex & Hx).
  fold e1 in Hm1, He2, Hm12, Hex. fold x in Hx.
  set (n := (e1 - e)%Z) in *. set (f := (m / 2 ^ n)%Z) in *.
  assert (Hn : (0 <= n)%Z) by (unfold n, e1; lia).
  assert (Hp : (0 < 2 ^ n)%Z) by (by apply Z.pow_pos_nonneg).
  assert (Hf : (0 <= f)%Z) by (by apply Z.div_pos).
  pose proof (Z.div_mod m (2 ^ n) ltac:(lia)) as Hdm.
  pose proof (Z.mod_pos_bound m (2 ^ n) Hp) as Hmod. fold f in Hdm.
  assert (Hbe : bpow e1 = (IZR (2 ^ n) * bpow e)%R).
  { rewrite IZR_pow2 by done. rewrite <- bpow_add. f_equal. unfold n. lia. }
  pose proof (bpow_pos e) as Hpe. pose proof (bpow_pos e1) as Hpe1.
  assert (Hval : SF2R x = (IZR m1 * bpow e1)%R).
  { assert (Hb2 : bpow e2 = (bpow (e2 - e1) * bpow e1)%R).
    { rewrite <- bpow_add. f_equal. lia. }
    rewrite Hx, Hm12. rewrite mult_IZR, IZR_pow2 by lia.
    destruct m2 as [|p|p]; [unfold SF2R; lra| |lia].
    assert ((e2 <=? emax - prec)%Z = true) as -> by (apply Z.leb_le; lia).
    unfold SF2R. rewrite Hb2. ring. }
  exists f. split; [done|]. split; [done|].
  split. { rewrite Hbe, <- Rmult_assoc, <- mult_IZR.
           apply Rmult_le_compat_r; [lra|]. apply IZR_le. lia. }
  split. { rewrite Hbe, <- Rmult_assoc, <- !plus_IZR, <- mult_IZR.
           apply Rmult_le_compat_r; [lra|]. apply IZR_le. lia. }
  assert (Hle : (e2 <=? emax - prec)%Z = true) by (apply Z.leb_le; lia).
  split. { rewrite Hx, Hle. destruct m2; try done; lia. }
  split. { rewrite Hx, Hle. destruct m2; try done; lia. }
  split.
  - rewrite Hval, <- plus_IZR. split; apply Rmult_le_compat_r; try lra; apply IZR_le; lia.
  - intros Hl Ee. rewrite Hval, (Hex Hl Ee), Ee. done.
Qed.

(** *** Values and magnitudes *)

Lemma fexp64_mono a b : (a <= b)%Z -> (fexp64 a <= fexp64 b)%Z.
Proof. rewrite !fexp64_eq. lia. Qed.

(** A positive mantissa [m] at exponent [e] stands for a number below
    [2 ^ k] only if its magnitude [Zdigits2 m + e] is at most [k]. *)
Lemma magnitude_below m e k : (0 < m)%Z ->
  (IZR m * bpow e < bpow k)%R -> (Zdigits2 m + e <= k)%Z.
Proof.
  intros Hm H. destruct (IZR_digits m Hm) as [Hlo _].
  destruct (Z_lt_le_dec k (Zdigits2 m + e)) as [Hlt|]; [|done]. exfalso.
  pose proof (bpow_le k (Zdigits2 m - 1 + e) ltac:(lia)) as H1.
  rewrite bpow_add in H1. pose proof (bpow_pos e). nra.
Qed.

Lemma exponent_below m e k : (0 < m)%Z ->
  (IZR m * bpow e < bpow k)%R -> (e < k)%Z.
Proof.
  intros Hm H. destruct (Z_lt_le_dec e k) as [|Hle]; [done|]. exfalso.
  pose proof (bpow_le k e Hle). pose proof (bpow_pos k).
  assert (1 <= IZR m)%R by (apply IZR_le; lia). nra.
Qed.

Lemma value_below m e : (0 < m)%Z ->
  (bpow (Zdigits2 m - 1 + e) <= IZR m * bpow e < bpow (Zdigits2 m + e))%R.
Proof.
  intros Hm. destruct (IZR_digits m Hm) as [Hlo Hhi].
  rewrite !bpow_add. pose proof (bpow_pos e). split; nra.
Qed.

(** What validity says of a finite number. *)
Lemma valid_finite s m e : valid_binary (S754_finite s m e) = true ->
  (Zdigits2 (Zpos m) <= 53)%Z /\ (-1074 <= e <= 971)%Z /\
  ((-1074 < e)%Z -> Zdigits2 (Zpos m) = 53%Z).
Proof.
  unfold valid_binary, SpecFloat.valid_binary, bounded, canonical_mantissa.
  intros [H1 H2]%andb_prop. apply Z.eqb_eq in H1. apply Z.leb_le in H2.
  fold (fexp64 (Z.pos (digits2_pos m) + e)) in H1. rewrite fexp64_eq in H1.
  simpl Zdigits2. change (emax - prec)%Z with 971%Z in H2. lia.
Qed.

Lemma SF2R_nonneg x : sf_nonneg x = true -> (0 <= SF2R x)%R.
Proof.
  destruct x as [s|s| |s m e]; simpl; try lra. intros Hs. destruct s; [done|].
  pose proof (bpow_pos e). assert (0 < IZR (Z.pos m))%R by (by apply IZR_lt). nra.
Qed.

(** *** Comparisons of values *)

Lemma SFcompare_pos_R mx ex my ey :
  valid_binary (S754_finite false mx ex) = true ->
  valid_binary (S754_finite false my ey) = true ->
  match SFcompare (S754_finite false mx ex) (S754_finite false my ey) with
  | Some Lt => (IZR (Zpos mx) * bpow ex < IZR (Zpos my) * bpow ey)%R
  | Some Eq => (IZR (Zpos mx) * bpow ex = IZR (Zpos my) * bpow ey)%R
  | Some Gt => (IZR (Zpos my) * bpow ey < IZR (Zpos mx) * bpow ex)%R
  | None => False
  end.
Proof.
  intros (Hdx & Hex & Hnx)%valid_finite (Hdy & Hey & Hny)%valid_finite.
  assert (Hlt : forall m e m' e',
    (Zdigits2 (Zpos m) <= 53)%Z -> Zdigits2 (Zpos m') = 53%Z -> (e < e')%Z ->
    (IZR (Zpos m) * bpow e < IZR (Zpos m') * bpow e')%R).
  { intros m e m' e' Hd Hd' He.
    destruct (value_below (Zpos m) e ltac:(done)) as [_ H1].
    destruct (value_below (Zpos m') e' ltac:(done)) as [H2 _].
    pose proof (bpow_le (Zdigits2 (Zpos m) + e) (Zdigits2 (Zpos m') - 1 + e') ltac:(lia)).
    lra. }
  simpl. destruct (Z.compare_spec ex ey) as [->|He|He].
  - change (Pos.compare_cont Eq mx my) with (Pos.compare mx my).
    pose proof (bpow_pos ey).
    destruct (Pos.compare_spec mx my) as [->|Hm|Hm]; [done| |].
    + apply Rmult_lt_compat_r; [done|]. by apply IZR_lt.
    + apply Rmult_lt_compat_r; [done|]. by apply IZR_lt.
  - apply Hlt; [done| |done]. apply Hny. lia.
  - apply Hlt; [done| |done]. apply Hnx. lia.
Qed.

(** Comparisons of finite numbers that are not negative. *)
Lemma SFcompare_R x y :
  sf_finite x = true -> sf_nonneg x = true -> valid_binary x = true ->
  sf_finite y = true -> sf_nonneg y = true -> valid_binary y = true ->
  match SFcompare x y with
  | Some Lt => (SF2R x < SF2R y)%R
  | Some Eq => (SF2R x = SF2R y)%R
  | Some Gt => (SF2R y < SF2R x)%R
  | None => False
  end.
Proof.
  destruct x as [[]|[]| |[] mx ex]; simpl; try done;
  destruct y as [[]|[]| |[] my ey]; simpl; try done; intros _ _ Hx _ _ Hy.
  - pose proof (bpow_pos ey). assert (0 < IZR (Z.pos my))%R by (by apply IZR_lt). nra.
  - pose proof (bpow_pos ex). assert (0 < IZR (Z.pos mx))%R by (by apply IZR_lt). nra.
  - by apply SFcompare_pos_R.
Qed.

Lemma SFleb_R x y :
  sf_finite x = true -> sf_nonneg x = true -> valid_binary x = true ->
  sf_finite y = true -> sf_nonneg y = true -> valid_binary y = true ->
  if SFleb x y then (SF2R x <= SF2R y)%R else (SF2R y < SF2R x)%R.
Proof.
  intros. pose proof (SFcompare_R x y) as H'. unfold SFleb.
  destruct (SFcompare x y) as [[]|]; try (specialize (H' ltac:(done) ltac:(done)
    ltac:(done) ltac:(done) ltac:(done) ltac:(done))); try lra; by apply H'.
Qed.

Lemma SFltb_R x y :
  sf_finite x = true -> sf_nonneg x = true -> valid_binary x = true ->
  sf_finite y = true -> sf_nonneg y = true -> valid_binary y = true ->
  if SFltb x y then (SF2R x < SF2R y)%R else (SF2R y <= SF2R x)%R.
Proof.
  intros. pose proof (SFcompare_R x y) as H'. unfold SFltb.
  destruct (SFcompare x y) as [[]|]; try (specialize (H' ltac:(done) ltac:(done)
    ltac:(done) ltac:(done) ltac:(done) ltac:(done))); try lra; by apply H'.
Qed.

(** *** Sums, quotients and products *)

Lemma shl_align_spec m e e0 :
  snd (shl_align m e e0) = Z.min e e0 /\
  (IZR (Zpos (fst (shl_align m e e0))) * bpow (snd (shl_align m e e0)) =
   IZR (Zpos m) * bpow e)%R.
Proof.
  unfold shl_align. destruct (e0 - e)%Z as [|d|d] eqn:E; simpl; [split; [lia|done]..|].
  split; [lia|]. change (Pos.iter xO m d) with (shift_pos d m).
  rewrite shift_pos_correct, mult_IZR.
  change (Z.pow_pos 2 d) with (2 ^ Z.pos d)%Z. rewrite IZR_pow2 by done.
  replace e with (Z.pos d + e0)%Z by lia. rewrite bpow_add. ring.
Qed.

(** The sum of two numbers that are not negative, when it stays below 2:
    below 1 it is off by at most [2 ^ -53], and from 1 on it is at least 1. *)
Lemma SFadd_R x y :
  sf_finite x = true -> sf_nonneg x = true ->
  sf_finite y = true -> sf_nonneg y = true ->
  (SF2R x + SF2R y < 2)%R ->
  sf_finite (SF64add x y) = true /\ sf_nonneg (SF64add x y) = true /\
  (SF2R x + SF2R y < 1 ->
     Rabs (SF2R (SF64add x y) - (SF2R x + SF2R y)) <= bpow (-53))%R /\
  (1 <= SF2R x + SF2R y -> 1 <= SF2R (SF64add x y))%R.
Proof.
  pose proof (bpow_pos (-53)) as Hu.
  destruct x as [[]|[]| |[] mx ex]; simpl; try done;
  destruct y as [[]|[]| |[] my ey]; simpl; try done; intros _ _ _ _ HS.
  - repeat split; try done; intros; try lra. apply Rabs_le; split; lra.
  - repeat split; try done; intros; try lra. apply Rabs_le; split; lra.
  - repeat split; try done; intros; try lra. apply Rabs_le; split; lra.
  - unfold SF64add, SFadd. set (ez := Z.min ex ey).
    destruct (shl_align_spec mx ex ez) as [Ex1 Ex2].
    destruct (shl_align_spec my ey ez) as [Ey1 Ey2].
    set (mx' := fst (shl_align mx ex ez)) in *.
    set (my' := fst (shl_align my ey ez)) in *.
    replace (snd (shl_align mx ex ez)) with ez in Ex2 by (unfold ez in *; lia).
    replace (snd (shl_align my ey ez)) with ez in Ey2 by (unfold ez in *; lia).
    cbn [cond_Zopp Z.add binary_normalize]. unfold binary_round.
    set (m := (mx' + my')%positive).
    assert (Hm : (IZR (Z.pos m) * bpow ez =
                  IZR (Z.pos mx) * bpow ex + IZR (Z.pos my) * bpow ey)%R).
    { unfold m. rewrite Pos2Z.inj_add, plus_IZR. lra. }
    rewrite <- Hm in *. clear Ex1 Ex2 Ey1 Ey2 Hm.
    destruct (shl_align_spec m ez (SpecFloat.fexp prec emax (Z.pos (digits2_pos m) + ez)))
      as [Ez1 Ez2].
    destruct (shl_align m ez _) as [mz ez'] eqn:Ea. cbn [fst snd] in Ez1, Ez2.
    rewrite <- Ez2 in *.
    change (Z.pos (digits2_pos m)) with (Zdigits2 (Z.pos m)) in Ez1.
    fold (fexp64 (Zdigits2 (Z.pos m) + ez)) in Ez1.
    set (S := (IZR (Z.pos mz) * bpow ez')%R) in *.
    set (e1 := Z.max ez' (fexp64 (Zdigits2 (Z.pos mz) + ez'))).
    assert (He1 : forall K, (S < bpow K)%R -> (e1 <= fexp64 K)%Z).
    { intros K HK.
      pose proof (magnitude_below (Z.pos mz) ez' K ltac:(done) HK) as H1.
      assert (H2 : (Zdigits2 (Z.pos m) + ez <= K)%Z).
      { apply magnitude_below; [done|]. by rewrite <- Ez2. }
      apply fexp64_mono in H1, H2. unfold e1. lia. }
    assert (He11 : (e1 <= -52)%Z).
    { apply (He1 1%Z). rewrite bpow_1. lra. }
    destruct (round_bracket (Z.pos mz) ez' loc_Exact ltac:(done))
      as (F & HF0 & HF & Hlo & Hhi & Hfin & Hnn & Hr & _).
    { fold e1. change (emax - prec)%Z with 971%Z. lia. }
    fold e1 in HF, Hlo, Hhi, Hr. fold S in Hlo.
    split; [done|]. split; [done|].
    pose proof (bpow_pos ez') as Hpz. pose proof (bpow_pos e1) as Hp1.
    split.
    + intros HS1.
      assert (He10 : (e1 <= -53)%Z) by (apply (He1 0%Z); rewrite bpow_0; lra).
      pose proof (bpow_le e1 (-53) He10).
      apply Rabs_le. unfold S in *. split; nra.
    + intros HS1.
      assert (Hmz : (2 ^ (- ez') <= Z.pos mz)%Z).
      { apply le_IZR. rewrite IZR_pow2 by (unfold e1 in He11; lia).
        rewrite bpow_opp. apply (Rmult_le_reg_r (bpow ez')); [done|].
        rewrite Rinv_l by lra. exact HS1. }
      assert (HF1 : (2 ^ (- e1) <= F)%Z).
      { rewrite HF. replace (- e1)%Z with (- ez' - (e1 - ez'))%Z by lia.
        rewrite Z.pow_sub_r by (unfold e1 in *; lia).
        apply Z.div_le_mono; [|done]. apply Z.pow_pos_nonneg; unfold e1; lia. }
      apply IZR_le in HF1. rewrite IZR_pow2, bpow_opp in HF1 by lia.
      assert (1 <= IZR F * bpow e1)%R; [|lra].
      apply (Rmult_le_compat_r (bpow e1)) in HF1; [|lra].
      by rewrite Rinv_l in HF1 by lra.
Qed.

(** The quotient of two positive numbers, when it stays below [2 ^ K]. *)
Lemma SFdiv_R mx ex my ey K :
  (IZR (Zpos mx) * bpow ex / (IZR (Zpos my) * bpow ey) < bpow K)%R ->
  (-1074 <= K <= 1000)%Z ->
  sf_finite (SF64div (S754_finite false mx ex) (S754_finite false my ey)) = true /\
  sf_nonneg (SF64div (S754_finite false mx ex) (S754_finite false my ey)) = true /\
  (Rabs (SF2R (SF64div (S754_finite false mx ex) (S754_finite false my ey)) -
         IZR (Zpos mx) * bpow ex / (IZR (Zpos my) * bpow ey)) <= bpow (fexp64 K))%R.
Proof.
  set (X := (IZR (Zpos mx) * bpow ex / (IZR (Zpos my) * bpow ey))%R).
  intros HX HK. unfold SF64div, SFdiv, SFdiv_core_binary.
  set (d1 := Zdigits2 (Z.pos mx)). set (d2 := Zdigits2 (Z.pos my)).
  fold (fexp64 (d1 + ex - (d2 + ey))).
  set (e' := Z.min (fexp64 (d1 + ex - (d2 + ey))) (ex - ey)).
  set (s := (ex - ey - e')%Z).
  set (m' := match s with Z.pos _ => Z.shiftl (Z.pos mx) s | 0%Z => Z.pos mx | _ => 0%Z end).
  assert (Hs : (0 <= s)%Z) by (unfold s, e'; lia).
  assert (Hm' : m' = (Z.pos mx * 2 ^ s)%Z).
  { unfold m'. destruct s as [|p|p] eqn:E; [lia| |lia].
    by rewrite Z.shiftl_mul_pow2. }
  pose proof (Z_div_mod m' (Z.pos my) ltac:(done)) as Hdiv.
  destruct (Z.div_eucl m' (Z.pos my)) as [q r0]. destruct Hdiv as [Hq Hr0].
  assert (Hmx : (0 < IZR (Z.pos mx))%R) by (by apply IZR_lt).
  assert (Hmy : (0 < IZR (Z.pos my))%R) by (by apply IZR_lt).
  pose proof (bpow_pos ex) as Hpx. pose proof (bpow_pos ey) as Hpy.
  pose proof (bpow_pos e') as Hpe.
  assert (Hq0 : (0 <= q)%Z) by nia.
  assert (HXm : X = (IZR m' * bpow e' / IZR (Z.pos my))%R).
  { unfold X. rewrite Hm', mult_IZR, IZR_pow2 by done.
    replace ex with (s + e' + ey)%Z at 1 by (unfold s; lia).
    rewrite !bpow_add. field. lra. }
  assert (Hlo : (IZR q * bpow e' <= X)%R).
  { rewrite HXm. apply (Rmult_le_reg_r (IZR (Z.pos my))); [done|].
    replace (IZR m' * bpow e' / IZR (Z.pos my) * IZR (Z.pos my))%R
      with (IZR m' * bpow e')%R by (field; lra).
    assert (IZR (Z.pos my * q) <= IZR m')%R by (apply IZR_le; lia).
    rewrite mult_IZR in *. nra. }
  assert (Hhi : (X <= (IZR q + 1) * bpow e')%R).
  { rewrite HXm. apply (Rmult_le_reg_r (IZR (Z.pos my))); [done|].
    replace (IZR m' * bpow e' / IZR (Z.pos my) * IZR (Z.pos my))%R
      with (IZR m' * bpow e')%R by (field; lra).
    assert (IZR m' <= IZR (Z.pos my * (q + 1)))%R by (apply IZR_le; lia).
    rewrite mult_IZR, plus_IZR in *. nra. }
  set (e1 := Z.max e' (fexp64 (Zdigits2 q + e'))).
  assert (He1 : (e1 <= fexp64 K)%Z).
  { assert (H1 : (d1 + ex - (d2 + ey) <= K)%Z).
    { destruct (value_below (Z.pos mx) ex ltac:(done)) as [Hx1 _].
      destruct (value_below (Z.pos my) ey ltac:(done)) as [_ Hy2].
      fold d1 in Hx1. fold d2 in Hy2.
      destruct (Z_lt_le_dec K (d1 + ex - (d2 + ey))) as [Hlt|]; [exfalso|done].
      pose proof (bpow_le (K + (d2 + ey)) (d1 - 1 + ex) ltac:(lia)) as Hb.
      rewrite bpow_add in Hb.
      assert (bpow K * (IZR (Z.pos my) * bpow ey) <= IZR (Z.pos mx) * bpow ex)%R.
      { pose proof (bpow_pos K). nra. }
      assert (X * (IZR (Z.pos my) * bpow ey) = IZR (Z.pos mx) * bpow ex)%R.
      { unfold X. field. split; lra. }
      assert (0 < IZR (Z.pos my) * bpow ey)%R by nra. nra. }
    assert (H2 : (Zdigits2 q + e' <= K)%Z).
    { destruct (Z.eq_dec q 0%Z) as [->|Hn].
      - change (Zdigits2 0) with 0%Z. unfold e'. rewrite fexp64_eq. lia.
      - apply magnitude_below; [lia|]. lra. }
    apply fexp64_mono in H1, H2.
    assert (e' <= fexp64 (d1 + ex - (d2 + ey)))%Z by (unfold e'; lia).
    unfold e1. lia. }
  destruct (round_bracket q e' (new_location (Z.pos my) r0) Hq0)
    as (F & HF0 & HF & Hlo' & Hhi' & Hfin & Hnn & Hr & _).
  { fold e1. change (emax - prec)%Z with 971%Z. rewrite !fexp64_eq in He1. lia. }
  fold e1 in Hlo', Hhi', Hr. cbn [xorb].
  split; [done|]. split; [done|].
  pose proof (bpow_le e1 (fexp64 K) He1). apply Rabs_le. split; lra.
Qed.

(** A product of two numbers that are not negative is finite when it
    stays below [2 ^ 971]. *)
Lemma SFmul_finite x y :
  sf_finite x = true -> sf_nonneg x = true ->
  sf_finite y = true -> sf_nonneg y = true ->
  (SF2R x * SF2R y < bpow 971)%R ->
  sf_finite (SF64mul x y) = true.
Proof.
  destruct x as [[]|[]| |[] mx ex]; simpl; try done;
  destruct y as [[]|[]| |[] my ey]; simpl; try done; intros _ _ _ _ HS.
  assert (Hv : (IZR (Z.pos (mx * my)) * bpow (ex + ey) < bpow 971)%R).
  { rewrite Pos2Z.inj_mul, mult_IZR, bpow_add. lra. }
  destruct (round_bracket (Z.pos (mx * my)) (ex + ey) loc_Exact ltac:(done))
    as (F & _ & _ & _ & _ & Hfin & _); [|done].
  pose proof (magnitude_below _ _ _ (Pos2Z.is_pos _) Hv) as H1.
  pose proof (exponent_below _ _ _ (Pos2Z.is_pos _) Hv) as H2.
  apply fexp64_mono in H1. rewrite !fexp64_eq in H1.
  change (emax - prec)%Z with 971%Z. rewrite fexp64_eq. lia.
Qed.

Lemma SFdiv_core_nonneg m1 e1 m2 e2 :
  (0 <= fst (fst (SFdiv_core_binary prec emax (Zpos m1) e1 (Zpos m2) e2)))%Z.
Proof.
  unfold SFdiv_core_binary.
  set (m' := match _ with Zpos _ => _ | Z0 => _ | Zneg _ => _ end).
  assert (Hm' : (0 <= m')%Z).
  { subst m'. destruct (_ - _ - _)%Z; try done. by apply Z.shiftl_nonneg. }
  pose proof (Z_div_mod m' (Zpos m2) ltac:(lia)) as H.
  destruct (Z.div_eucl m' (Zpos m2)) as [q r]. simpl.
  destruct H as [Hq Hr]. nia.
Qed.

Lemma hypot_max_spec st value :
  (fst (hypot_max st value), Prim2SF (snd (hypot_max st value))) =
  sf_hypot_max (fst st, Prim2SF (snd st)) (Prim2SF value).
Proof.
  destruct st as [n m]. unfold hypot_max, sf_hypot_max. cbn [fst snd].
  rewrite is_nan_spec, ltb_spec, FloatAxioms.abs_spec.
  destruct (sf_nan _); [done|]. by destruct (SFltb _ _); cbn; rewrite ?FloatAxioms.abs_spec.
Qed.

Lemma hypot_sum_spec max st absValue :
  (Prim2SF (fst (hypot_sum max st absValue)), Prim2SF (snd (hypot_sum max st absValue))) =
  sf_hypot_sum (Prim2SF max) (Prim2SF (fst st), Prim2SF (snd st)) (Prim2SF absValue).
Proof.
  destruct st as [s c]. unfold hypot_sum, sf_hypot_sum. cbn [fst snd].
  by rewrite !sub_spec, !add_spec, !sub_spec, !mul_spec, !div_spec.
Qed.

Lemma hypot_spec dx dy : Prim2SF (hypot dx dy) = sf_hypot (Prim2SF dx) (Prim2SF dy).
Proof.
  unfold hypot, sf_hypot. cbn [fold_left].
  pose proof (hypot_max_spec (false, 0%float) dx) as H1.
  destruct (hypot_max (false, 0%float) dx) as [n1 m1]. cbn [fst snd] in H1.
  change (Prim2SF 0) with (S754_zero false) in H1. rewrite <- H1.
  pose proof (hypot_max_spec (n1, m1) dy) as H2.
  destruct (hypot_max (n1, m1) dy) as [n2 m2]. cbn [fst snd] in H2. rewrite <- H2.
  rewrite !FloatAxioms.eqb_spec.
  change (Prim2SF infinity) with (S754_infinity false).
  change (Prim2SF 0) with (S754_zero false).
  destruct (SFeqb _ _); [done|]. destruct n2; [done|]. destruct (SFeqb _ _); [done|].
  rewrite mul_spec, sqrt_spec. f_equal. f_equal.
  pose proof (hypot_sum_spec m2 (0%float, 0%float) (abs dx)) as H3.
  destruct (hypot_sum m2 (0%float, 0%float) (abs dx)) as [s1 c1]. cbn [fst snd] in H3.
  change (Prim2SF 0) with (S754_zero false) in H3.
  rewrite FloatAxioms.abs_spec in H3. rewrite <- H3.
  pose proof (hypot_sum_spec m2 (s1, c1) (abs dy)) as H4.
  destruct (hypot_sum m2 (s1, c1) (abs dy)) as [s2 c2]. cbn [fst snd] in H4.
  rewrite FloatAxioms.abs_spec in H4. by rewrite <- H4.
Qed.

(** *** The hypotenuse *)

Lemma sf_nan_abs x : sf_nan (SFabs x) = sf_nan x.
Proof. by destruct x. Qed.

Lemma SFabs_idem x : SFabs (SFabs x) = SFabs x.
Proof. by destruct x. Qed.

(** The hypotenuse depends on the sizes of the sides only. *)
Lemma sf_hypot_abs dx dy : sf_hypot dx dy = sf_hypot (SFabs dx) (SFabs dy).
Proof.
  unfold sf_hypot, sf_hypot_max. cbn [fold_left].
  by rewrite !sf_nan_abs, !SFabs_idem.
Qed.

(** A finite hypotenuse has finite sides. *)
Lemma sf_hypot_finite dx dy :
  sf_finite (sf_hypot dx dy) = true -> sf_finite dx = true /\ sf_finite dy = true.
Proof.
  rewrite sf_hypot_abs.
  destruct dx as [sx|sx| |sx mx ex], dy as [sy|sy| |sy my ey];
    cbn [sf_finite SFabs]; try (intros _; done); by cbn.
Qed.

(** A hypotenuse of which one side is NaN is NaN or [+infinity]. *)
Lemma sf_hypot_nan_side dx dy :
  sf_nan dx || sf_nan dy = true ->
  sf_hypot dx dy = S754_nan \/ sf_hypot dx dy = S754_infinity false.
Proof.
  rewrite sf_hypot_abs.
  destruct dx as [sx|sx| |sx mx ex], dy as [sy|sy| |sy my ey];
    cbn [sf_nan SFabs orb]; try done; intros _; cbn; auto.
Qed.

Lemma SFsub_zero_r t : SF64sub t (S754_zero false) = t.
Proof. by destruct t as [[]|[]| |[] m e]. Qed.

Lemma SFadd_zero_l t :
  sf_nan t = false -> sf_nonneg t = true -> SF64add (S754_zero false) t = t.
Proof. by destruct t as [[]|[]| |[] m e]. Qed.

Lemma SFdiv_pos_not_nan x mm em :
  sf_finite x = true -> sf_nonneg x = true ->
  sf_nan (SF64div x (S754_finite false mm em)) = false /\
  sf_nonneg (SF64div x (S754_finite false mm em)) = true.
Proof.
  destruct x as [[]|[]| |[] mx ex]; try done. intros _ _.
  unfold SF64div, SFdiv.
  pose proof (SFdiv_core_nonneg mx ex mm em) as H.
  destruct (SFdiv_core_binary prec emax (Zpos mx) ex (Zpos mm) em) as [[mz ez] lz].
  simpl in H. cbn [xorb].
  split; [by apply binary_round_aux_not_nan|by rewrite binary_round_aux_sign].
Qed.

Lemma SFmul_pos_not_nan y mm em :
  sf_nan y = false -> sf_nonneg y = true ->
  sf_nan (SF64mul y (S754_finite false mm em)) = false /\
  sf_nonneg (SF64mul y (S754_finite false mm em)) = true.
Proof.
  destruct y as [[]|[]| |[] my ey]; try done. intros _ _.
  unfold SF64mul, SFmul. cbn [xorb].
  split; [by apply binary_round_aux_not_nan|by rewrite binary_round_aux_sign].
Qed.

(** The square of a side scaled by a side that is at least as long is
    finite. *)
Lemma scaled_square_finite ax mm em :
  sf_finite ax = true -> sf_nonneg ax = true ->
  (SF2R ax <= IZR (Zpos mm) * bpow em)%R ->
  let n := SF64div ax (S754_finite false mm em) in
  sf_finite (SF64mul n n) = true /\ sf_nonneg (SF64mul n n) = true.
Proof.
  intros Hf Hn Hle n.
  destruct (SFdiv_pos_not_nan ax mm em Hf Hn) as [Hnan Hnn]. fold n in Hnan, Hnn.
  split; [|by apply SFmul_square].
  destruct ax as [[]|[]| |[] mx ex]; try done. simpl in Hle.
  assert (Hm : (0 < IZR (Z.pos mm) * bpow em)%R).
  { pose proof (bpow_pos em). assert (0 < IZR (Z.pos mm))%R by (by apply IZR_lt). nra. }
  assert (Hx : (0 < IZR (Z.pos mx) * bpow ex)%R).
  { pose proof (bpow_pos ex). assert (0 < IZR (Z.pos mx))%R by (by apply IZR_lt). nra. }
  assert (HX : (IZR (Z.pos mx) * bpow ex / (IZR (Z.pos mm) * bpow em) <= 1)%R).
  { apply (Rmult_le_reg_r (IZR (Z.pos mm) * bpow em)); [done|].
    unfold Rdiv. rewrite Rmult_assoc, Rinv_l by lra. lra. }
  destruct (SFdiv_R mx ex mm em 1) as (H1 & H2 & H3); [rewrite bpow_1; lra|lia|].
  fold n in H1, H2, H3. apply Rabs_le_inv in H3.
  assert (Hb : (bpow (fexp64 1) <= 1)%R).
  { rewrite <- bpow_0. apply bpow_le. rewrite fexp64_eq. lia. }
  pose proof (SF2R_nonneg n H2) as H0.
  apply SFmul_finite; try done.
  assert (bpow 2 < bpow 971)%R by (apply bpow_lt; lia).
  assert (bpow 2 = 4)%R by (rewrite <- (IZR_pow2 2) by done; reflexivity).
  assert (SF2R n <= 2)%R by lra. nra.
Qed.

(** The sum of the scaled squares and the hypotenuse made of it. *)
Lemma kahan_nonneg ax ay mm em :
  sf_finite ax = true -> sf_nonneg ax = true ->
  sf_finite ay = true -> sf_nonneg ay = true ->
  (SF2R ax <= IZR (Zpos mm) * bpow em)%R ->
  let m := S754_finite false mm em in
  let sum := fst (fold_left (sf_hypot_sum m) [ax; ay] (S754_zero false, S754_zero false)) in
  sf_nan (SF64mul (SF64sqrt sum) m) = false /\
  sf_nonneg (SF64mul (SF64sqrt sum) m) = true.
Proof.
  intros Hfx Hnx Hfy Hny Hle m sum.
  destruct (scaled_square_finite ax mm em Hfx Hnx Hle) as [Ht1 Ht2]. fold m in Ht1, Ht2.
  subst sum. cbn [fold_left sf_hypot_sum fst].
  set (t := SF64mul (SF64div ax m) (SF64div ax m)) in *.
  assert (Htn : sf_nan t = false) by (by destruct t).
  rewrite (SFsub_zero_r t), (SFadd_zero_l t Htn Ht2), (SFsub_zero_r t), (SFsub_diag t Ht1).
  rewrite SFsub_zero_r.
  destruct (SFdiv_pos_not_nan ay mm em Hfy Hny) as [Hn2 _]. fold m in Hn2.
  destruct (SFmul_square _ Hn2) as [Hs1 Hs2].
  destruct (SFadd_nonneg t _ Htn Ht2 Hs1 Hs2) as [Ha1 Ha2].
  destruct (SFsqrt_nonneg _ Ha1 Ha2) as [Hq1 Hq2].
  by apply SFmul_pos_not_nan.
Qed.

Lemma valid_abs x : valid_binary (SFabs x) = valid_binary x.
Proof. by destruct x. Qed.

Lemma sf_nonneg_abs x : sf_nan x = false -> sf_nonneg (SFabs x) = true.
Proof. by destruct x. Qed.

(** The hypotenuse of two sides, neither of which is NaN, is a number
    that is not negative. *)
Lemma sf_hypot_nonneg dx dy :
  valid_binary dx = true -> valid_binary dy = true ->
  sf_nan dx = false -> sf_nan dy = false ->
  sf_nan (sf_hypot dx dy) = false /\ sf_nonneg (sf_hypot dx dy) = true.
Proof.
  intros Hvx Hvy Hx Hy. rewrite sf_hypot_abs.
  rewrite <- valid_abs in Hvx, Hvy.
  apply sf_nonneg_abs in Hx, Hy.
  destruct (SFabs dx) as [[]|[]| |[] mx ex]; try done;
  destruct (SFabs dy) as [[]|[]| |[] my ey]; try done; clear Hx Hy;
    try (by cbn).
  - (* 0 and a positive number *)
    unfold sf_hypot. cbn [fold_left]. unfold sf_hypot_max. cbn [sf_nan SFabs]. cbv iota.
    change (SFltb (S754_zero false) (S754_zero false)) with false. cbv iota.
    change (SFltb (S754_zero false) (S754_finite false my ey)) with true. cbv iota.
    change (SFeqb (S754_finite false my ey) (S754_infinity false)) with false.
    change (SFeqb (S754_finite false my ey) (S754_zero false)) with false. cbv iota.
    apply kahan_nonneg; try done.
    exact (SF2R_nonneg (S754_finite false my ey) eq_refl).
  - (* a positive number and 0 *)
    unfold sf_hypot. cbn [fold_left]. unfold sf_hypot_max. cbn [sf_nan SFabs]. cbv iota.
    change (SFltb (S754_zero false) (S754_finite false mx ex)) with true. cbv iota.
    change (SFltb (S754_finite false mx ex) (S754_zero false)) with false. cbv iota.
    change (SFeqb (S754_finite false mx ex) (S754_infinity false)) with false.
    change (SFeqb (S754_finite false mx ex) (S754_zero false)) with false. cbv iota.
    apply kahan_nonneg; first [done|apply Rle_refl|by apply Rlt_le].
  - (* two positive numbers *)
    unfold sf_hypot. cbn [fold_left]. unfold sf_hypot_max. cbn [sf_nan SFabs]. cbv iota.
    change (SFltb (S754_zero false) (S754_finite false mx ex)) with true. cbv iota.
    pose proof (SFltb_R (S754_finite false mx ex) (S754_finite false my ey)
                  eq_refl eq_refl Hvx eq_refl eq_refl Hvy) as Hlt.
    destruct (SFltb (S754_finite false mx ex) (S754_finite false my ey)); cbv iota.
    + change (SFeqb (S754_finite false my ey) (S754_infinity false)) with false.
      change (SFeqb (S754_finite false my ey) (S754_zero false)) with false. cbv iota.
      apply kahan_nonneg; first [done|apply Rle_refl|by apply Rlt_le].
    + change (SFeqb (S754_finite false mx ex) (S754_infinity false)) with false.
      change (SFeqb (S754_finite false mx ex) (S754_zero false)) with false. cbv iota.
      apply kahan_nonneg; first [done|apply Rle_refl|by apply Rlt_le].
Qed.

(** A hypotenuse is NaN, or it is not negative. *)
Lemma sf_hypot_sign dx dy :
  valid_binary dx = true -> valid_binary dy = true ->
  sf_nan (sf_hypot dx dy) = false -> sf_nonneg (sf_hypot dx dy) = true.
Proof.
  intros Hvx Hvy. destruct (sf_nan dx || sf_nan dy) eqn:E.
  - by destruct (sf_hypot_nan_side dx dy E) as [-> | ->].
  - apply orb_false_elim in E as [Ex Ey]. intros _. by apply sf_hypot_nonneg.
Qed.

(** *** The same facts on numbers *)

Lemma hypot_nonneg dx dy :
  is_nan dx = false -> is_nan dy = false ->
  sf_nan (Prim2SF (hypot dx dy)) = false /\ sf_nonneg (Prim2SF (hypot dx dy)) = true.
Proof.
  rewrite !is_nan_spec, hypot_spec. apply sf_hypot_nonneg; apply Prim2SF_valid.
Qed.

Lemma hypot_sign dx dy :
  sf_nan (Prim2SF (hypot dx dy)) = false -> sf_nonneg (Prim2SF (hypot dx dy)) = true.
Proof. rewrite hypot_spec. apply sf_hypot_sign; apply Prim2SF_valid. Qed.

Lemma hypot_swap a b c d : hypot (a - b) (c - d) = hypot (b - a) (d - c).
Proof.
  apply Prim2SF_inj. rewrite !hypot_spec, !sub_spec.
  rewrite (sf_hypot_abs (SF64sub (Prim2SF a) (Prim2SF b))),
          (sf_hypot_abs (SF64sub (Prim2SF b) (Prim2SF a))).
  by rewrite (SFsub_swap_abs (Prim2SF a) (Prim2SF b)),
             (SFsub_swap_abs (Prim2SF c) (Prim2SF d)).
Qed.

Lemma sub_diag_finite a : is_finite a = true -> (a - a)%float = 0%float.
Proof.
  rewrite is_finite_spec. intros H. apply Prim2SF_inj.
  rewrite sub_spec, SFsub_diag by done. reflexivity.
Qed.

Lemma sub_is_finite a b :
  is_finite (a - b) = true -> is_finite a = true /\ is_finite b = true.
Proof. rewrite !is_finite_spec, sub_spec. apply SFsub_finite. Qed.

Lemma ltb_10_finite h : (h <? SNAP_THRESHOLD)%float = true ->
  sf_nonneg (Prim2SF h) = true -> sf_finite (Prim2SF h) = true.
Proof.
  rewrite ltb_spec. unfold SFltb.
  destruct (Prim2SF h) as [[]|[]| |[] m e]; simpl; try done.
Qed.

(** Whatever is within the threshold of a point has finite coordinates,
    and so has the point. *)
Lemma near_finite n x y :
  near n x y = true ->
  (is_finite (node_x n) = true /\ is_finite x = true) /\
  (is_finite (node_y n) = true /\ is_finite y = true).
Proof.
  unfold near. intros H.
  assert (Hn : sf_nan (Prim2SF (hypot (node_x n - x) (node_y n - y))) = false).
  { rewrite ltb_spec in H. unfold SFltb in H. by destruct (Prim2SF (hypot _ _)). }
  assert (Hf : sf_finite (Prim2SF (hypot (node_x n - x) (node_y n - y))) = true).
  { apply ltb_10_finite; [done|]. by apply hypot_sign. }
  rewrite hypot_spec in Hf. apply sf_hypot_finite in Hf as [Hx Hy].
  rewrite <- !is_finite_spec in Hx, Hy.
  split; by apply sub_is_finite.
Qed.

(** A point with finite coordinates is within the threshold of itself. *)
Lemma near_self k x y :
  is_finite x = true -> is_finite y = true -> near (Node k x y) x y = true.
Proof.
  intros Hx Hy. unfold near. simpl. by rewrite !sub_diag_finite.
Qed.

(** Between points with finite coordinates, "not closer than the
    threshold" is "at least the threshold away". *)
Lemma far_apart a b c d :
  is_finite a = true -> is_finite b = true ->
  is_finite c = true -> is_finite d = true ->
  (hypot (a - b) (c - d) <? SNAP_THRESHOLD)%float = false ->
  (SNAP_THRESHOLD <=? hypot (a - b) (c - d))%float = true.
Proof.
  rewrite !is_finite_spec. intros Ha Hb Hc Hd.
  rewrite ltb_spec, leb_spec. apply SFltb_false_SFleb; [|done].
  apply hypot_nonneg; rewrite is_nan_spec, sub_spec; by apply SFsub_not_nan.
Qed.

(** *** Values of numbers *)

Lemma B2R_one : B2R 1 = 1%R.
Proof.
  unfold B2R. change (Prim2SF 1) with (S754_finite false 4503599627370496 (-52)).
  unfold SF2R. change 4503599627370496%Z with (2 ^ 52)%Z.
  rewrite IZR_pow2 by done. rewrite <- bpow_add. reflexivity.
Qed.

Lemma B2R_two : B2R 2 = 2%R.
Proof.
  unfold B2R. change (Prim2SF 2) with (S754_finite false 4503599627370496 (-51)).
  unfold SF2R. change 4503599627370496%Z with (2 ^ 52)%Z.
  rewrite IZR_pow2 by done. rewrite <- bpow_add. apply bpow_1.
Qed.

Lemma B2R_zero : B2R 0 = 0%R.
Proof. reflexivity. Qed.

Lemma nonneg_finite_zero : nonneg_finite 0.
Proof. by split. Qed.

Lemma B2R_nonneg x : nonneg_finite x -> (0 <= B2R x)%R.
Proof. intros [_ H]. by apply SF2R_nonneg. Qed.

(** [x >= 1] and [x <= y] decide the order of the values. *)
Lemma leb_R x y : nonneg_finite x -> nonneg_finite y ->
  if (x <=? y)%float then (B2R x <= B2R y)%R else (B2R y < B2R x)%R.
Proof.
  intros [Hx1 Hx2] [Hy1 Hy2]. rewrite leb_spec.
  apply SFleb_R; try done; apply Prim2SF_valid.
Qed.

Lemma geb_one_R x : nonneg_finite x ->
  if geb x 1 then (1 <= B2R x)%R else (B2R x < 1)%R.
Proof.
  intros Hx. unfold geb. rewrite <- B2R_one. apply leb_R; [|done]. by split.
Qed.

(** A number between a positive number and a finite one is finite and
    positive. *)
Lemma between_nonneg_finite a x b :
  (0 <? a)%float = true -> is_finite b = true ->
  (a <=? x)%float = true -> (x <=? b)%float = true -> nonneg_finite x.
Proof.
  unfold is_finite, is_nan, is_infinity.
  rewrite ltb_spec, !leb_spec, !FloatAxioms.eqb_spec, FloatAxioms.abs_spec.
  change (Prim2SF infinity) with (S754_infinity false).
  change (Prim2SF 0) with (S754_zero false).
  unfold SFltb, SFleb, SFeqb, nonneg_finite.
  destruct (Prim2SF a) as [[]|[]| |[] ma ea]; try done;
  destruct (Prim2SF x) as [[]|[]| |[] mx ex]; try done;
  destruct (Prim2SF b) as [[]|[]| |[] mb eb]; simpl; try done.
Qed.

Lemma add_R p q : nonneg_finite p -> nonneg_finite q ->
  (B2R p + B2R q < 2)%R ->
  nonneg_finite (p + q) /\
  (B2R p + B2R q < 1 -> Rabs (B2R (p + q) - (B2R p + B2R q)) <= bpow (-53))%R /\
  (1 <= B2R p + B2R q -> 1 <= B2R (p + q))%R.
Proof.
  intros [Hp1 Hp2] [Hq1 Hq2] HS. unfold nonneg_finite, B2R in *. rewrite add_spec.
  destruct (SFadd_R (Prim2SF p) (Prim2SF q)) as (H1 & H2 & H3 & H4); done.
Qed.

(** The step [2 / L] on a segment of length 8 or more. *)
Lemma step_R L : nonneg_finite L -> (8 <= B2R L)%R ->
  nonneg_finite (2 / L) /\
  (Rabs (B2R (2 / L) - 2 / B2R L) <= bpow (-54))%R.
Proof.
  intros [HL1 HL2] HL. unfold nonneg_finite, B2R in *. rewrite div_spec.
  change (Prim2SF 2) with (S754_finite false 4503599627370496 (-51)).
  pose proof B2R_two as H2. unfold B2R in H2.
  change (Prim2SF 2) with (S754_finite false 4503599627370496 (-51)) in H2.
  destruct (Prim2SF L) as [[]|[]| |[] m e]; simpl in HL; try done; try lra.
  simpl in H2.
  destruct (SFdiv_R 4503599627370496 (-51) m e (-1)) as (H3 & H4 & H5).
  - rewrite H2. unfold bpow. simpl.
    apply (Rmult_lt_reg_r (IZR (Z.pos m) * bpow e)); [lra|].
    unfold Rdiv. rewrite Rmult_assoc, Rinv_l by lra. lra.
  - lia.
  - rewrite H2 in H5. done.
Qed.

(** *** A segment of length zero *)

(** A hypotenuse that compares equal to zero is [+0], and its sides are finite. *)
Lemma hypot_zero dx dy :
  (hypot dx dy =? 0)%float = true ->
  hypot dx dy = 0%float /\ is_finite dx = true /\ is_finite dy = true.
Proof.
  rewrite FloatAxioms.eqb_spec, !is_finite_spec. rewrite hypot_spec.
  intros H.
  assert (Hz : exists s, sf_hypot (Prim2SF dx) (Prim2SF dy) = S754_zero s).
  { destruct (sf_hypot _ _) as [s|[]| |[] ? ?]; try done. by exists s. }
  destruct Hz as [s Hz].
  pose proof (sf_hypot_sign (Prim2SF dx) (Prim2SF dy)
                (Prim2SF_valid dx) (Prim2SF_valid dy)) as Hs.
  pose proof (sf_hypot_finite (Prim2SF dx) (Prim2SF dy)) as Hf.
  rewrite Hz in Hs, Hf. simpl in Hs, Hf.
  split; [|by apply Hf].
  apply Prim2SF_inj. rewrite hypot_spec, Hz.
  destruct s; [by specialize (Hs eq_refl)|reflexivity].
Qed.

(** Adding [+infinity] to a number that is at least zero gives [+infinity]. *)
Lemma add_infinity p : (0 <=? p)%float = true -> (p + infinity)%float = infinity.
Proof.
  rewrite leb_spec. intros H. apply Prim2SF_inj. rewrite add_spec.
  change (Prim2SF infinity) with (S754_infinity false).
  change (Prim2SF 0) with (S754_zero false) in H.
  by destruct (Prim2SF p) as [[]|[]| |[] ? ?].
Qed.

(** [c + d * 0] for finite [c] and [d] is [c] again, up to the sign of a zero. *)
Lemma add_mul_zero c d :
  is_finite c = true -> is_finite d = true ->
  (c + d * 0 =? c)%float = true /\ is_finite (c + d * 0) = true.
Proof.
  rewrite FloatAxioms.eqb_spec, !is_finite_spec, add_spec, mul_spec.
  change (Prim2SF 0) with (S754_zero false).
  intros Hc Hd. unfold SFeqb.
  destruct (Prim2SF d) as [[]|[]| |[] md ed]; try done;
  destruct (Prim2SF c) as [[]|[]| |[] mc ec]; try done; simpl;
  by rewrite Z.compare_refl, Pos.compare_cont_refl.
Qed.

(** * Routes *)

Section Walks.
Variable nbrs : nat -> list neighbor.
Variable s : nat.

Lemma walk_last l v : walk_to nbrs s l v -> last l = Some v.
Proof. destruct 1; [done|by rewrite last_snoc]. Qed.

Lemma walk_head l v : walk_to nbrs s l v -> head l = Some s.
Proof.
  induction 1 as [|l u v Hw IH He]; [done|].
  destruct l; [done|]. by simpl in *.
Qed.

Lemma walk_consecutive l v :
  walk_to nbrs s l v ->
  forall i a b, l !! i = Some a -> l !! S i = Some b -> edge nbrs a b.
Proof.
  induction 1 as [|l u v Hw IH He]; intros i a b Ha Hb.
  - by destruct i.
  - destruct (decide (S i < length l)) as [Hlt|Hge].
    + rewrite lookup_app_l in Ha by lia. rewrite lookup_app_l in Hb by lia. eauto.
    + assert (S i = length l) as Hi.
      { apply lookup_lt_Some in Hb. rewrite length_app in Hb. simpl in Hb. lia. }
      rewrite lookup_app_l in Ha by lia.
      rewrite lookup_app_r in Hb by lia. rewrite Hi, Nat.sub_diag in Hb.
      injection Hb as <-.
      apply walk_last in Hw. rewrite last_lookup in Hw.
      replace (pred (length l)) with i in Hw by lia. congruence.
Qed.

Lemma walk_of_list t : forall l,
  head l = Some s -> last l = Some t ->
  (forall i a b, l !! i = Some a -> l !! S i = Some b -> edge nbrs a b) ->
  walk_to nbrs s l t.
Proof.
  intros l. revert t. induction l as [|x l IH] using rev_ind; intros t Hh Hl Hc; [done|].
  rewrite last_snoc in Hl. injection Hl as ->.
  destruct (last l) as [u|] eqn:Hu.
  - apply walk_snoc with (u := u).
    + apply IH; [|done|].
      * destruct l; [done|]. by simpl in *.
      * intros i a b Ha Hb. apply (Hc i).
        -- rewrite lookup_app_l; [done|]. by apply lookup_lt_Some in Ha.
        -- rewrite lookup_app_l; [done|]. by apply lookup_lt_Some in Hb.
    + rewrite last_lookup in Hu.
      assert (0 < length l) by (destruct l; [done|simpl; lia]).
      apply (Hc (pred (length l))).
      * rewrite lookup_app_l; [done|lia].
      * rewrite lookup_app_r by lia.
        replace (S (pred (length l)) - length l) with 0 by lia. done.
  - apply last_None in Hu. subst l. simpl in Hh. injection Hh as ->. constructor.
Qed.

(** A walk that stays twice on a node can be shortened. *)
Lemma walk_skip_repeat pre a : forall post v,
  walk_to nbrs s (pre ++ [a; a] ++ post) v ->
  walk_to nbrs s (pre ++ [a] ++ post) v.
Proof.
  induction post as [|x post IH] using rev_ind; intros v Hw.
  - assert (E : pre ++ [a; a] ++ [] = (pre ++ [a]) ++ [a]) by (by rewrite <- app_assoc).
    rewrite E in Hw. remember ((pre ++ [a]) ++ [a]) as L eqn:HL.
    destruct Hw as [|l u v Hw He].
    + destruct pre as [|? [|? ?]]; done.
    + apply app_inj_tail in HL as [-> ->].
      pose proof (walk_last _ _ Hw) as Hl. rewrite last_snoc in Hl.
      injection Hl as <-. by rewrite app_nil_r.
  - assert (E : pre ++ [a; a] ++ post ++ [x] = (pre ++ [a; a] ++ post) ++ [x])
      by (by rewrite <- !app_assoc).
    rewrite E in Hw. remember ((pre ++ [a; a] ++ post) ++ [x]) as L eqn:HL.
    destruct Hw as [|l u v Hw He].
    + destruct pre as [|? [|? ?]]; simpl in HL; try done.
    + apply app_inj_tail in HL as [-> ->].
      replace (pre ++ [a] ++ post ++ [x]) with ((pre ++ [a] ++ post) ++ [x])
        by (by rewrite <- !app_assoc).
      econstructor; [by apply IH|done].
Qed.

End Walks.

Lemma edge_adjacent g a b :
  edge (neighbors (adj g)) (node_id a) (node_id b) <-> adjacent g a b.
Proof.
  split.
  - intros ([i d] & He & Hi). simpl in Hi. subst i. by exists d.
  - intros [d Hd]. by exists (Neighbor (node_id b) d).
Qed.

Lemma ids_to_nodes (ndl : list node) ids :
  Forall (fun i => i < length ndl) ids ->
  exists ns, (fun i => ndl !! i) <$> ids = Some <$> ns /\
    Forall2 (fun i n => ndl !! i = Some n) ids ns.
Proof.
  induction 1 as [|i ids Hi _ (ns & E & F)]; [by exists []|].
  destruct (lookup_lt_is_Some_2 ndl i Hi) as [n Hn].
  exists (n :: ns). split; [by rewrite !fmap_cons, E, Hn|by constructor].
Qed.

Section Routes.
Variable g : graph.
Hypothesis Hids : ids_ok (nodes g).
Hypothesis Hstart : nodes g !! node_id (startNode g) = Some (startNode g).
Hypothesis Hdest : nodes g !! node_id (destNode g) = Some (destNode g).

Lemma route_walk ns :
  route g ns ->
  walk_to (neighbors (adj g)) (node_id (startNode g)) (node_id <$> ns)
          (node_id (destNode g)).
Proof.
  intros (Hh & Hl & Hc). apply walk_of_list.
  - rewrite head_lookup, list_lookup_fmap, <- head_lookup, Hh. done.
  - rewrite last_lookup, list_lookup_fmap, length_fmap, <- last_lookup, Hl. done.
  - intros i a b. rewrite !list_lookup_fmap.
    destruct (ns !! i) as [na|] eqn:Ea; [|done].
    destruct (ns !! S i) as [nb|] eqn:Eb; [|done].
    simpl. intros [= <-] [= <-]. apply edge_adjacent. by eapply Hc.
Qed.

Lemma walk_route ids ns :
  walk_to (neighbors (adj g)) (node_id (startNode g)) ids (node_id (destNode g)) ->
  Forall2 (fun i n => nodes g !! i = Some n) ids ns ->
  route g ns.
Proof.
  intros Hw HF.
  assert (Hat : forall k n, ns !! k = Some n ->
            ids !! k = Some (node_id n) /\ nodes g !! node_id n = Some n).
  { intros k n Hn.
    destruct (Forall2_lookup_r _ _ _ _ _ HF Hn) as (i & Hi & Hin).
    by rewrite Hi, (Hids _ _ Hin). }
  assert (Hof : forall k i, ids !! k = Some i -> exists n, ns !! k = Some n /\ nodes g !! i = Some n).
  { intros k i Hi. by apply (Forall2_lookup_l _ _ _ _ _ HF Hi). }
  split; [|split].
  - pose proof (walk_head _ _ _ _ Hw) as Hh. rewrite head_lookup in Hh.
    destruct (Hof _ _ Hh) as (n & Hn & Hn'). rewrite head_lookup, Hn. congruence.
  - pose proof (walk_last _ _ _ _ Hw) as Hl. rewrite last_lookup in Hl.
    destruct (Hof _ _ Hl) as (n & Hn & Hn').
    rewrite last_lookup, <- (Forall2_length _ _ _ HF), Hn. congruence.
  - intros i a b Ha Hb. apply edge_adjacent.
    destruct (Hat _ _ Ha) as [Ha' _], (Hat _ _ Hb) as [Hb' _].
    by eapply walk_consecutive.
Qed.

Lemma path_spec_shortest r :
  path_spec (neighbors (adj g)) (nodes g)
    (node_id (startNode g)) (node_id (destNode g)) r ->
  shortest_or_none g r.
Proof.
  destruct r as [p|]; simpl.
  - intros (ids & -> & Hr & Hw & Hmin).
    destruct (ids_to_nodes (nodes g) ids Hr) as (ns & E & HF).
    exists ns. split; [done|]. split; [|split].
    + apply Forall_forall. intros n [k Hk]%list_elem_of_lookup.
      destruct (Forall2_lookup_r _ _ _ _ _ HF Hk) as (i & _ & Hin).
      apply list_elem_of_lookup. eauto.
    + by eapply walk_route.
    + intros ns' Hr'. apply route_walk in Hr'. apply Hmin in Hr'.
      by rewrite length_fmap, (Forall2_length _ _ _ HF) in Hr'.
  - intros Hno ns' Hr'. by apply route_walk, Hno in Hr'.
Qed.

End Routes.

(** [null] is returned exactly when there is no route. *)
Lemma shortest_or_none_no_route g r :
  shortest_or_none g r -> (forall p, ~ route g p) -> r = None.
Proof.
  destruct r as [p|]; [|done]. intros (ns & _ & _ & Hr & _) Hno.
  by apply Hno in Hr.
Qed.

Lemma shortest_or_none_null g r :
  shortest_or_none g r -> (r = None <-> forall p, ~ route g p).
Proof.
  intros Hs. split; [by intros ->|by apply shortest_or_none_no_route].
Qed.

(** The search on a well-formed graph. *)
Lemma findPath_with_shortest nof (g : graph) :
  wf_build (nodes g) (adj g) ->
  (forall k, k < length (nodes g) -> nof g k = Ret (neighbors (adj g) k)) ->
  nodes g !! node_id (startNode g) = Some (startNode g) ->
  nodes g !! node_id (destNode g) = Some (destNode g) ->
  exists r, findPath_with nof (S (length (nodes g))) g = Ret r /\
    path_spec (neighbors (adj g)) (nodes g)
      (node_id (startNode g)) (node_id (destNode g)) r /\
    shortest_or_none g r.
Proof.
  intros Hwf Hof Hs Hd.
  destruct (findPath_with_correct nof (neighbors (adj g)) g) as (r & Hr & Hspec).
  - apply Hwf.
  - done.
  - apply Hwf.
  - by apply lookup_lt_Some in Hs.
  - exists r. split; [done|]. split; [done|].
    apply path_spec_shortest; try done. apply Hwf.
Qed.

Module GameJsSearch.
Import GameJs GameJsFacts.

Lemma gj_findPath_shortest cv rs :
  exists g, buildGraph cv rs = Ret g /\
  exists r, findPath g = Ret r /\
    path_spec (neighbors (adj g)) (nodes g)
      (node_id (startNode g)) (node_id (destNode g)) r /\
    shortest_or_none g r.
Proof.
  destruct (gj_buildGraph_good cv rs) as (g & Hg & [Hwf Htot] & _ & Hs & H0 & Hd).
  exists g. split; [done|]. simpl in *.
  apply findPath_with_shortest; try done.
  - intros k Hk. unfold neighborsOf, neighbors.
    destruct (proj1 (Htot k) Hk) as [l Hl]. simpl in Hl. by rewrite Hl.
  - by rewrite Hs in *.
Qed.

End GameJsSearch.

Module ClassesSearch.
Import Classes ClassesFacts.

Lemma cl_findPath_shortest cv rs :
  exists r, findPath (buildGraph cv rs) = Ret r /\
    path_spec (neighbors (adj (buildGraph cv rs))) (nodes (buildGraph cv rs))
      (node_id (startNode (buildGraph cv rs))) (node_id (destNode (buildGraph cv rs))) r /\
    shortest_or_none (buildGraph cv rs) r.
Proof.
  destruct (cl_buildGraph_good cv rs) as ([Hwf Hne] & _ & Hs & H0 & Hd).
  simpl in *.
  apply findPath_with_shortest; try done.
  by rewrite Hs in *.
Qed.

End ClassesSearch.

(** ** Fuel *)

(** A loop that ended within some fuel ends the same way with more. *)
Lemma reconstruct_more_fuel ns cf : forall fuel fuel' cur acc r,
  reconstruct ns fuel cf cur acc = Ret r -> fuel <= fuel' ->
  reconstruct ns fuel' cf cur acc = Ret r.
Proof.
  induction fuel as [|fuel IH]; intros fuel' cur acc r H Hle.
  - destruct cur as [[c|]|]; simpl in H; try done. by destruct fuel'.
  - destruct fuel' as [|fuel']; [lia|].
    destruct cur as [[c|]|]; simpl in *; try done.
    apply IH; [done|lia].
Qed.

Lemma bfs_more_fuel nof ns t : forall fuel fuel' rfuel rfuel' q cf r,
  bfs nof ns t fuel rfuel q cf = Ret r -> fuel <= fuel' -> rfuel <= rfuel' ->
  bfs nof ns t fuel' rfuel' q cf = Ret r.
Proof.
  induction fuel as [|fuel IH]; intros fuel' rfuel rfuel' q cf r H Hle Hrle; [done|].
  destruct fuel' as [|fuel']; [lia|]. simpl in *.
  destruct q as [|u q]; [done|].
  destruct (u =? t).
  - destruct (reconstruct ns rfuel cf (Some (Some u)) []) as [p| |] eqn:E; try done.
    by rewrite (reconstruct_more_fuel _ _ _ _ _ _ _ E Hrle).
  - destruct (nof u) as [l| |]; try done. simpl in *.
    destruct (fold_left (visit u) l (q, cf)) as [q' cf'].
    apply (IH fuel' rfuel rfuel'); [done|lia|done].
Qed.

(** The fuel [findPath] runs with is enough: on the graphs the builders
    produce, no larger fuel gives another result. *)
Lemma findPath_enough_fuel (cv : canvas) (rs : list road) (fuel : nat) :
  (exists g, GameJs.buildGraph cv rs = Ret g /\
     (S (length (nodes g)) <= fuel ->
      findPath_with GameJs.neighborsOf fuel g = GameJs.findPath g)) /\
  (S (length (nodes (Classes.buildGraph cv rs))) <= fuel ->
   findPath_with Classes.neighborsOf fuel (Classes.buildGraph cv rs)
   = Classes.findPath (Classes.buildGraph cv rs)).
Proof.
  split.
  - destruct (GameJsSearch.gj_findPath_shortest cv rs) as (g & Hg & r & Hr & _).
    exists g. split; [done|]. intros Hle. rewrite Hr.
    unfold GameJs.findPath, findPath_with in *. by eapply bfs_more_fuel.
  - destruct (ClassesSearch.cl_findPath_shortest cv rs) as (r & Hr & _).
    intros Hle. rewrite Hr.
    unfold Classes.findPath, findPath_with in *. by eapply bfs_more_fuel.
Qed.

(** * The two builders build the same graph *)

Lemma getOrCreateNode_sim x y st :
  Classes.getOrCreateNode x y st.1 =
  ((GameJs.getOrCreateNode x y st).1, (GameJs.getOrCreateNode x y st).2.1).
Proof.
  unfold Classes.getOrCreateNode, GameJs.getOrCreateNode.
  by destruct (List.find _ st.1).
Qed.

Lemma addRoad_sim st adjB r :
  GameJsFacts.good st ->
  (forall k, neighbors st.2 k = neighbors adjB k) ->
  exists st', GameJs.addRoad st r = Ret st' /\ GameJsFacts.good st' /\
    st'.1 = (Classes.addRoad (st.1, adjB) r).1 /\
    forall k, neighbors st'.2 k = neighbors (Classes.addRoad (st.1, adjB) r).2 k.
Proof.
  intros Hg Hnb. unfold GameJs.addRoad, Classes.addRoad. simpl.
  rewrite (getOrCreateNode_sim (x1 r) (y1 r) st).
  pose proof (GameJsFacts.gj_getOrCreateNode_good (x1 r) (y1 r) st Hg) as H1.
  destruct (GameJs.getOrCreateNode (x1 r) (y1 r) st) as [nodeA st1]. simpl in H1.
  destruct H1 as (Hg1 & HA & Hn1 & tl1 & Htl1 & Hlen1).
  simpl. rewrite (getOrCreateNode_sim (x2 r) (y2 r) st1).
  pose proof (GameJsFacts.gj_getOrCreateNode_good (x2 r) (y2 r) st1 Hg1) as H2.
  destruct (GameJs.getOrCreateNode (x2 r) (y2 r) st1) as [nodeB st2]. simpl in H2.
  destruct H2 as (Hg2 & HB & Hn2 & tl2 & Htl2 & Hlen2).
  assert (HA2 : node_id nodeA < length st2.1).
  { rewrite Htl2, length_app. apply lookup_lt_Some in HA. lia. }
  assert (HB2 : node_id nodeB < length st2.1) by (by apply lookup_lt_Some in HB).
  destruct Hg2 as [Hwf2 Htot2].
  set (d := hypot _ _).
  destruct (GameJsFacts.gj_push_total (node_id nodeA) (Neighbor (node_id nodeB) d) st2.2)
    as (adj1 & E1 & Hnb1 & Hk1); [by apply Htot2|]. rewrite E1. simpl.
  destruct (GameJsFacts.gj_push_total (node_id nodeB) (Neighbor (node_id nodeA) d) adj1)
    as (adj2 & E2 & Hnb2 & Hk2); [by apply Hk1, Htot2|]. rewrite E2.
  simpl. eexists; split; [done|]. simpl.
  split; [split; [|split]|split; [done|]].
  - apply wf_build_edge with (adj := st2.2) (a := node_id nodeA) (b := node_id nodeB) (d := d);
      try done.
    split.
    + intros k. by rewrite Hnb2, Hnb1, <- app_assoc.
    + intros k. rewrite Hk2, Hk1. split; [auto|].
      intros [?|[ ->| ->]]; [done|by apply Htot2..].
  - simpl. intros Hk. by apply Hk2, Hk1, Htot2.
  - simpl. intros Hk. by apply Htot2, Hk1, Hk2.
  - intros k.
    destruct (ClassesFacts.cl_addEdge_edge_added nodeA nodeB adjB) as [HnB _].
    fold d in HnB. by rewrite HnB, Hnb2, Hnb1, Hn2, Hn1, Hnb, <- app_assoc.
Qed.

Lemma forEach_addRoad_sim rs : forall st adjB,
  GameJsFacts.good st ->
  (forall k, neighbors st.2 k = neighbors adjB k) ->
  exists st', forEach GameJs.addRoad rs st = Ret st' /\
    st'.1 = (fold_left Classes.addRoad rs (st.1, adjB)).1 /\
    forall k, neighbors st'.2 k = neighbors (fold_left Classes.addRoad rs (st.1, adjB)).2 k.
Proof.
  induction rs as [|r rs IH]; intros st adjB Hg Hnb; simpl.
  - by exists st.
  - destruct (addRoad_sim st adjB r Hg Hnb) as (st1 & -> & Hg1 & Hn1 & Hnb1). simpl.
    destruct (IH st1 (Classes.addRoad (st.1, adjB) r).2 Hg1 Hnb1) as (st2 & E2 & Hn2 & Hnb2).
    exists st2. split; [done|].
    rewrite Hn1 in Hn2, Hnb2. by rewrite <- surjective_pairing in Hn2, Hnb2.
Qed.

Lemma buildGraph_same cv rs :
  exists g, GameJs.buildGraph cv rs = Ret g /\ same_graph g (Classes.buildGraph cv rs).
Proof.
  unfold GameJs.buildGraph, Classes.buildGraph.
  change (@nil node) with ((@nil node, (∅ : gmap nat (list neighbor))).1) at 2.
  rewrite (getOrCreateNode_sim (fst start) (snd start) ([], ∅)).
  pose proof (GameJsFacts.gj_getOrCreateNode_good (fst start) (snd start) _
                GameJsFacts.gj_good_empty) as H1.
  destruct (GameJs.getOrCreateNode (fst start) (snd start) ([], ∅)) as [sN st1].
  simpl in H1. destruct H1 as (Hg1 & _ & Hnb1 & _).
  cbn [fst snd]. rewrite (getOrCreateNode_sim (fst (dest cv)) (snd (dest cv)) st1).
  pose proof (GameJsFacts.gj_getOrCreateNode_good (fst (dest cv)) (snd (dest cv)) _ Hg1) as H2.
  destruct (GameJs.getOrCreateNode (fst (dest cv)) (snd (dest cv)) st1) as [dN st2].
  simpl in H2. destruct H2 as (Hg2 & _ & Hnb2 & _).
  cbn [fst snd].
  destruct (forEach_addRoad_sim rs st2 ∅ Hg2) as (st3 & -> & Hn3 & Hnb3).
  { intros k. by rewrite Hnb2, Hnb1. }
  simpl. eexists. split; [done|]. by split.
Qed.

(** * The graph builder: size, symmetry, entries *)

Lemma wf_build_symmetric ns adj : wf_build ns adj -> symmetric_adj adj.
Proof.
  intros Hwf a b d la Ha Hin.
  assert (H : Neighbor a d ∈ neighbors adj b).
  { apply (wf_sym _ _ Hwf). unfold neighbors. by rewrite Ha. }
  unfold neighbors in H. destruct (adj !! b) as [lb|]; [eauto|].
  by apply elem_of_nil in H.
Qed.

(** C7.  In every graph the builders produce, the adjacency mapping is
    symmetric: if [b] appears in the list of [a] with distance [d], then
    [a] appears in the list of [b] with the same [d]. *)
Theorem C7_adjacency_symmetric (cv : canvas) (rs : list road) :
  (exists g, GameJs.buildGraph cv rs = Ret g /\ symmetric_adj (adj g)) /\
  symmetric_adj (adj (Classes.buildGraph cv rs)).
Proof.
  split.
  - destruct (GameJsFacts.gj_buildGraph_good cv rs) as (g & Hg & [Hwf _] & _).
    exists g. split; [done|]. by eapply wf_build_symmetric.
  - destruct (ClassesFacts.cl_buildGraph_good cv rs) as ([Hwf _] & _).
    by eapply wf_build_symmetric.
Qed.

(** C8.  For every collection of roads, the graph has at most twice the
    number of roads plus two nodes. *)
Theorem C8_node_count (cv : canvas) (rs : list road) :
  (exists g, GameJs.buildGraph cv rs = Ret g /\
             length (nodes g) <= 2 * length rs + 2) /\
  length (nodes (Classes.buildGraph cv rs)) <= 2 * length rs + 2.
Proof.
  split.
  - destruct (GameJsFacts.gj_buildGraph_good cv rs) as (g & Hg & _ & Hlen & _).
    by exists g.
  - by destruct (ClassesFacts.cl_buildGraph_good cv rs) as (_ & Hlen & _).
Qed.

(** C4.  On every graph the builders produce, [findPath] returns either a
    sequence of nodes of the graph that starts at the start node, ends at
    the destination node, moves along edges and has as few nodes (so as
    few hops) as any such sequence, or [null]; and it returns [null]
    exactly when no such sequence exists. *)
Theorem C4_findPath_shortest (cv : canvas) (rs : list road) :
  (exists g, GameJs.buildGraph cv rs = Ret g /\
     exists r, GameJs.findPath g = Ret r /\ shortest_or_none g r /\
       (r = None <-> forall p, ~ route g p)) /\
  (exists r, Classes.findPath (Classes.buildGraph cv rs) = Ret r /\
     shortest_or_none (Classes.buildGraph cv rs) r /\
     (r = None <-> forall p, ~ route (Classes.buildGraph cv rs) p)).
Proof.
  split.
  - destruct (GameJsSearch.gj_findPath_shortest cv rs) as (g & Hg & r & Hr & _ & Hs).
    exists g. split; [done|]. exists r. split; [done|]. split; [done|].
    by apply shortest_or_none_null.
  - destruct (ClassesSearch.cl_findPath_shortest cv rs) as (r & Hr & _ & Hs).
    exists r. split; [done|]. split; [done|]. by apply shortest_or_none_null.
Qed.

(** *** Entries of the adjacency mapping *)

Lemma find_app_l {A} (f : A -> bool) l1 l2 x :
  List.find f l1 = Some x -> List.find f (l1 ++ l2) = Some x.
Proof.
  induction l1 as [|a l1 IH]; simpl; [done|]. destruct (f a); [done|apply IH].
Qed.

Lemma find_app_r {A} (f : A -> bool) l1 l2 :
  List.find f l1 = None -> List.find f (l1 ++ l2) = List.find f l2.
Proof.
  induction l1 as [|a l1 IH]; simpl; [done|]. destruct (f a); [done|apply IH].
Qed.

(** Merging is stable: once an endpoint has resolved to a node, it resolves
    to the same node in every longer node list. *)
Lemma resolve_stable x y ns tl n :
  resolve ((Classes.getOrCreateNode x y ns).2 ++ tl) x y = Some n ->
  n = (Classes.getOrCreateNode x y ns).1.
Proof.
  unfold resolve, Classes.getOrCreateNode.
  destruct (List.find _ ns) as [n0|] eqn:E; simpl.
  - rewrite (find_app_l _ _ _ _ E). congruence.
  - rewrite <- app_assoc, (find_app_r _ _ _ E). simpl.
    destruct (near (Node (length ns) x y) x y) eqn:En; [congruence|].
    intros [_ Hn]%find_some.
    apply near_finite in Hn as [[_ Hx] [_ Hy]].
    by rewrite (near_self _ x y Hx Hy) in En.
Qed.

Module ClassesEntries.
Import Classes ClassesFacts.

Lemma addRoad_keys st r k :
  is_Some (st.2 !! k) -> is_Some ((addRoad st r).2 !! k).
Proof.
  unfold addRoad.
  destruct (getOrCreateNode (x1 r) (y1 r) st.1) as [nodeA ns1].
  destruct (getOrCreateNode (x2 r) (y2 r) ns1) as [nodeB ns2]. simpl.
  intros H. apply (cl_addEdge_edge_added nodeA nodeB st.2). by left.
Qed.

Lemma fold_addRoad_keys rs : forall st k,
  is_Some (st.2 !! k) -> is_Some ((fold_left addRoad rs st).2 !! k).
Proof.
  induction rs as [|r rs IH]; intros st k H; simpl; [done|].
  by apply IH, addRoad_keys.
Qed.

Lemma getOrCreateNode_extends x y ns :
  exists tl, (getOrCreateNode x y ns).2 = ns ++ tl.
Proof.
  unfold getOrCreateNode. destruct (List.find _ ns); simpl.
  - exists (@nil node). by rewrite app_nil_r.
  - by eexists.
Qed.

Lemma addRoad_extends st r : exists tl, (addRoad st r).1 = st.1 ++ tl.
Proof.
  unfold addRoad.
  destruct (getOrCreateNode_extends (x1 r) (y1 r) st.1) as [tl1 H1].
  destruct (getOrCreateNode (x1 r) (y1 r) st.1) as [nodeA ns1]. simpl in H1.
  destruct (getOrCreateNode_extends (x2 r) (y2 r) ns1) as [tl2 H2].
  destruct (getOrCreateNode (x2 r) (y2 r) ns1) as [nodeB ns2]. simpl in *.
  exists (tl1 ++ tl2). by rewrite H2, H1, app_assoc.
Qed.

Lemma fold_addRoad_extends rs : forall st,
  exists tl, (fold_left addRoad rs st).1 = st.1 ++ tl.
Proof.
  induction rs as [|r rs IH]; intros st; simpl.
  - exists (@nil node). by rewrite app_nil_r.
  - destruct (IH (addRoad st r)) as [tl2 H2], (addRoad_extends st r) as [tl1 H1].
    exists (tl1 ++ tl2). by rewrite H2, H1, app_assoc.
Qed.

(** The nodes of a road's endpoints get their entries when the road is added. *)
Lemma addRoad_endpoints st r tl n :
  resolve ((addRoad st r).1 ++ tl) (x1 r) (y1 r) = Some n \/
  resolve ((addRoad st r).1 ++ tl) (x2 r) (y2 r) = Some n ->
  is_Some ((addRoad st r).2 !! node_id n).
Proof.
  unfold addRoad.
  pose proof (resolve_stable (x1 r) (y1 r) st.1) as HA.
  destruct (getOrCreateNode (x1 r) (y1 r) st.1) as [nodeA ns1]. simpl in HA.
  pose proof (resolve_stable (x2 r) (y2 r) ns1) as HB.
  destruct (getOrCreateNode_extends (x2 r) (y2 r) ns1) as [tl2 H2].
  destruct (getOrCreateNode (x2 r) (y2 r) ns1) as [nodeB ns2]. simpl in *.
  destruct (cl_addEdge_edge_added nodeA nodeB st.2) as [_ Hk].
  intros [H|H].
  - rewrite H2, <- app_assoc in H. apply HA in H as ->. apply Hk. auto.
  - apply HB in H as ->. apply Hk. auto.
Qed.

Lemma fold_addRoad_endpoints rs : forall st r n,
  r ∈ rs ->
  resolve (fold_left addRoad rs st).1 (x1 r) (y1 r) = Some n \/
  resolve (fold_left addRoad rs st).1 (x2 r) (y2 r) = Some n ->
  is_Some ((fold_left addRoad rs st).2 !! node_id n).
Proof.
  induction rs as [|r0 rs IH]; intros st r n Hin H; [by apply elem_of_nil in Hin|].
  simpl in *. apply elem_of_cons in Hin as [->|Hin]; [|by eapply IH].
  destruct (fold_addRoad_extends rs (addRoad st r0)) as [tl Htl].
  rewrite Htl in H. apply fold_addRoad_keys. by eapply addRoad_endpoints.
Qed.

End ClassesEntries.

(** * Frames without a route *)

Lemma route_same_graph g g' p : same_graph g g' -> route g p -> route g' p.
Proof.
  intros (Hn & Hs & Hd & Hnb) (Hh & Hl & Hc). unfold route, adjacent in *.
  rewrite <- Hs, <- Hd. split; [done|]. split; [done|].
  intros i a b Ha Hb. destruct (Hc i a b Ha Hb) as [d Hin].
  exists d. by rewrite <- Hnb.
Qed.

Section NoRoute.
Variable cv : canvas.

Lemma gj_findPath_disconnected rs :
  disconnected cv rs ->
  exists gr, GameJs.buildGraph cv rs = Ret gr /\ GameJs.findPath gr = Ret None.
Proof.
  intros Hno.
  destruct (GameJsSearch.gj_findPath_shortest cv rs) as (g & Hg & r & Hr & _ & Hs).
  destruct (buildGraph_same cv rs) as (g' & Hg' & Hsame).
  assert (g' = g) as -> by congruence.
  exists g. split; [done|]. rewrite Hr. f_equal.
  apply (shortest_or_none_no_route g r Hs).
  intros p Hp. apply (Hno p). by eapply route_same_graph.
Qed.

Lemma cl_findPath_disconnected rs :
  disconnected cv rs ->
  Classes.findPath (Classes.buildGraph cv rs) = Ret None.
Proof.
  intros Hno.
  destruct (ClassesSearch.cl_findPath_shortest cv rs) as (r & Hr & _ & Hs).
  rewrite Hr. f_equal. by eapply shortest_or_none_no_route.
Qed.

Lemma gj_updateCar_disconnected g :
  disconnected cv (roads g) -> GameJs.updateCar cv g = Ret (with_path None g).
Proof.
  intros Hno. unfold GameJs.updateCar.
  destruct (gj_findPath_disconnected _ Hno) as (gr & -> & Hp). simpl.
  rewrite Hp. done.
Qed.

Lemma cl_updateCar_disconnected g :
  disconnected cv (roads g) -> Classes.updateCar cv g = Ret (with_path None g).
Proof.
  intros Hno. unfold Classes.updateCar.
  rewrite (cl_findPath_disconnected _ Hno). done.
Qed.

Lemma run_with_frame upd es g :
  run_with upd (Frame :: es) g = g' ← upd g; run_with upd es g'.
Proof. reflexivity. Qed.

Lemma run_with_draw upd a b es g :
  run_with upd (Draw a b :: es) g = run_with upd es (mouseup a b g).
Proof. reflexivity. Qed.

(** A run in which the car never moves. *)
Lemma run_idle (upd : game -> result game) :
  (forall g, disconnected cv (roads g) -> upd g = Ret (with_path None g)) ->
  forall es g, stays_disconnected cv es (roads g) ->
  exists g', run_with upd es g = Ret g' /\
    score g' = score g /\
    car_x (the_car g') = car_x (the_car g) /\
    car_y (the_car g') = car_y (the_car g) /\
    segIndex (the_car g') = segIndex (the_car g) /\
    progress (the_car g') = progress (the_car g).
Proof.
  intros Hupd. induction es as [|[|a b] es IH]; intros g Hes.
  - by exists g.
  - destruct Hes as [Hno Hes]. rewrite run_with_frame, (Hupd g Hno). simpl.
    apply (IH (with_path None g) Hes).
  - rewrite run_with_draw. apply (IH (mouseup a b g) Hes).
Qed.

End NoRoute.

(** C5.  When no sequence of edges connects origin and destination,
    [findPath] returns [null]; and through any run of frames and drawings
    in which every frame finds such a graph, the car keeps its position,
    its segment index and its progress, and the score stays what it was. *)
Theorem C5_no_route_idle (cv : canvas) (g : game) (es : list event) :
  (disconnected cv (roads g) ->
     (exists gr, GameJs.buildGraph cv (roads g) = Ret gr /\
                 GameJs.findPath gr = Ret None) /\
     Classes.findPath (Classes.buildGraph cv (roads g)) = Ret None) /\
  (stays_disconnected cv es (roads g) ->
   forall upd, upd = GameJs.updateCar cv \/ upd = Classes.updateCar cv ->
     exists g', run_with upd es g = Ret g' /\
       score g' = score g /\
       car_x (the_car g') = car_x (the_car g) /\
       car_y (the_car g') = car_y (the_car g) /\
       segIndex (the_car g') = segIndex (the_car g) /\
       progress (the_car g') = progress (the_car g)).
Proof.
  split.
  - intros Hno. split; [by apply gj_findPath_disconnected|].
    by apply cl_findPath_disconnected.
  - intros Hes upd Hupd. apply (run_idle cv); [|done].
    destruct Hupd as [-> | ->]; intros g0 H0;
      [by apply gj_updateCar_disconnected|by apply cl_updateCar_disconnected].
Qed.

(** A graph on which the search returns [null] has no route. *)
Lemma disconnected_by_search cv rs :
  Classes.findPath (Classes.buildGraph cv rs) = Ret None -> disconnected cv rs.
Proof.
  intros H. destruct (ClassesSearch.cl_findPath_shortest cv rs) as (r & Hr & _ & Hs).
  rewrite H in Hr. injection Hr as <-. exact Hs.
Qed.

Lemma C5_no_route_idle_witness :
  let cv := Canvas 800 600 in
  let es := [Frame; Draw (80, 80)%float (200, 80)%float; Frame; Frame] in
  disconnected cv (roads initial_game) /\
  stays_disconnected cv es (roads initial_game) /\
  Classes.findPath (Classes.buildGraph cv (roads initial_game)) = Ret None /\
  exists g', run_with (GameJs.updateCar cv) es initial_game = Ret g' /\
    score g' = 0.
Proof.
  intros cv es.
  assert (H0 : disconnected cv (roads initial_game))
    by (apply disconnected_by_search; vm_compute; reflexivity).
  assert (H1 : disconnected cv
                 (add_road (80, 80)%float (200, 80)%float (roads initial_game)))
    by (apply disconnected_by_search; vm_compute; reflexivity).
  assert (Hes : stays_disconnected cv es (roads initial_game))
    by (simpl; tauto).
  destruct (C5_no_route_idle cv initial_game es) as [Hnull Hrun].
  split; [exact H0|]. split; [exact Hes|]. split; [exact (proj2 (Hnull H0))|].
  destruct (Hrun Hes (GameJs.updateCar cv)) as (g' & Hg' & Hs & _); [by left|].
  exists g'. split; [exact Hg'|exact Hs].
Defined.

(** * Coincident anchors *)

Lemma gj_buildGraph_coincide cv :
  anchors_coincide cv ->
  GameJs.buildGraph cv [] =
  Ret (Graph [origin_node] {[ 0 := [] ]} origin_node origin_node).
Proof.
  intros H. unfold GameJs.buildGraph, GameJs.getOrCreateNode. simpl.
  unfold anchors_coincide, origin_node in H. simpl in H. rewrite H. reflexivity.
Qed.

Lemma cl_buildGraph_coincide cv :
  anchors_coincide cv ->
  Classes.buildGraph cv [] = Graph [origin_node] ∅ origin_node origin_node.
Proof.
  intros H. unfold Classes.buildGraph, Classes.getOrCreateNode. simpl.
  unfold anchors_coincide, origin_node in H. simpl in H. rewrite H. reflexivity.
Qed.

(** C1, amended.  When the anchors coincide and no road is drawn,
    [findPath] returns the path that holds the origin node alone, and the
    frame that follows leaves the car where it is and the score as it is:
    a path of fewer than two nodes is not travelled. *)
Theorem C1_single_node_path_idle (cv : canvas) (g : game) :
  anchors_coincide cv -> roads g = [] ->
  (exists gr, GameJs.buildGraph cv (roads g) = Ret gr /\
              GameJs.findPath gr = Ret (Some [Some origin_node])) /\
  Classes.findPath (Classes.buildGraph cv (roads g)) = Ret (Some [Some origin_node]) /\
  GameJs.updateCar cv g = Ret (with_path (Some [Some origin_node]) g) /\
  Classes.updateCar cv g = Ret (with_path (Some [Some origin_node]) g).
Proof.
  intros Hc Hr.
  assert (HA : GameJs.findPath (Graph [origin_node] {[ 0 := [] ]} origin_node origin_node)
               = Ret (Some [Some origin_node])) by reflexivity.
  assert (HB : Classes.findPath (Graph [origin_node] ∅ origin_node origin_node)
               = Ret (Some [Some origin_node])) by reflexivity.
  split; [|split; [|split]].
  - rewrite Hr, (gj_buildGraph_coincide cv Hc). eauto.
  - by rewrite Hr, (cl_buildGraph_coincide cv Hc).
  - unfold GameJs.updateCar, with_path.
    rewrite Hr, (gj_buildGraph_coincide cv Hc). simpl. by rewrite HA.
  - unfold Classes.updateCar, with_path.
    by rewrite Hr, (cl_buildGraph_coincide cv Hc), HB.
Qed.

Lemma C1_single_node_path_idle_witness :
  let cv := Canvas 160 160 in
  anchors_coincide cv /\
  GameJs.updateCar cv initial_game = Ret (with_path (Some [Some origin_node]) initial_game) /\
  Classes.updateCar cv initial_game = Ret (with_path (Some [Some origin_node]) initial_game).
Proof.
  intros cv.
  assert (Hc : anchors_coincide cv) by reflexivity.
  split; [exact Hc|].
  exact (proj2 (proj2 (C1_single_node_path_idle cv initial_game Hc eq_refl))).
Defined.

(** C1 as stated fails: with coincident anchors and no road the score is
    still 0 after the frame, in both scripts. *)
Lemma C1_counterexample :
  let cv := Canvas 160 160 in
  anchors_coincide cv /\ roads initial_game = [] /\
  (exists g', GameJs.updateCar cv initial_game = Ret g' /\
              score g' <> S (score initial_game)) /\
  (exists g', Classes.updateCar cv initial_game = Ret g' /\
              score g' <> S (score initial_game)).
Proof.
  intros cv. split; [reflexivity|]. split; [reflexivity|].
  split; eexists; (split; [vm_compute; reflexivity|]); simpl; lia.
Qed.

(** * One road from the origin to the destination *)

Lemma gj_direct_path cv r :
  near origin_node (fst (dest cv)) (snd (dest cv)) = false ->
  joins_anchors cv r ->
  exists gr, GameJs.buildGraph cv [r] = Ret gr /\
             GameJs.findPath gr = Ret (Some (direct_path cv)).
Proof.
  intros Hd Hr. unfold GameJs.buildGraph, GameJs.getOrCreateNode. simpl.
  unfold joins_anchors, origin_node, dest_node in *. simpl in *. rewrite Hd. simpl.
  unfold GameJs.addRoad, GameJs.getOrCreateNode. simpl.
  destruct Hr as [(H1 & H2 & H3)|(H1 & H2 & H3)]; rewrite H1; simpl.
  - rewrite H2, H3. simpl. eexists. split; reflexivity.
  - rewrite H2. simpl. rewrite H3. simpl. eexists. split; reflexivity.
Qed.

Lemma cl_direct_path cv r :
  near origin_node (fst (dest cv)) (snd (dest cv)) = false ->
  joins_anchors cv r ->
  Classes.findPath (Classes.buildGraph cv [r]) = Ret (Some (direct_path cv)).
Proof.
  intros Hd Hr. unfold Classes.buildGraph, Classes.getOrCreateNode. simpl.
  unfold joins_anchors, origin_node, dest_node in *. simpl in *. rewrite Hd. simpl.
  unfold Classes.addRoad, Classes.getOrCreateNode. simpl.
  destruct Hr as [(H1 & H2 & H3)|(H1 & H2 & H3)]; rewrite H1; simpl.
  - rewrite H2, H3. simpl. reflexivity.
  - rewrite H2. simpl. rewrite H3. simpl. reflexivity.
Qed.

Section DirectRoad.
Variable cv : canvas.
Variable r : road.
Hypothesis Hapart : near origin_node (fst (dest cv)) (snd (dest cv)) = false.
Hypothesis Hjoin : joins_anchors cv r.

Lemma moveCar_direct g :
  segIndex (the_car g) = 0 ->
  GameJs.moveCar (with_path (Some (direct_path cv)) g) = Ret (direct_frame cv g).
Proof.
  intros Hi. unfold GameJs.moveCar, direct_frame, with_path. simpl.
  rewrite Hi. unfold direct_length, direct_dx, direct_dy, en_route, arrived,
    interpolate, resetCar. simpl. rewrite Hi.
  by destruct (geb _ _).
Qed.

Lemma Car_update_direct g :
  segIndex (the_car g) = 0 ->
  Classes.Car_update (with_path (Some (direct_path cv)) g) = Ret (direct_frame cv g).
Proof.
  intros Hi. unfold Classes.Car_update, direct_frame, with_path. simpl.
  rewrite Hi. unfold direct_length, direct_dx, direct_dy, en_route, arrived,
    interpolate, resetCar. simpl. rewrite Hi.
  by destruct (geb _ _).
Qed.

Lemma gj_updateCar_direct g :
  roads g = [r] -> segIndex (the_car g) = 0 ->
  GameJs.updateCar cv g = Ret (direct_frame cv g).
Proof.
  intros Hr Hi. unfold GameJs.updateCar. rewrite Hr.
  destruct (gj_direct_path cv r Hapart Hjoin) as (gr & -> & Hp). simpl.
  rewrite Hp. simpl. rewrite <- Hr. by apply moveCar_direct.
Qed.

Lemma cl_updateCar_direct g :
  roads g = [r] -> segIndex (the_car g) = 0 ->
  Classes.updateCar cv g = Ret (direct_frame cv g).
Proof.
  intros Hr Hi. unfold Classes.updateCar. rewrite Hr.
  rewrite (cl_direct_path cv r Hapart Hjoin). simpl.
  unfold Classes.stale_index. simpl. rewrite Hi. simpl.
  rewrite <- Hr. rewrite <- (Car_update_direct g Hi). unfold with_path.
  by destruct g as [sc rs [cx cy s p i pr]].
Qed.

(** Frames on the direct path, as long as the progress stays below 1. *)
Lemma run_direct upd :
  (forall g, roads g = [r] -> segIndex (the_car g) = 0 -> upd g = Ret (direct_frame cv g)) ->
  forall k g, roads g = [r] -> segIndex (the_car g) = 0 ->
  let step := (speed (the_car g) / direct_length cv)%float in
  no_arrival (progress (the_car g)) step k = true ->
  run_with upd (frames (S k)) g =
  Ret (if geb (accumulate (progress (the_car g)) step (S k)) 1%float
       then Game (S (score g)) (roads g) (arrived cv (speed (the_car g)))
       else Game (score g) (roads g)
              (en_route cv (speed (the_car g))
                 (accumulate (progress (the_car g)) step (S k)))).
Proof.
  intros Hupd. induction k as [|k IH]; intros g Hr Hi step Hno.
  - change (frames 1) with [Frame]. rewrite run_with_frame, (Hupd g Hr Hi).
    unfold direct_frame. simpl. fold step. by destruct (geb _ _).
  - change (frames (S (S k))) with (Frame :: frames (S k)).
    rewrite run_with_frame, (Hupd g Hr Hi).
    simpl in Hno. fold step in Hno. apply andb_prop in Hno as [H1 Hno].
    apply negb_true_iff in H1.
    unfold direct_frame. fold step. rewrite H1. simpl mbind.
    rewrite IH; [|done|done|done]. done.
Qed.

End DirectRoad.

(** ** The running sum of the steps *)

Lemma accumulate_S p s k : accumulate p s (S k) = (accumulate p s k + s)%float.
Proof. revert p. induction k as [|k IH]; intros p; [done|]. simpl in *. by rewrite IH. Qed.

Lemma no_arrival_S p s k :
  no_arrival p s (S k) = no_arrival p s k && negb (geb (accumulate p s (S k)) 1).
Proof.
  revert p. induction k as [|k IH]; intros p.
  - simpl. by rewrite andb_true_r.
  - change (no_arrival p s (S (S k))) with
      (negb (geb (p + s) 1) && no_arrival (p + s) s (S k)).
    rewrite IH. simpl. by rewrite andb_assoc.
Qed.

Lemma bpow_m53 : bpow (-53) = (/ 9007199254740992)%R.
Proof.
  change (-53)%Z with (Z.opp 53). rewrite bpow_opp, <- IZR_pow2 by done. reflexivity.
Qed.

Lemma bpow_m54 : bpow (-54) = (/ 18014398509481984)%R.
Proof.
  change (-54)%Z with (Z.opp 54). rewrite bpow_opp, <- IZR_pow2 by done. reflexivity.
Qed.

Section Arrival.
Variable q : float.
Variable x : R.
Hypothesis Hq : nonneg_finite q.
Hypothesis Hx : (4 <= x <= 1048576)%R.
Hypothesis HQ : (Rabs (B2R q - / x) <= bpow (-54))%R.

Lemma step_bounds :
  (/ x - / 18014398509481984 <= B2R q <= / x + / 18014398509481984)%R /\
  (/ 1048576 <= / x <= / 4)%R /\ (x * / x = 1)%R.
Proof.
  rewrite bpow_m54 in HQ. apply Rabs_le_inv in HQ.
  split; [lra|]. split; [|apply Rinv_r; lra].
  split; apply Rinv_le_contravar; lra.
Qed.

(** As long as the car has not arrived, the sum is below 1 and off the
    exact multiple of the step by at most [2 ^ -53] for each addition. *)
Lemma accumulate_inv k : no_arrival 0 q k = true ->
  nonneg_finite (accumulate 0 q k) /\
  (B2R (accumulate 0 q k) < 1)%R /\
  (Rabs (B2R (accumulate 0 q k) - INR k * B2R q) <= INR k * bpow (-53))%R.
Proof.
  destruct step_bounds as (HQ' & Hx' & _).
  induction k as [|k IH].
  - intros _. split; [apply nonneg_finite_zero|]. simpl. rewrite B2R_zero.
    split; [lra|]. rewrite Rmult_0_l, Rminus_diag, Rabs_R0. lra.
  - rewrite no_arrival_S. intros [Hk Hno]%andb_prop.
    destruct (IH Hk) as (Hf & Hlt & Herr). apply negb_true_iff in Hno.
    rewrite accumulate_S in *.
    pose proof (B2R_nonneg _ Hf) as H0.
    destruct (add_R (accumulate 0 q k) q Hf Hq) as (Hf' & Hsmall & Hbig); [lra|].
    pose proof (geb_one_R _ Hf') as H1. rewrite Hno in H1.
    split; [done|]. split; [done|].
    assert (HS : (B2R (accumulate 0 q k) + B2R q < 1)%R).
    { destruct (Rlt_le_dec (B2R (accumulate 0 q k) + B2R q) 1) as [|Hge]; [done|].
      specialize (Hbig Hge). lra. }
    specialize (Hsmall HS). rewrite S_INR.
    apply Rabs_le_inv in Herr, Hsmall. apply Rabs_le. lra.
Qed.

(** The car arrives: some frame brings the sum to 1. *)
Lemma arrival_or_not k :
  no_arrival 0 q k = true \/
  exists N, 0 < N <= k /\ no_arrival 0 q (pred N) = true /\
            geb (accumulate 0 q N) 1 = true.
Proof.
  induction k as [|k [IH|(N & HN & IH)]].
  - by left.
  - destruct (geb (accumulate 0 q (S k)) 1) eqn:E.
    + right. exists (S k). split; [lia|]. by split.
    + left. rewrite no_arrival_S, IH, E. done.
  - right. exists N. split; [lia|done].
Qed.

Lemma arrival_bounds (n : Z) : (IZR n - 1 < x <= IZR n)%R ->
  exists N, (n - 1 <= Z.of_nat N <= n + 1)%Z /\ 0 < N /\
    no_arrival 0 q (pred N) = true /\ geb (accumulate 0 q N) 1 = true.
Proof.
  intros Hn. destruct step_bounds as (HQ' & Hx' & Hxx).
  assert (Hn0 : (0 <= n)%Z).
  { apply le_IZR. lra. }
  destruct (arrival_or_not (Z.to_nat (n + 1))) as [Hno|(N & HN & Hno & Harr)].
  - (* too late: the sum would have passed 1 *)
    exfalso. destruct (accumulate_inv _ Hno) as (_ & Hlt & Herr).
    rewrite INR_IZR_INZ, Z2Nat.id, plus_IZR in Herr by lia.
    rewrite bpow_m53 in Herr. apply Rabs_le_inv in Herr.
    set (Q := B2R q) in *. set (y := (/ x)%R) in *.
    assert (H1 : (1 <= (x + 1) * (y - 3 * / 18014398509481984))%R) by nra.
    assert (H2 : ((x + 1) * (y - 3 * / 18014398509481984) <=
                  (IZR n + 1) * (Q - / 9007199254740992))%R).
    { apply Rmult_le_compat; lra. }
    lra.
  - exists N. split; [|split; [lia|by split]]. split; [|lia].
    (* too early: the sum cannot have reached 1 *)
    destruct N as [|k]; [lia|]. simpl in Hno.
    destruct (accumulate_inv _ Hno) as (Hf & Hlt & Herr).
    rewrite accumulate_S in Harr.
    pose proof (B2R_nonneg _ Hf) as H0.
    destruct (add_R (accumulate 0 q k) q Hf Hq) as (Hf' & Hsmall & Hbig); [lra|].
    pose proof (geb_one_R _ Hf') as H1. rewrite Harr in H1.
    rewrite bpow_m53 in *. apply Rabs_le_inv in Herr.
    set (Q := B2R q) in *. set (y := (/ x)%R) in *. set (a := B2R (accumulate 0 q k)) in *.
    assert (HS : (1 - / 9007199254740992 <= a + Q)%R).
    { destruct (Rlt_le_dec (a + Q) 1) as [Hl|Hge]; [|lra].
      specialize (Hsmall Hl). apply Rabs_le_inv in Hsmall. lra. }
    assert (Hk : (x - 1 < INR (S k))%R).
    { rewrite S_INR. pose proof (pos_INR k) as Hk0.
      assert (H2 : (1 <= (INR k + 1) * (y + 3 * / 18014398509481984))%R) by nra.
      assert (H3 : ((x - 1) * (y + 3 * / 18014398509481984) < 1)%R) by nra.
      destruct (Rlt_le_dec (x - 1) (INR k + 1)) as [|Hle]; [done|exfalso].
      assert (((INR k + 1) * (y + 3 * / 18014398509481984) <=
               (x - 1) * (y + 3 * / 18014398509481984))%R).
      { apply Rmult_le_compat_r; lra. }
      lra. }
    rewrite INR_IZR_INZ in Hk.
    assert (IZR (n - 2) < IZR (Z.of_nat (S k)))%R as Hlt'%lt_IZR; [|lia].
    rewrite minus_IZR. lra.
Qed.

End Arrival.

(** ** The frame of the arrival *)

Lemma no_arrival_le p s k j :
  j <= k -> no_arrival p s k = true -> no_arrival p s j = true.
Proof.
  induction 1 as [|k Hle IH]; [done|].
  rewrite no_arrival_S. by intros [H _]%andb_prop; apply IH.
Qed.

(** The value of a positive number, with the mantissa and the exponent
    that it has. *)
Lemma B2R_finite x m e :
  Prim2SF x = S754_finite false m e -> (e < 0)%Z ->
  B2R x = (IZR (Zpos m) / IZR (2 ^ (- e)))%R.
Proof.
  intros Hx He. unfold B2R. rewrite Hx. unfold SF2R.
  rewrite IZR_pow2 by lia. unfold Rdiv. by rewrite <- bpow_opp, Z.opp_involutive.
Qed.

Lemma B2R_threshold : B2R SNAP_THRESHOLD = 10%R.
Proof.
  rewrite (B2R_finite SNAP_THRESHOLD 5629499534213120 (-49)) by reflexivity.
  change (2 ^ (- (-49)))%Z with 562949953421312%Z. lra.
Qed.

Lemma B2R_2097152 : B2R 2097152 = 2097152%R.
Proof.
  rewrite (B2R_finite 2097152 4503599627370496 (-31)) by reflexivity.
  change (2 ^ (- (-31)))%Z with 2147483648%Z. lra.
Qed.

(** The direct segment between anchors that do not merge is 10 long or
    longer. *)
Lemma direct_length_bounds cv :
  near origin_node (fst (dest cv)) (snd (dest cv)) = false ->
  (direct_length cv <=? 2097152)%float = true ->
  nonneg_finite (direct_length cv) /\
  (10 <= B2R (direct_length cv) <= 2097152)%R.
Proof.
  intros Hfar Hle.
  assert (H10 : (SNAP_THRESHOLD <=? direct_length cv)%float = true).
  { unfold near, origin_node in Hfar. cbn [node_x node_y] in Hfar.
    rewrite hypot_swap in Hfar.
    fold (direct_dx cv) (direct_dy cv) in Hfar. fold (direct_length cv) in Hfar.
    rewrite ltb_spec in Hfar. rewrite leb_spec in *.
    apply SFltb_false_SFleb; [|done|done].
    unfold SFleb in Hle. by destruct (Prim2SF (direct_length cv)). }
  assert (Hf : nonneg_finite (direct_length cv)).
  { by apply (between_nonneg_finite SNAP_THRESHOLD _ 2097152). }
  split; [done|].
  pose proof (leb_R SNAP_THRESHOLD (direct_length cv) ltac:(by split) Hf) as H1.
  pose proof (leb_R (direct_length cv) 2097152 Hf ltac:(by split)) as H2.
  rewrite H10, B2R_threshold in H1. rewrite Hle, B2R_2097152 in H2. lra.
Qed.

(** C6, amended.  With one road joining the anchors, a segment length [L]
    (as the car computes it) of at most 2097152 and the speed [s = 2] of
    the script, the car arrives: some frame [N] puts the score one higher
    and the car back at the origin, and [N] is [ceil (L / s)], one less or
    one more.  After every frame [k] before that the car stands at
    origin + (destination - origin) * sum, in binary64 arithmetic, where
    the sum of [k] rounded additions of the rounded [s / L] is off
    [k * s / L] by at most [k / 2 ^ 52]. *)
Theorem C6_direct_road_frames (cv : canvas) (r : road) (g : game) (n : Z) :
  near origin_node (fst (dest cv)) (snd (dest cv)) = false ->
  joins_anchors cv r ->
  roads g = [r] ->
  segIndex (the_car g) = 0 ->
  progress (the_car g) = 0%float ->
  speed (the_car g) = 2%float ->
  (direct_length cv <=? 2097152)%float = true ->
  (IZR n - 1 < B2R (direct_length cv) / B2R (speed (the_car g)) <= IZR n)%R ->
  forall upd, upd = GameJs.updateCar cv \/ upd = Classes.updateCar cv ->
  exists N : nat,
    (n - 1 <= Z.of_nat N <= n + 1)%Z /\
    run_with upd (frames N) g =
      Ret (Game (S (score g)) (roads g) (arrived cv (speed (the_car g)))) /\
    forall k, 0 < k < N ->
      let sum := accumulate 0 (speed (the_car g) / direct_length cv) k in
      run_with upd (frames k) g =
        Ret (Game (score g) (roads g) (en_route cv (speed (the_car g)) sum)) /\
      (Rabs (B2R sum - INR k * B2R (speed (the_car g)) / B2R (direct_length cv))
       <= INR k / 2 ^ 52)%R.
Proof.
  intros Hfar Hjoin Hr Hi Hp Hsp Hle Hn upd Hupd.
  destruct (direct_length_bounds cv Hfar Hle) as [HL [HL1 HL2]].
  assert (Hrun : forall k, no_arrival 0 (2 / direct_length cv) k = true ->
    run_with upd (frames (S k)) g =
    Ret (if geb (accumulate 0 (2 / direct_length cv) (S k)) 1
         then Game (S (score g)) (roads g) (arrived cv 2)
         else Game (score g) (roads g)
                (en_route cv 2 (accumulate 0 (2 / direct_length cv) (S k))))).
  { intros k Hk. rewrite <- Hp, <- Hsp in *. apply (run_direct cv r); try done.
    destruct Hupd as [-> | ->]; intros g0 H1 H2;
      [by apply (gj_updateCar_direct cv r)|by apply (cl_updateCar_direct cv r)]. }
  rewrite Hsp, B2R_two in *.
  destruct (step_R (direct_length cv) HL ltac:(lra)) as [Hq HQ].
  set (q := (2 / direct_length cv)%float) in *.
  set (x := (B2R (direct_length cv) / 2)%R) in *.
  assert (Hx : (4 <= x <= 1048576)%R) by (unfold x; lra).
  assert (Ex : (2 / B2R (direct_length cv) = / x)%R) by (unfold x; field; lra).
  rewrite Ex in HQ.
  destruct (arrival_bounds q x Hq Hx HQ n Hn) as (N & HN & HN0 & Hno & Harr).
  exists N. split; [done|]. split.
  - destruct N as [|k]; [lia|]. simpl in Hno. by rewrite (Hrun k Hno), Harr.
  - intros k Hk sum.
    assert (Hnok : no_arrival 0 q k = true) by (apply (no_arrival_le _ _ (pred N)); [lia|done]).
    destruct k as [|k]; [lia|]. pose proof Hnok as Hnok'.
    rewrite no_arrival_S in Hnok'. apply andb_prop in Hnok' as [Hk1 Hk2].
    apply negb_true_iff in Hk2. split; [by rewrite (Hrun k Hk1), Hk2|].
    destruct (accumulate_inv q x Hq Hx HQ (S k) Hnok) as (_ & _ & Herr).
    fold sum in Herr. rewrite bpow_m53 in Herr. rewrite bpow_m54 in HQ.
    apply Rabs_le_inv in Herr, HQ.
    replace (INR (S k) * 2 / B2R (direct_length cv))%R with (INR (S k) * / x)%R
      by (unfold x; field; lra).
    replace (2 ^ 52)%R with 4503599627370496%R by (simpl; lra).
    pose proof (pos_INR (S k)) as Hk0.
    apply Rabs_le. split; nra.
Qed.

Lemma C6_direct_road_frames_witness :
  let cv := Canvas 180 160 in
  let g := mouseup (80, 80)%float (100, 80)%float initial_game in
  exists N : nat, (9 <= Z.of_nat N <= 11)%Z /\
    run_with (GameJs.updateCar cv) (frames N) g = Ret (Game 1 (roads g) (arrived cv 2)).
Proof.
  intros cv g.
  assert (Hn : (IZR 10 - 1 < B2R (direct_length cv) / B2R (speed (the_car g)) <= IZR 10)%R).
  { change (direct_length cv) with 20%float. change (speed (the_car g)) with 2%float.
    rewrite B2R_two, (B2R_finite 20 5629499534213120 (-48)) by reflexivity.
    change (2 ^ (- (-48)))%Z with 281474976710656%Z. lra. }
  destruct (C6_direct_road_frames cv (Road 80 80 100 80) g 10
              eq_refl (or_introl (conj eq_refl (conj eq_refl eq_refl)))
              eq_refl eq_refl eq_refl eq_refl eq_refl Hn
              (GameJs.updateCar cv) (or_introl eq_refl)) as (N & HN & Hrun & _).
  exists N. split; [exact HN|exact Hrun].
Defined.

(** C6 as stated fails for [L = 20] and [s = 2]: ten frames, which is
    [L / s], leave the car on the road with the score at 0, because ten
    rounded additions of [0.1] make [0x1.fffffffffffffp-1], the number just
    below 1; the car arrives with the eleventh frame. *)
Lemma C6_counterexample :
  let cv := Canvas 180 160 in
  let g := mouseup (80, 80)%float (100, 80)%float initial_game in
  roads g = [Road 80 80 100 80] /\
  direct_length cv = 20%float /\ speed (the_car g) = 2%float /\
  (forall upd, upd = GameJs.updateCar cv \/ upd = Classes.updateCar cv ->
     (exists g10, run_with upd (frames 10) g = Ret g10 /\ score g10 = 0 /\
        progress (the_car g10) = 0x1.fffffffffffffp-1%float) /\
     (exists g11, run_with upd (frames 11) g = Ret g11 /\ score g11 = 1)).
Proof.
  intros cv g. split; [reflexivity|]. split; [reflexivity|]. split; [reflexivity|].
  intros upd [-> | ->]; split; eexists; (split; [vm_compute; reflexivity|]);
    try (split; reflexivity); reflexivity.
Qed.

(** The arrival can also come one frame before [ceil (L / s)].  On a
    canvas of 230 by 400 the anchors are 70 and 240 apart along the axes,
    250 in all, and [Math.hypot] makes that [0x1.f400000000001p+7], the
    number just above 250: [L / s] is more than 125, and the car arrives
    with frame 125. *)
Lemma C6_one_frame_early :
  let cv := Canvas 230 400 in
  let g := mouseup (80, 80)%float (150, 320)%float initial_game in
  direct_length cv = 0x1.f400000000001p+7%float /\
  (125 < B2R (direct_length cv) / B2R (speed (the_car g)))%R /\
  (forall upd, upd = GameJs.updateCar cv \/ upd = Classes.updateCar cv ->
     (exists g124, run_with upd (frames 124) g = Ret g124 /\ score g124 = 0) /\
     (exists g125, run_with upd (frames 125) g = Ret g125 /\ score g125 = 1)).
Proof.
  intros cv g. split; [vm_compute; reflexivity|]. split.
  - change (direct_length cv) with 0x1.f400000000001p+7%float.
    change (speed (the_car g)) with 2%float.
    rewrite B2R_two, (B2R_finite _ 8796093022208001 (-45)) by reflexivity.
    change (2 ^ (- (-45)))%Z with 35184372088832%Z. lra.
  - intros upd [-> | ->]; split; eexists; (split; [vm_compute; reflexivity|]);
      reflexivity.
Qed.

(** * A segment of length zero *)

(** C3.  When the segment from [path[segIndex]] to [path[segIndex + 1]]
    has length zero and the car's progress is not negative, the division
    gives [+infinity], the test [progress >= 1] succeeds and the segment
    is complete at once: progress is back to 0, and the car either has
    arrived (score one higher, car at the origin) or stands on the next
    segment's first node.  Its position is finite either way. *)
Theorem C3_zero_length_segment (g : game) (p : path_t) (curr next : node) :
  path (the_car g) = Some p ->
  1 < length p ->
  at_index p (segIndex (the_car g)) = Some curr ->
  at_index p (segIndex (the_car g) + 1) = Some next ->
  (hypot (node_x next - node_x curr) (node_y next - node_y curr) =? 0)%float = true ->
  speed (the_car g) = 2%float ->
  (0 <=? progress (the_car g))%float = true ->
  exists g', GameJs.moveCar g = Ret g' /\ Classes.Car_update g = Ret g' /\
    progress (the_car g') = 0%float /\
    is_finite (car_x (the_car g')) = true /\
    is_finite (car_y (the_car g')) = true /\
    if length p - 1 <=? S (segIndex (the_car g))
    then score g' = S (score g) /\ segIndex (the_car g') = 0 /\
         car_x (the_car g') = fst start /\ car_y (the_car g') = snd start
    else score g' = score g /\ segIndex (the_car g') = S (segIndex (the_car g)) /\
         (car_x (the_car g') =? node_x curr)%float = true /\
         (car_y (the_car g') =? node_y curr)%float = true.
Proof.
  intros Hp Hlen Hc Hn Hz Hs Hpr.
  destruct (hypot_zero _ _ Hz) as (Hh & Hdx & Hdy).
  destruct (sub_is_finite _ _ Hdx) as [_ Hcx], (sub_is_finite _ _ Hdy) as [_ Hcy].
  destruct (add_mul_zero _ _ Hcx Hdx) as [Hex Hfx].
  destruct (add_mul_zero _ _ Hcy Hdy) as [Hey Hfy].
  assert (Hgeb : geb (progress (the_car g) + speed (the_car g) /
                  hypot (node_x next - node_x curr) (node_y next - node_y curr)) 1 = true).
  { rewrite Hh, Hs. change (2 / 0)%float with infinity.
    by rewrite (add_infinity _ Hpr). }
  apply Nat.ltb_lt in Hlen.
  unfold GameJs.moveCar, Classes.Car_update.
  rewrite Hp, Hlen, Hc, Hn. simpl. rewrite Hgeb.
  destruct (length p - 1 <=? S (segIndex (the_car g))); eexists; repeat split; try done.
Qed.

Lemma C3_zero_length_segment_witness :
  let n := Node 0 80 80 in
  let g := Game 0 [] (Car 80 80 2 (Some [Some n; Some n; Some (Node 1 110 80)]) 0 0) in
  exists g', GameJs.moveCar g = Ret g' /\ score g' = 0 /\
    segIndex (the_car g') = 1 /\ car_x (the_car g') = 80%float.
Proof.
  intros n g.
  destruct (C3_zero_length_segment g [Some n; Some n; Some (Node 1 110 80)] n n
              eq_refl ltac:(simpl; lia) eq_refl eq_refl eq_refl eq_refl eq_refl)
    as (g' & Hg' & _).
  exists g'. split; [exact Hg'|].
  vm_compute in Hg'. injection Hg' as <-. repeat split.
Defined.

(** * A path that got shorter under the car *)

(** C2 says that a segment index left over from a longer path is brought
    back into range before the path is indexed.  It is not: after the run
    [detour_then_shortcut] the car's segment index is 1, and the next
    frame finds the two-node path over the new road, so
    [path[segIndex + 1]] is [path[2]], which is [undefined].  The guard of
    the class-based script compares the index with [path.length], not with
    [path.length - 1], and lets it through; [game.js] has no guard.  Both
    scripts throw a [TypeError]. *)
Theorem C2_stale_index_throws :
  run_with (GameJs.updateCar detour_canvas) detour_then_shortcut initial_game
    = Ret after_shortcut /\
  run_with (Classes.updateCar detour_canvas) detour_then_shortcut initial_game
    = Ret after_shortcut /\
  Classes.findPath (Classes.buildGraph detour_canvas (roads after_shortcut))
    = Ret (Some (direct_path detour_canvas)) /\
  length (direct_path detour_canvas) = 2 /\
  segIndex (the_car after_shortcut) = 1 /\
  Classes.stale_index
    (set_path (Some (direct_path detour_canvas)) (the_car after_shortcut)) = false /\
  at_index (direct_path detour_canvas) (segIndex (the_car after_shortcut) + 1) = None /\
  GameJs.updateCar detour_canvas after_shortcut = Throw /\
  Classes.updateCar detour_canvas after_shortcut = Throw.
Proof. repeat split; vm_compute; reflexivity. Qed.

(** * Distinct nodes are a threshold apart *)

Lemma spread_nil : spread [].
Proof. split; [by intros i j a b _ ?|constructor]. Qed.

Lemma spread_getOrCreateNode x y ns :
  is_finite x = true -> is_finite y = true ->
  spread ns -> spread (Classes.getOrCreateNode x y ns).2.
Proof.
  intros Hx Hy [Hsp Hfin]. unfold Classes.getOrCreateNode.
  destruct (List.find _ ns) as [n|] eqn:E; simpl; [done|].
  split.
  - intros i j a b Hij Ha Hb.
    destruct (decide (j < length ns)) as [Hj|Hj].
    + rewrite lookup_app_l in Ha by lia. rewrite lookup_app_l in Hb by lia. eauto.
    + assert (j = length ns) as ->.
      { apply lookup_lt_Some in Hb. rewrite length_app in Hb. simpl in Hb. lia. }
      rewrite lookup_app_l in Ha by lia.
      rewrite lookup_app_r, Nat.sub_diag in Hb by lia. injection Hb as <-. simpl.
      apply (find_none _ _ E a). apply list_elem_of_In, list_elem_of_lookup. eauto.
  - apply Forall_app. split; [done|]. constructor; [|constructor].
    unfold finite_node. simpl. by rewrite Hx, Hy.
Qed.

Lemma spread_addRoad st r :
  finite_road r = true -> spread st.1 -> spread (Classes.addRoad st r).1.
Proof.
  unfold finite_road. intros [[[H1 H2]%andb_prop H3]%andb_prop H4]%andb_prop Hsp.
  unfold Classes.addRoad.
  pose proof (spread_getOrCreateNode (x1 r) (y1 r) st.1 H1 H2 Hsp) as HA.
  destruct (Classes.getOrCreateNode (x1 r) (y1 r) st.1) as [nodeA ns1]. simpl in HA.
  pose proof (spread_getOrCreateNode (x2 r) (y2 r) ns1 H3 H4 HA) as HB.
  by destruct (Classes.getOrCreateNode (x2 r) (y2 r) ns1) as [nodeB ns2].
Qed.

Lemma spread_fold rs : forall st,
  forallb finite_road rs = true -> spread st.1 ->
  spread (fold_left Classes.addRoad rs st).1.
Proof.
  induction rs as [|r rs IH]; intros st Hf Hsp; simpl; [done|].
  simpl in Hf. apply andb_prop in Hf as [Hr Hf].
  apply IH; [done|]. by apply spread_addRoad.
Qed.

Lemma spread_buildGraph cv rs :
  finite_canvas cv = true -> forallb finite_road rs = true ->
  spread (nodes (Classes.buildGraph cv rs)).
Proof.
  unfold finite_canvas. intros [Hx Hy]%andb_prop Hrs. unfold Classes.buildGraph.
  pose proof (spread_getOrCreateNode (fst start) (snd start) [] eq_refl eq_refl spread_nil) as H1.
  destruct (Classes.getOrCreateNode (fst start) (snd start) []) as [sN ns1]. simpl in H1.
  pose proof (spread_getOrCreateNode _ _ ns1 Hx Hy H1) as H2.
  destruct (Classes.getOrCreateNode _ _ ns1) as [dN ns2]. simpl in *.
  by apply (spread_fold rs (ns2, ∅)).
Qed.

Lemma spread_apart ns : spread ns -> apart ns.
Proof.
  intros [Hsp Hfin] i j a b Hij Ha Hb.
  assert (Hfa : finite_node a = true).
  { eapply Forall_forall in Hfin; [done|]. apply list_elem_of_lookup; eauto. }
  assert (Hfb : finite_node b = true).
  { eapply Forall_forall in Hfin; [done|]. apply list_elem_of_lookup; eauto. }
  apply andb_prop in Hfa as [Hax Hay], Hfb as [Hbx Hby].
  apply far_apart; try done.
  destruct (decide (i < j)) as [Hlt|Hge].
  - apply (Hsp i j a b Hlt Ha Hb).
  - rewrite hypot_swap. apply (Hsp j i b a ltac:(lia) Hb Ha).
Qed.

Lemma leb_threshold_nonzero h :
  (SNAP_THRESHOLD <=? h)%float = true -> (h =? 0)%float = false.
Proof.
  rewrite leb_spec, FloatAxioms.eqb_spec.
  set (t := Prim2SF SNAP_THRESHOLD). vm_compute in t. subst t.
  change (Prim2SF 0) with (S754_zero false).
  by destruct (Prim2SF h) as [[]|[]| |[] m e].
Qed.

(** Along a shortest walk no node comes twice in a row. *)
Lemma shortest_no_repeat nbrs s t ids i x :
  walk_to nbrs s ids t ->
  (forall l, walk_to nbrs s l t -> length ids <= length l) ->
  ids !! i = Some x -> ids !! S i = Some x -> False.
Proof.
  intros Hw Hmin Hi HSi.
  assert (E : ids = take i ids ++ [x; x] ++ drop (S (S i)) ids).
  { rewrite <- (take_drop_middle ids i x Hi) at 1. f_equal. simpl. f_equal.
    rewrite <- (take_drop_middle (drop (S i) ids) 0 x).
    - simpl. by rewrite drop_drop, Nat.add_1_r.
    - rewrite lookup_drop. by rewrite Nat.add_0_r. }
  rewrite E in Hw. apply walk_skip_repeat, Hmin in Hw.
  rewrite E in Hw at 1. rewrite !length_app in Hw. simpl in Hw. lia.
Qed.

Lemma path_spec_segments nbrs ns s t p :
  ids_ok ns -> spread ns ->
  path_spec nbrs ns s t (Some p) -> segments_nonzero p.
Proof.
  intros Hids Hsp (ids & -> & Hr & Hw & Hmin) i a b Ha Hb.
  unfold at_index in Ha, Hb. rewrite list_lookup_fmap in Ha, Hb.
  destruct (ids !! i) as [ia|] eqn:Ei; [|done].
  destruct (ids !! S i) as [ib|] eqn:Eb; [|done].
  simpl in Ha, Hb.
  pose proof (Hids _ _ Ha) as Hia. pose proof (Hids _ _ Hb) as Hib.
  assert (Hne : ia <> ib).
  { intros <-. by eapply (shortest_no_repeat nbrs s t ids i ia). }
  pose proof (spread_apart ns Hsp ib ia b a ltac:(done) Hb Ha) as Hfar.
  split; [congruence|]. split; [|split; [done|by apply leb_threshold_nonzero]].
  intros [= Hx Hy]. rewrite Hx, Hy in Hfar.
  destruct Hsp as [_ Hfin].
  assert (Hfb : finite_node b = true).
  { eapply Forall_forall in Hfin; [done|]. apply list_elem_of_lookup; eauto. }
  apply andb_prop in Hfb as [Hbx Hby].
  by rewrite !sub_diag_finite in Hfar.
Qed.

(** C10.  For a canvas and roads with finite coordinates, any two distinct
    nodes of the graph are at least the snap threshold (10) apart; so the
    consecutive nodes of a path that [findPath] returns are different
    nodes at different positions, and no segment of it has length zero. *)
Theorem C10_nodes_apart (cv : canvas) (rs : list road) :
  finite_canvas cv = true ->
  forallb finite_road rs = true ->
  (exists g, GameJs.buildGraph cv rs = Ret g /\ apart (nodes g) /\
     forall p, GameJs.findPath g = Ret (Some p) -> segments_nonzero p) /\
  (apart (nodes (Classes.buildGraph cv rs)) /\
     forall p, Classes.findPath (Classes.buildGraph cv rs) = Ret (Some p) ->
       segments_nonzero p).
Proof.
  intros Hcv Hrs.
  pose proof (spread_buildGraph cv rs Hcv Hrs) as Hsp.
  split.
  - destruct (GameJsSearch.gj_findPath_shortest cv rs) as (g & Hg & r & Hr & Hspec & _).
    destruct (buildGraph_same cv rs) as (g' & Hg' & Hsame).
    assert (g' = g) as -> by congruence.
    destruct Hsame as (Hn & _).
    destruct (GameJsFacts.gj_buildGraph_good cv rs) as (g' & Hg'' & [Hwf _] & _).
    assert (g' = g) as -> by congruence.
    exists g. split; [done|]. rewrite Hn. split; [by apply spread_apart|].
    intros p Hp. rewrite Hr in Hp. injection Hp as ->.
    eapply path_spec_segments; [| |exact Hspec]; [apply Hwf|by rewrite Hn].
  - split; [by apply spread_apart|].
    destruct (ClassesSearch.cl_findPath_shortest cv rs) as (r & Hr & Hspec & _).
    destruct (ClassesFacts.cl_buildGraph_good cv rs) as ([Hwf _] & _).
    intros p Hp. rewrite Hr in Hp. injection Hp as ->.
    eapply path_spec_segments; [| |exact Hspec]; [apply Hwf|done].
Qed.

Lemma C10_nodes_apart_witness :
  let cv := Canvas 190 160 in
  let rs := [Road 80 80 95 100; Road 95 100 110 80; Road 84 83 95 100] in
  finite_canvas cv = true /\ forallb finite_road rs = true /\
  length (nodes (Classes.buildGraph cv rs)) = 3 /\
  apart (nodes (Classes.buildGraph cv rs)) /\
  segments_nonzero
    [Some (Node 0 80 80); Some (Node 2 95 100); Some (Node 1 110 80)].
Proof.
  intros cv rs.
  destruct (C10_nodes_apart cv rs eq_refl eq_refl) as [_ [Hap Hseg]].
  split; [reflexivity|]. split; [reflexivity|]. split; [reflexivity|].
  split; [exact Hap|]. apply Hseg. vm_compute. reflexivity.
Defined.

(** * Further properties of the code

    What follows goes beyond the statements above: more of what the two
    scripts do when they merge points, build the graph, search it, move
    the car, listen to the mouse and draw.  The statement about the
    entries of the adjacency mapping is here as well, for it rests on what
    the builder does road by road. *)

(** ** Merging a point into the node list *)

Lemma near_self_finite k x y :
  near (Node k x y) x y = is_finite x && is_finite y.
Proof.
  destruct (is_finite x) eqn:Hx, (is_finite y) eqn:Hy; simpl;
    try (by apply near_self);
    destruct (near (Node k x y) x y) eqn:E; try done;
    apply near_finite in E as [[_ ?] [_ ?]]; congruence.
Qed.

Lemma cl_getOrCreateNode_again x y ns :
  is_finite x && is_finite y = true ->
  Classes.getOrCreateNode x y (Classes.getOrCreateNode x y ns).2
  = Classes.getOrCreateNode x y ns.
Proof.
  intros Hf. unfold Classes.getOrCreateNode at 2 3.
  destruct (List.find _ ns) as [n|] eqn:E; simpl.
  - unfold Classes.getOrCreateNode. by rewrite E.
  - unfold Classes.getOrCreateNode. rewrite (find_app_r _ _ _ E). simpl.
    by rewrite near_self_finite, Hf.
Qed.

Lemma cl_getOrCreateNode_fresh x y ns :
  is_finite x && is_finite y = false ->
  Classes.getOrCreateNode x y ns = (Node (length ns) x y, ns ++ [Node (length ns) x y]).
Proof.
  intros Hf. unfold Classes.getOrCreateNode.
  destruct (List.find _ ns) as [n|] eqn:E; [|done].
  apply find_some_elem in E as [_ [[_ Hx] [_ Hy]]%near_finite].
  by rewrite Hx, Hy in Hf.
Qed.

Lemma gj_getOrCreateNode_again x y st :
  is_finite x && is_finite y = true ->
  GameJs.getOrCreateNode x y (GameJs.getOrCreateNode x y st).2
  = GameJs.getOrCreateNode x y st.
Proof.
  intros Hf. unfold GameJs.getOrCreateNode at 2 3.
  destruct (List.find _ st.1) as [n|] eqn:E; simpl.
  - unfold GameJs.getOrCreateNode. by rewrite E.
  - unfold GameJs.getOrCreateNode. simpl. rewrite (find_app_r _ _ _ E). simpl.
    by rewrite near_self_finite, Hf.
Qed.

Lemma gj_getOrCreateNode_fresh x y st :
  is_finite x && is_finite y = false ->
  GameJs.getOrCreateNode x y st =
  (Node (length st.1) x y,
   (st.1 ++ [Node (length st.1) x y], <[length st.1 := []]> st.2)).
Proof.
  intros Hf. unfold GameJs.getOrCreateNode.
  destruct (List.find _ st.1) as [n|] eqn:E; [|done].
  apply find_some_elem in E as [_ [[_ Hx] [_ Hy]]%near_finite].
  by rewrite Hx, Hy in Hf.
Qed.

(** X1.  Merging is idempotent on points with finite coordinates: a second
    [getOrCreateNode] of the same point returns the node of the first
    call and adds nothing.  A point with a coordinate that is infinite or
    not a number is within the threshold of no node, not even of its own:
    every call makes a new node for it. *)
Theorem X1_merge_idempotent (x y : float) (ns : list node) (st : GameJs.build_state) :
  (is_finite x && is_finite y = true ->
     Classes.getOrCreateNode x y (Classes.getOrCreateNode x y ns).2
       = Classes.getOrCreateNode x y ns /\
     GameJs.getOrCreateNode x y (GameJs.getOrCreateNode x y st).2
       = GameJs.getOrCreateNode x y st) /\
  (is_finite x && is_finite y = false ->
     (Classes.getOrCreateNode x y ns).1 = Node (length ns) x y /\
     (Classes.getOrCreateNode x y (Classes.getOrCreateNode x y ns).2).1
       = Node (S (length ns)) x y /\
     (GameJs.getOrCreateNode x y st).1 = Node (length st.1) x y /\
     (GameJs.getOrCreateNode x y (GameJs.getOrCreateNode x y st).2).1
       = Node (S (length st.1)) x y).
Proof.
  split; intros Hf.
  - split; [by apply cl_getOrCreateNode_again|by apply gj_getOrCreateNode_again].
  - rewrite !(cl_getOrCreateNode_fresh _ _ _ Hf), !(gj_getOrCreateNode_fresh _ _ _ Hf).
    simpl. rewrite !length_app. simpl. rewrite !Nat.add_1_r. done.
Qed.

Lemma X1_merge_idempotent_witness :
  let ns := [Node 0 80 80; Node 1 720 520] in
  Classes.getOrCreateNode 200 300 (Classes.getOrCreateNode 200 300 ns).2
    = Classes.getOrCreateNode 200 300 ns /\
  (Classes.getOrCreateNode nan 300 (Classes.getOrCreateNode nan 300 ns).2).1
    = Node 3 nan 300.
Proof.
  intros ns. split.
  - exact (proj1 (proj1 (X1_merge_idempotent 200 300 ns ([], ∅)) eq_refl)).
  - exact (proj1 (proj2 (proj2 (X1_merge_idempotent nan 300 ns ([], ∅)) eq_refl))).
Defined.

(** The node that a point merges into, and the node list after. *)
Lemma getOrCreateNode_first_wins (x y : float) (ns : list node) :
  ids_ok ns ->
  let n := (Classes.getOrCreateNode x y ns).1 in
  let ns' := (Classes.getOrCreateNode x y ns).2 in
  ns `prefix_of` ns' /\ length ns' <= S (length ns) /\
  ids_ok ns' /\ ns' !! node_id n = Some n /\
  (forall m, m ∈ ns -> near m x y = true ->
     ns' = ns /\ near n x y = true /\ node_id n <= node_id m) /\
  ((forall m, m ∈ ns -> near m x y = false) ->
     n = Node (length ns) x y /\ ns' = ns ++ [n]).
Proof.
  intros Hids. unfold Classes.getOrCreateNode.
  pose proof (lookup_or_append ns x y Hids) as H.
  destruct (List.find _ ns) as [n|] eqn:E; simpl.
  - destruct H as [Hn Hnear].
    split; [done|]. split; [lia|]. split; [done|]. split; [done|]. split.
    + intros m [i Hi]%list_elem_of_lookup Hm. split; [done|]. split; [done|].
      rewrite (Hids i m Hi).
      destruct (decide (node_id n <= i)) as [|Hlt]; [done|]. exfalso.
      assert (Hsplit : ns = take i ns ++ m :: drop (S i) ns)
        by (by rewrite take_drop_middle).
      assert (Hlen : length (take i ns) = i).
      { rewrite length_take. apply lookup_lt_Some in Hi. lia. }
      destruct (List.find (fun n0 => near n0 x y) (take i ns)) as [n'|] eqn:E'.
      * pose proof (find_app_l _ _ (m :: drop (S i) ns) _ E') as E2.
        rewrite <- Hsplit in E2. assert (n' = n) as -> by congruence.
        apply find_some_elem in E' as [[j Hj]%list_elem_of_lookup _].
        pose proof (lookup_lt_Some _ _ _ Hj) as Hjlt. rewrite Hlen in Hjlt.
        rewrite lookup_take_lt in Hj by done. rewrite (Hids j n Hj) in Hlt. lia.
      * pose proof (find_app_r _ _ (m :: drop (S i) ns) E') as E2.
        rewrite <- Hsplit in E2. simpl in E2. rewrite Hm in E2.
        assert (m = n) as -> by congruence. rewrite (Hids i n Hi) in Hlt. lia.
    + intros Hnone. apply find_some_elem in E as [Hin Hn'].
      by rewrite (Hnone n Hin) in Hn'.
  - destruct H as [Hids' Hlast].
    split; [by apply prefix_app_r|]. split; [rewrite length_app; simpl; lia|].
    split; [done|]. split; [done|]. split; [|done].
    intros m Hm Hnear. exfalso.
    pose proof (find_none _ _ E m) as Hn. simpl in Hn.
    rewrite Hnear in Hn. apply list_elem_of_In in Hm. by specialize (Hn Hm).
Qed.

(** X2.  [getOrCreateNode] touches nothing that is there: the node list
    is continued by at most one node, ids stay indices, and the node
    returned is in the list.  Among the nodes within the threshold of the
    point the one registered first wins; a new node is made only when no
    node is within the threshold.  [game.js] returns the same node and
    the same node list. *)
Theorem X2_merge_first_wins (x y : float) (ns : list node) :
  ids_ok ns ->
  let n := (Classes.getOrCreateNode x y ns).1 in
  let ns' := (Classes.getOrCreateNode x y ns).2 in
  ns `prefix_of` ns' /\ length ns' <= S (length ns) /\
  ids_ok ns' /\ ns' !! node_id n = Some n /\
  (forall m, m ∈ ns -> near m x y = true ->
     ns' = ns /\ near n x y = true /\ node_id n <= node_id m) /\
  ((forall m, m ∈ ns -> near m x y = false) ->
     n = Node (length ns) x y /\ ns' = ns ++ [n]) /\
  (forall adj, (GameJs.getOrCreateNode x y (ns, adj)).1 = n /\
               (GameJs.getOrCreateNode x y (ns, adj)).2.1 = ns').
Proof.
  intros Hids n ns'.
  destruct (getOrCreateNode_first_wins x y ns Hids) as (H1 & H2 & H3 & H4 & H5 & H6).
  repeat (split; [done|]). intros adj.
  pose proof (getOrCreateNode_sim x y (ns, adj)) as Hsim. simpl in Hsim.
  subst n ns'. by rewrite Hsim.
Qed.

Lemma X2_merge_first_wins_witness :
  let ns := [Node 0 80 80; Node 1 95 80] in
  ids_ok ns /\ near (Node 1 95 80) 88 80 = true /\
  (Classes.getOrCreateNode 88 80 ns).2 = ns /\
  node_id (Classes.getOrCreateNode 88 80 ns).1 <= 1.
Proof.
  intros ns.
  assert (Hids : ids_ok ns).
  { intros [|[|i]] n Hn; simpl in Hn; try done; by injection Hn as <-. }
  split; [exact Hids|]. split; [reflexivity|].
  destruct (X2_merge_first_wins 88 80 ns Hids) as (_ & _ & _ & _ & Hfirst & _).
  destruct (Hfirst (Node 1 95 80)) as (Hns & _ & Hle).
  - apply list_elem_of_lookup. by exists 1.
  - reflexivity.
  - split; [exact Hns|exact Hle].
Defined.

(** ** The builder, road by road *)

Lemma same_graph_extends g g' cg cg' :
  same_graph g cg -> same_graph g' cg' -> extends_graph cg cg' -> extends_graph g g'.
Proof.
  intros (Hn & Hs & Hd & Hnb) (Hn' & Hs' & Hd' & Hnb') (H1 & H2 & H3 & H4).
  unfold extends_graph. rewrite Hn, Hn', Hs, Hs', Hd, Hd'.
  split; [done|]. split; [done|]. split; [done|].
  intros k. rewrite Hnb, Hnb'. apply H4.
Qed.

Module ClassesRoads.
Import Classes ClassesFacts.

(** What [addRoad] does, in one statement. *)
Lemma cl_addRoad_spec st r :
  ids_ok st.1 ->
  let a := (getOrCreateNode (x1 r) (y1 r) st.1).1 in
  let ns1 := (getOrCreateNode (x1 r) (y1 r) st.1).2 in
  let b := (getOrCreateNode (x2 r) (y2 r) ns1).1 in
  let ns2 := (getOrCreateNode (x2 r) (y2 r) ns1).2 in
  (addRoad st r).1 = ns2 /\
  (exists tl, ns2 = ns1 ++ tl) /\ (exists tl, ns2 = st.1 ++ tl) /\
  ns2 !! node_id a = Some a /\ ns2 !! node_id b = Some b /\
  edge_added (node_id a) (node_id b) (edge_dist a b) st.2 (addRoad st r).2.
Proof.
  intros Hids. cbv zeta. unfold addRoad.
  pose proof (cl_getOrCreateNode_good (x1 r) (y1 r) st.1 Hids) as H1.
  destruct (getOrCreateNode (x1 r) (y1 r) st.1) as [nodeA ns1]. simpl in H1.
  cbn [fst snd]. destruct H1 as (Hi1 & HA & tl1 & Htl1 & Hlen1).
  pose proof (cl_getOrCreateNode_good (x2 r) (y2 r) ns1 Hi1) as H2.
  destruct (getOrCreateNode (x2 r) (y2 r) ns1) as [nodeB ns2]. simpl in H2.
  destruct H2 as (Hi2 & HB & tl2 & Htl2 & Hlen2).
  simpl. split; [done|]. split; [by exists tl2|].
  split; [exists (tl1 ++ tl2); by rewrite Htl2, Htl1, app_assoc|].
  split. { rewrite Htl2. apply lookup_app_l_Some. done. }
  split; [done|]. apply cl_addEdge_edge_added.
Qed.

Lemma cl_addRoad_prefix st r k :
  neighbors st.2 k `prefix_of` neighbors (addRoad st r).2 k.
Proof.
  unfold addRoad.
  destruct (getOrCreateNode (x1 r) (y1 r) st.1) as [nodeA ns1].
  destruct (getOrCreateNode (x2 r) (y2 r) ns1) as [nodeB ns2]. simpl.
  destruct (cl_addEdge_edge_added nodeA nodeB st.2) as [Hn _].
  rewrite Hn. by apply prefix_app_r.
Qed.

Lemma cl_fold_prefix rs : forall st k,
  neighbors st.2 k `prefix_of` neighbors (fold_left addRoad rs st).2 k.
Proof.
  induction rs as [|r rs IH]; intros st k; simpl; [done|].
  etrans; [apply cl_addRoad_prefix|apply IH].
Qed.

Lemma cl_buildGraph_extends cv rs rs' :
  extends_graph (buildGraph cv rs) (buildGraph cv (rs ++ rs')).
Proof.
  unfold buildGraph.
  destruct (getOrCreateNode (fst start) (snd start) []) as [sN ns1].
  destruct (getOrCreateNode (fst (dest cv)) (snd (dest cv)) ns1) as [dN ns2].
  rewrite fold_left_app. unfold extends_graph. simpl.
  split; [|split; [done|split; [done|]]].
  - destruct (ClassesEntries.fold_addRoad_extends rs' (fold_left addRoad rs (ns2, ∅)))
      as [tl ->]. by apply prefix_app_r.
  - intros k. apply cl_fold_prefix.
Qed.

(** The anchors come first. *)
Lemma cl_buildGraph_anchors cv rs : anchored cv (buildGraph cv rs).
Proof.
  unfold anchored, buildGraph.
  change (getOrCreateNode (fst start) (snd start) []) with (origin_node, [origin_node]).
  cbv beta iota zeta. unfold getOrCreateNode. cbn [List.find length].
  destruct (near origin_node (fst (dest cv)) (snd (dest cv))); cbn [nodes startNode destNode].
  - destruct (ClassesEntries.fold_addRoad_extends rs ([origin_node], ∅)) as [tl ->].
    done.
  - destruct (ClassesEntries.fold_addRoad_extends rs
                ([origin_node] ++ [Node 1 (fst (dest cv)) (snd (dest cv))], ∅)) as [tl ->].
    done.
Qed.

(** *** Entries and roads *)

Lemma resolve_app ns tl x y a :
  resolve ns x y = Some a -> resolve (ns ++ tl) x y = Some a.
Proof. apply find_app_l. Qed.

Lemma resolve_getOrCreateNode x y ns tl :
  is_finite x && is_finite y = true ->
  resolve ((getOrCreateNode x y ns).2 ++ tl) x y = Some (getOrCreateNode x y ns).1.
Proof.
  intros Hf. unfold resolve, getOrCreateNode.
  destruct (List.find _ ns) as [n|] eqn:E; simpl.
  - by apply find_app_l.
  - rewrite <- app_assoc, (find_app_r _ _ _ E). simpl.
    by rewrite near_self_finite, Hf.
Qed.

Lemma edges_addRoad st r rs0 :
  ids_ok st.1 -> finite_road r = true ->
  edges_of_roads st.1 st.2 rs0 ->
  edges_of_roads (addRoad st r).1 (addRoad st r).2 (rs0 ++ [r]).
Proof.
  intros Hids Hfin [Hfw Hbw].
  unfold finite_road in Hfin.
  apply andb_prop in Hfin as [[[H1 H2]%andb_prop H3]%andb_prop H4].
  destruct (cl_addRoad_spec st r Hids) as (E1 & [tl2 Htl2] & [tl Htl] & HA & HB & Hn & Hk).
  pose proof (resolve_getOrCreateNode (x1 r) (y1 r) st.1 tl2) as RA.
  pose proof (resolve_getOrCreateNode (x2 r) (y2 r)
                (getOrCreateNode (x1 r) (y1 r) st.1).2 []) as RB.
  rewrite app_nil_r in RB. rewrite <- Htl2 in RA.
  rewrite H1, H2 in RA. rewrite H3, H4 in RB.
  specialize (RA eq_refl). specialize (RB eq_refl).
  set (a := (getOrCreateNode (x1 r) (y1 r) st.1).1) in *.
  set (b := (getOrCreateNode (x2 r) (y2 r) (getOrCreateNode (x1 r) (y1 r) st.1).2).1) in *.
  set (ns2 := (getOrCreateNode (x2 r) (y2 r) (getOrCreateNode (x1 r) (y1 r) st.1).2).2) in *.
  rewrite E1. split.
  - intros r' [Hr'| ->%list_elem_of_singleton]%elem_of_app.
    + destruct (Hfw r' Hr') as (a' & b' & [Ra Rb] & Ha & Hb).
      exists a', b'. split.
      * rewrite Htl. split; by apply resolve_app.
      * rewrite !Hn, !elem_of_app. auto.
    + exists a, b. split; [done|]. rewrite !Hn, !elem_of_app. split.
      * right; left. rewrite decide_True by done. by apply list_elem_of_singleton.
      * right; right. rewrite decide_True by done. by apply list_elem_of_singleton.
  - intros k e. rewrite Hn, !elem_of_app. intros [He|[He|He]].
    + destruct (Hbw k e He) as (r' & a' & b' & Hr' & [Ra Rb] & Hent).
      exists r', a', b'. split; [apply elem_of_app; auto|]. split; [|done].
      rewrite Htl. split; by apply resolve_app.
    + case_decide as Hka; [|by apply elem_of_nil in He].
      apply list_elem_of_singleton in He.
      exists r, a, b. split; [apply elem_of_app; right; by apply list_elem_of_singleton|].
      split; [done|]. by left.
    + case_decide as Hkb; [|by apply elem_of_nil in He].
      apply list_elem_of_singleton in He.
      exists r, a, b. split; [apply elem_of_app; right; by apply list_elem_of_singleton|].
      split; [done|]. by right.
Qed.

Lemma edges_fold rs : forall st rs0,
  good st -> forallb finite_road rs = true ->
  edges_of_roads st.1 st.2 rs0 ->
  edges_of_roads (fold_left addRoad rs st).1 (fold_left addRoad rs st).2 (rs0 ++ rs).
Proof.
  induction rs as [|r rs IH]; intros st rs0 Hg Hfin He; simpl.
  - by rewrite app_nil_r.
  - simpl in Hfin. apply andb_prop in Hfin as [Hr Hfin].
    replace (rs0 ++ r :: rs) with ((rs0 ++ [r]) ++ rs) by (by rewrite <- app_assoc).
    apply IH; [by apply cl_addRoad_good|done|].
    apply edges_addRoad; [apply Hg|done|done].
Qed.

Lemma cl_buildGraph_edges cv rs :
  forallb finite_road rs = true ->
  edges_of_roads (nodes (buildGraph cv rs)) (adj (buildGraph cv rs)) rs.
Proof.
  intros Hfin. unfold buildGraph.
  pose proof (cl_getOrCreateNode_good (fst start) (snd start) [] ids_ok_nil) as H1.
  destruct (getOrCreateNode (fst start) (snd start) []) as [sN ns1].
  simpl in H1. destruct H1 as (Hi1 & _).
  pose proof (cl_getOrCreateNode_good (fst (dest cv)) (snd (dest cv)) _ Hi1) as H2.
  destruct (getOrCreateNode (fst (dest cv)) (snd (dest cv)) ns1) as [dN ns2].
  simpl in H2. destruct H2 as (Hi2 & _).
  assert (Hg2 : good (ns2, ∅)).
  { split; simpl.
    - rewrite <- (app_nil_l ns2). apply wf_build_grow; [apply wf_build_empty|done].
    - intros k [? Hk]. by rewrite lookup_empty in Hk. }
  simpl. apply (edges_fold rs (ns2, ∅) []); [done|done|].
  split.
  - by intros r ?%elem_of_nil.
  - intros k e. unfold neighbors. simpl. rewrite lookup_empty. by intros ?%elem_of_nil.
Qed.

(** *** Counting the entries *)

Lemma sum_seq_ext (f g : nat -> nat) i n :
  (forall k, i <= k < i + n -> f k = g k) ->
  sum_list_with f (seq i n) = sum_list_with g (seq i n).
Proof.
  revert i. induction n as [|n IH]; intros i H; simpl; [done|].
  rewrite (H i) by lia. f_equal. apply IH. intros k Hk. apply H. lia.
Qed.

Lemma sum_seq_zero i n : sum_list_with (fun _ : nat => 0) (seq i n) = 0.
Proof. revert i. induction n as [|n IH]; intros i; simpl; [done|apply IH]. Qed.

Lemma sum_seq_bump (f : nat -> nat) a m i n :
  sum_list_with (fun k => f k + (if decide (k = a) then m else 0)) (seq i n)
  = sum_list_with f (seq i n) + (if decide (i <= a < i + n) then m else 0).
Proof.
  revert i. induction n as [|n IH]; intros i; simpl.
  - case_decide; lia.
  - rewrite IH. repeat case_decide; lia.
Qed.

Lemma entry_count_grow ns tl adj :
  (forall k, is_Some (adj !! k) -> k < length ns) ->
  entry_count (ns ++ tl) adj = entry_count ns adj.
Proof.
  intros Hk. unfold entry_count. rewrite length_app, seq_app, sum_list_with_app.
  simpl. rewrite (sum_seq_ext _ (fun _ => 0) (length ns)), sum_seq_zero; [lia|].
  intros k Hr. unfold neighbors. destruct (adj !! k) eqn:E; [|done].
  assert (k < length ns) by (apply Hk; eauto). lia.
Qed.

Lemma entry_count_edge ns adj adj' a b d :
  a < length ns -> b < length ns -> edge_added a b d adj adj' ->
  entry_count ns adj' = entry_count ns adj + 2.
Proof.
  intros Ha Hb [Hn _]. unfold entry_count.
  rewrite (sum_seq_ext _ (fun k =>
    (length (neighbors adj k) + (if decide (k = a) then 1 else 0))
    + (if decide (k = b) then 1 else 0))).
  - rewrite !sum_seq_bump. rewrite !decide_True by lia. lia.
  - intros k _. rewrite Hn, !length_app. repeat case_decide; simpl; lia.
Qed.

Lemma entry_count_addRoad st r :
  good st ->
  entry_count (addRoad st r).1 (addRoad st r).2 = entry_count st.1 st.2 + 2.
Proof.
  intros [Hwf Hne].
  destruct (cl_addRoad_spec st r (wf_ids _ _ Hwf)) as (E1 & _ & [tl Htl] & HA & HB & Hadd).
  rewrite E1.
  rewrite (entry_count_edge _ st.2 _ _ _ _
             (lookup_lt_Some _ _ _ HA) (lookup_lt_Some _ _ _ HB) Hadd).
  f_equal. rewrite Htl. apply entry_count_grow. apply Hwf.
Qed.

Lemma entry_count_fold rs : forall st,
  good st ->
  entry_count (fold_left addRoad rs st).1 (fold_left addRoad rs st).2
  = entry_count st.1 st.2 + 2 * length rs.
Proof.
  induction rs as [|r rs IH]; intros st Hg; simpl; [lia|].
  rewrite IH by (by apply cl_addRoad_good). rewrite entry_count_addRoad by done. lia.
Qed.

Lemma cl_buildGraph_entry_count cv rs :
  entry_count (nodes (buildGraph cv rs)) (adj (buildGraph cv rs)) = 2 * length rs.
Proof.
  unfold buildGraph.
  pose proof (cl_getOrCreateNode_good (fst start) (snd start) [] ids_ok_nil) as H1.
  destruct (getOrCreateNode (fst start) (snd start) []) as [sN ns1].
  simpl in H1. destruct H1 as (Hi1 & _).
  pose proof (cl_getOrCreateNode_good (fst (dest cv)) (snd (dest cv)) _ Hi1) as H2.
  destruct (getOrCreateNode (fst (dest cv)) (snd (dest cv)) ns1) as [dN ns2].
  simpl in H2. destruct H2 as (Hi2 & _).
  assert (Hg2 : good (ns2, ∅)).
  { split; simpl.
    - rewrite <- (app_nil_l ns2). apply wf_build_grow; [apply wf_build_empty|done].
    - intros k [? Hk]. by rewrite lookup_empty in Hk. }
  simpl. rewrite (entry_count_fold rs (ns2, ∅) Hg2). simpl.
  assert (E0 : entry_count ns2 ∅ = 0); [|lia].
  unfold entry_count. rewrite (sum_seq_ext _ (fun _ => 0)), sum_seq_zero; [done|].
  intros k _. unfold neighbors. by rewrite lookup_empty.
Qed.

End ClassesRoads.

(** Transfer to [game.js] along [buildGraph_same]. *)
Lemma same_graph_edges g cg rs :
  same_graph g cg -> edges_of_roads (nodes cg) (adj cg) rs ->
  edges_of_roads (nodes g) (adj g) rs.
Proof.
  intros (Hn & _ & _ & Hnb) [Hfw Hbw]. unfold edges_of_roads.
  rewrite Hn. split.
  - intros r Hr. destruct (Hfw r Hr) as (a & b & ? & ? & ?).
    exists a, b. by rewrite !Hnb.
  - intros k e. rewrite Hnb. apply Hbw.
Qed.

Lemma same_graph_entry_count g cg :
  same_graph g cg -> entry_count (nodes g) (adj g) = entry_count (nodes cg) (adj cg).
Proof.
  intros (Hn & _ & _ & Hnb). unfold entry_count. rewrite Hn.
  apply ClassesRoads.sum_seq_ext. intros k _. by rewrite Hnb.
Qed.

(** ** The entries of the adjacency mapping *)

(** C9 as stated fails in the class-based script: with no road drawn the
    two anchors are nodes of the graph, and [adj] has no entry at all. *)
Lemma C9_counterexample :
  ~ every_node_has_entry (Classes.buildGraph (Canvas 800 600) []).
Proof.
  intros H. specialize (H (Node 0 80 80)).
  destruct H as [l Hl]; [|done].
  vm_compute. by left.
Qed.

(** The keys of the class-based [adj] are the nodes of the endpoints of
    the roads. *)
Lemma cl_entry_endpoint cv rs k :
  forallb finite_road rs = true ->
  is_Some (adj (Classes.buildGraph cv rs) !! k) ->
  exists r n, r ∈ rs /\ endpoint_of (Classes.buildGraph cv rs) r n /\ node_id n = k.
Proof.
  intros Hfin Hk.
  destruct (ClassesFacts.cl_buildGraph_good cv rs) as ([_ Hne] & _).
  destruct (ClassesRoads.cl_buildGraph_edges cv rs Hfin) as [_ Hbw].
  specialize (Hne k Hk). cbn [snd] in Hne.
  destruct (neighbors (adj (Classes.buildGraph cv rs)) k) as [|e l] eqn:E; [done|].
  destruct (Hbw k e) as (r & a & b & Hr & [Ha Hb] & [[-> _]|[-> _]]).
  { rewrite E. by left. }
  - exists r, a. split; [done|]. split; [by left|done].
  - exists r, b. split; [done|]. split; [by right|done].
Qed.

(** C9, amended.  In [game.js] every node of the graph has an entry in the
    adjacency mapping.  In the class-based script the node of each endpoint
    of each road has one, and none of the entries is empty; for roads with
    finite coordinates the entries are exactly the nodes of the endpoints
    of the roads, so that an anchor to which no endpoint of a road
    resolves has no entry; and [findPath] reads a missing entry as an
    empty list. *)
Theorem C9_adjacency_entries (cv : canvas) (rs : list road) :
  (exists g, GameJs.buildGraph cv rs = Ret g /\ every_node_has_entry g) /\
  (forall r n, r ∈ rs -> endpoint_of (Classes.buildGraph cv rs) r n ->
     is_Some (adj (Classes.buildGraph cv rs) !! node_id n)) /\
  (forall k, is_Some (adj (Classes.buildGraph cv rs) !! k) <->
     neighbors (adj (Classes.buildGraph cv rs)) k <> []) /\
  (forallb finite_road rs = true ->
     (forall k, is_Some (adj (Classes.buildGraph cv rs) !! k) <->
        exists r n, r ∈ rs /\ endpoint_of (Classes.buildGraph cv rs) r n /\
                    node_id n = k) /\
     (forall n, n = startNode (Classes.buildGraph cv rs) \/
                n = destNode (Classes.buildGraph cv rs) ->
        (forall r, r ∈ rs -> ~ endpoint_of (Classes.buildGraph cv rs) r n) ->
        adj (Classes.buildGraph cv rs) !! node_id n = None)) /\
  (forall k, adj (Classes.buildGraph cv rs) !! k = None ->
     Classes.neighborsOf (Classes.buildGraph cv rs) k = Ret []).
Proof.
  assert (Hend : forall r n, r ∈ rs -> endpoint_of (Classes.buildGraph cv rs) r n ->
            is_Some (adj (Classes.buildGraph cv rs) !! node_id n)).
  { intros r n Hr He. unfold endpoint_of, Classes.buildGraph in *.
    destruct (Classes.getOrCreateNode (fst start) (snd start) []) as [sN ns1].
    destruct (Classes.getOrCreateNode _ _ ns1) as [dN ns2]. simpl in *.
    by eapply ClassesEntries.fold_addRoad_endpoints. }
  split; [|split; [exact Hend|split; [|split]]];
    [| | |by intros k Hk; unfold Classes.neighborsOf; rewrite Hk].
  - destruct (GameJsFacts.gj_buildGraph_good cv rs) as (g & Hg & [Hwf Htot] & _).
    exists g. split; [done|]. intros n [i Hi]%list_elem_of_lookup.
    rewrite (wf_ids _ _ Hwf i n Hi). apply Htot. by apply lookup_lt_Some in Hi.
  - intros k. destruct (ClassesFacts.cl_buildGraph_good cv rs) as ([Hwf Hne] & _).
    split; [apply Hne|]. unfold neighbors.
    destruct (adj (Classes.buildGraph cv rs) !! k); [eauto|done].
  - intros Hfin. split.
    + intros k. split; [by apply cl_entry_endpoint|].
      intros (r & n & Hr & He & <-). by apply (Hend r).
    + intros n Hn Hno.
      destruct (adj (Classes.buildGraph cv rs) !! node_id n) as [l|] eqn:E; [exfalso|done].
      destruct (cl_entry_endpoint cv rs (node_id n) Hfin) as (r & n' & Hr & He & Hid).
      { by rewrite E. }
      apply (Hno r Hr). replace n with n'; [done|].
      destruct (ClassesFacts.cl_buildGraph_good cv rs)
        as ([Hwf _] & _ & _ & H0 & Hd). cbn [fst] in Hwf.
      assert (Hn' : nodes (Classes.buildGraph cv rs) !! node_id n' = Some n').
      { destruct He as [He|He];
          apply find_some_elem in He as [[i Hi]%list_elem_of_lookup _];
          by rewrite (wf_ids _ _ Hwf i n' Hi). }
      assert (Hnn : nodes (Classes.buildGraph cv rs) !! node_id n = Some n).
      { destruct Hn as [-> | ->]; [|done].
        by rewrite (wf_ids _ _ Hwf 0 _ H0). }
      rewrite Hid, Hnn in Hn'. by injection Hn'.
Qed.

Lemma C9_adjacency_entries_witness :
  let cv := Canvas 800 600 in
  let rs := [Road 80 80 300 300] in
  is_Some (adj (Classes.buildGraph cv rs) !! 0) /\
  adj (Classes.buildGraph cv rs) !! 1 = None.
Proof.
  intros cv rs.
  destruct (C9_adjacency_entries cv rs) as (_ & Hend & _ & Hex & _).
  destruct (Hex eq_refl) as [_ Hanchor]. split.
  - apply (Hend (Road 80 80 300 300) (Node 0 80 80)); [by left|by left].
  - apply (Hanchor (Node 1 720 520)); [by right|].
    intros r ->%list_elem_of_singleton [H|H]; vm_compute in H; discriminate H.
Defined.

(** X3.  The anchors come first in every build, whatever roads are drawn:
    the origin is node 0 at (80, 80), and the destination is node 1,
    unless it lies within the threshold of the origin, and then the origin
    node is the destination node as well. *)
Theorem X3_buildGraph_anchors (cv : canvas) (rs : list road) :
  (exists g, GameJs.buildGraph cv rs = Ret g /\ anchored cv g) /\
  anchored cv (Classes.buildGraph cv rs).
Proof.
  split; [|apply ClassesRoads.cl_buildGraph_anchors].
  destruct (buildGraph_same cv rs) as (g & Hg & (Hn & Hs & Hd & _)).
  exists g. split; [done|]. unfold anchored. rewrite Hn, Hs, Hd.
  apply ClassesRoads.cl_buildGraph_anchors.
Qed.

(** X4.  Drawing more roads only continues the graph: the graph of
    [rs ++ rs'] has the nodes of the graph of [rs] first, with their ids
    and positions, the same anchors, and every neighbor list of the graph
    of [rs] as the beginning of its own.  As roads are only ever added to
    the end of [roads], a node keeps its id from frame to frame. *)
Theorem X4_buildGraph_monotone (cv : canvas) (rs rs' : list road) :
  (exists g g', GameJs.buildGraph cv rs = Ret g /\
     GameJs.buildGraph cv (rs ++ rs') = Ret g' /\ extends_graph g g') /\
  extends_graph (Classes.buildGraph cv rs) (Classes.buildGraph cv (rs ++ rs')).
Proof.
  split; [|apply ClassesRoads.cl_buildGraph_extends].
  destruct (buildGraph_same cv rs) as (g & Hg & Hsame).
  destruct (buildGraph_same cv (rs ++ rs')) as (g' & Hg' & Hsame').
  exists g, g'. split; [done|]. split; [done|].
  eapply same_graph_extends; [done|done|apply ClassesRoads.cl_buildGraph_extends].
Qed.

(** X5.  For roads with finite coordinates the adjacency lists hold the
    roads and nothing else: each road has an entry in the list of either
    endpoint's node, naming the other endpoint's node with the distance
    between the two nodes (the merged positions, not the points drawn);
    and every entry of every list is such an entry of some road.  A road
    whose two ends merge into one node makes that node its own neighbor. *)
Theorem X5_buildGraph_edges_are_roads (cv : canvas) (rs : list road) :
  forallb finite_road rs = true ->
  (exists g, GameJs.buildGraph cv rs = Ret g /\ edges_of_roads (nodes g) (adj g) rs) /\
  edges_of_roads (nodes (Classes.buildGraph cv rs)) (adj (Classes.buildGraph cv rs)) rs.
Proof.
  intros Hfin. split; [|by apply ClassesRoads.cl_buildGraph_edges].
  destruct (buildGraph_same cv rs) as (g & Hg & Hsame).
  exists g. split; [done|]. eapply same_graph_edges; [done|].
  by apply ClassesRoads.cl_buildGraph_edges.
Qed.

Lemma X5_buildGraph_edges_are_roads_witness :
  let cv := Canvas 800 600 in
  let rs := [Road 80 80 300 300; Road 200 200 207 200] in
  edges_of_roads (nodes (Classes.buildGraph cv rs)) (adj (Classes.buildGraph cv rs)) rs /\
  road_between (nodes (Classes.buildGraph cv rs)) (Road 200 200 207 200)
    (Node 3 200 200) (Node 3 200 200) /\
  adj (Classes.buildGraph cv rs) !! 3 = Some [Neighbor 3 0; Neighbor 3 0].
Proof.
  intros cv rs.
  split; [exact (proj2 (X5_buildGraph_edges_are_roads cv rs eq_refl))|].
  split; [split; reflexivity|]. vm_compute. reflexivity.
Defined.

(** X6.  Every road adds exactly two entries: all the adjacency lists
    together hold twice as many entries as there are roads, duplicate
    roads and roads from a node to itself included. *)
Theorem X6_buildGraph_two_entries_per_road (cv : canvas) (rs : list road) :
  (exists g, GameJs.buildGraph cv rs = Ret g /\
     entry_count (nodes g) (adj g) = 2 * length rs) /\
  entry_count (nodes (Classes.buildGraph cv rs)) (adj (Classes.buildGraph cv rs))
    = 2 * length rs.
Proof.
  split; [|apply ClassesRoads.cl_buildGraph_entry_count].
  destruct (buildGraph_same cv rs) as (g & Hg & Hsame).
  exists g. split; [done|]. rewrite (same_graph_entry_count _ _ Hsame).
  apply ClassesRoads.cl_buildGraph_entry_count.
Qed.

(** ** Shortest walks are simple *)

Section Cut.
Variable nbrs : nat -> list neighbor.
Variable s : nat.

(** A walk that comes back to a node can leave out the round trip. *)
Lemma walk_cut l t i j x :
  walk_to nbrs s l t -> i < j -> l !! i = Some x -> l !! j = Some x ->
  walk_to nbrs s (take (S i) l ++ drop (S j) l) t.
Proof.
  intros Hw Hij Hi Hj.
  pose proof (lookup_lt_Some _ _ _ Hi) as Hil.
  pose proof (lookup_lt_Some _ _ _ Hj) as Hjl.
  assert (Hlen : length (take (S i) l) = S i) by (rewrite length_take; lia).
  pose proof (walk_head _ _ _ _ Hw) as Hh.
  pose proof (walk_last _ _ _ _ Hw) as Hl.
  pose proof (walk_consecutive _ _ _ _ Hw) as Hc.
  assert (Hat : forall k, (take (S i) l ++ drop (S j) l) !! k =
            if decide (k <= i) then l !! k else l !! (k + (j - i))).
  { intros k. case_decide.
    - rewrite lookup_app_l by lia. by rewrite lookup_take_lt by lia.
    - rewrite lookup_app_r by lia. rewrite lookup_drop, Hlen. f_equal. lia. }
  apply walk_of_list.
  - rewrite head_lookup, Hat. rewrite decide_True by lia. by rewrite <- head_lookup.
  - rewrite last_lookup, Hat, length_app, Hlen, length_drop.
    rewrite last_lookup in Hl.
    case_decide as Hk.
    + assert (j = pred (length l)) as -> by lia.
      replace (pred (S i + (length l - S (pred (length l))))) with i by lia.
      congruence.
    + rewrite <- Hl. f_equal. lia.
  - intros k a b. rewrite !Hat. repeat case_decide; try lia.
    + apply Hc.
    + assert (k = i) as -> by lia. intros Ha Hb. rewrite Hi in Ha. injection Ha as <-.
      eapply (Hc j); [exact Hj|]. rewrite <- Hb. f_equal. lia.
    + intros Ha Hb. eapply (Hc (k + (j - i))); [exact Ha|]. rewrite <- Hb. f_equal.
Qed.

(** A shortest walk visits no node twice. *)
Lemma shortest_NoDup l t :
  walk_to nbrs s l t ->
  (forall l', walk_to nbrs s l' t -> length l <= length l') ->
  NoDup l.
Proof.
  intros Hw Hmin. apply NoDup_alt. intros i j x Hi Hj.
  destruct (decide (i = j)) as [|Hne]; [done|]. exfalso.
  assert (Hcut : forall i j, i < j -> l !! i = Some x -> l !! j = Some x -> False).
  { clear i j Hi Hj Hne. intros i j Hij Hi Hj.
    pose proof (Hmin _ (walk_cut l t i j x Hw Hij Hi Hj)) as Hle.
    pose proof (lookup_lt_Some _ _ _ Hj) as Hjl.
    rewrite length_app, length_take, length_drop in Hle. lia. }
  destruct (decide (i < j)); [by eapply (Hcut i j)|eapply (Hcut j i); [lia|done..]].
Qed.

End Cut.

Lemma NoDup_range_length (l : list nat) n :
  NoDup l -> Forall (fun i => i < n) l -> length l <= n.
Proof.
  intros Hnd Hr.
  assert (Hsub : l ⊆+ seq 0 n).
  { apply NoDup_submseteq; [done|]. intros x Hx.
    rewrite Forall_forall in Hr. apply elem_of_seq. specialize (Hr x Hx). lia. }
  apply submseteq_length in Hsub. by rewrite length_seq in Hsub.
Qed.

Lemma path_spec_simple (g : graph) p :
  ids_ok (nodes g) ->
  path_spec (neighbors (adj g)) (nodes g)
    (node_id (startNode g)) (node_id (destNode g)) (Some p) ->
  simple_path g p.
Proof.
  intros Hids (ids & -> & Hr & Hw & Hmin).
  destruct (ids_to_nodes (nodes g) ids Hr) as (nsl & E & HF).
  exists nsl. split; [done|].
  assert (Hid : node_id <$> nsl = ids).
  { apply list_eq. intros k. rewrite list_lookup_fmap.
    destruct (ids !! k) as [i|] eqn:Ei.
    - destruct (Forall2_lookup_l _ _ _ _ _ HF Ei) as (n & -> & Hn).
      simpl. by rewrite (Hids _ _ Hn).
    - apply lookup_ge_None in Ei. rewrite (Forall2_length _ _ _ HF) in Ei.
      apply lookup_ge_None in Ei. by rewrite Ei. }
  pose proof (shortest_NoDup _ _ _ _ Hw Hmin) as Hnd.
  rewrite Hid. split; [done|].
  rewrite <- (Forall2_length _ _ _ HF). split.
  - destruct Hw; [simpl; lia|rewrite length_app; simpl; lia].
  - by apply NoDup_range_length.
Qed.

(** X7.  The path that [findPath] returns is a simple path: it holds nodes
    only (no [undefined]), at least one and at most as many as the graph
    has, and no node twice. *)
Theorem X7_findPath_simple (cv : canvas) (rs : list road) :
  (exists g r, GameJs.buildGraph cv rs = Ret g /\ GameJs.findPath g = Ret r /\
     match r with Some p => simple_path g p | None => True end) /\
  (exists r, Classes.findPath (Classes.buildGraph cv rs) = Ret r /\
     match r with
     | Some p => simple_path (Classes.buildGraph cv rs) p
     | None => True
     end).
Proof.
  split.
  - destruct (GameJsSearch.gj_findPath_shortest cv rs) as (g & Hg & r & Hr & Hspec & _).
    destruct (GameJsFacts.gj_buildGraph_good cv rs) as (g' & Hg' & [Hwf _] & _).
    assert (g' = g) as -> by congruence.
    exists g, r. split; [done|]. split; [done|].
    destruct r as [p|]; [|done]. apply path_spec_simple; [apply Hwf|done].
  - destruct (ClassesSearch.cl_findPath_shortest cv rs) as (r & Hr & Hspec & _).
    destruct (ClassesFacts.cl_buildGraph_good cv rs) as ([Hwf _] & _).
    exists r. split; [done|].
    destruct r as [p|]; [|done]. apply path_spec_simple; [apply Hwf|done].
Qed.

(** ** The two scripts search alike *)

Section Agree.
Variables nof1 nof2 : nat -> result (list neighbor).
Variable nbrs : nat -> list neighbor.
Variable ns : list node.
Variable t : nat.
Variable n : nat.
Hypothesis H1 : forall k, k < n -> nof1 k = Ret (nbrs k).
Hypothesis H2 : forall k, k < n -> nof2 k = Ret (nbrs k).
Hypothesis Hclosed : forall k e, e ∈ nbrs k -> nb_id e < n.

Lemma visit_range u l : forall q cf,
  Forall (fun i => i < n) q -> Forall (fun e => nb_id e < n) l ->
  Forall (fun i => i < n) (fold_left (visit u) l (q, cf)).1.
Proof.
  induction l as [|e l IH]; intros q cf Hq Hl; [done|].
  apply Forall_cons in Hl as [He Hl]. cbn [fold_left].
  destruct (visit u (q, cf) e) as [q1 cf1] eqn:E. unfold visit in E.
  destruct (cf !! nb_id e); injection E as <- <-; [by apply IH|].
  apply IH; [|done]. apply Forall_app. split; [done|]. by constructor.
Qed.

Lemma bfs_agree rfuel : forall fuel q cf,
  Forall (fun i => i < n) q ->
  bfs nof1 ns t fuel rfuel q cf = bfs nof2 ns t fuel rfuel q cf.
Proof.
  induction fuel as [|fuel IH]; intros q cf Hq; [done|]. simpl.
  destruct q as [|u q]; [done|]. apply Forall_cons in Hq as [Hu Hq].
  destruct (u =? t); [done|]. rewrite (H1 u Hu), (H2 u Hu). simpl.
  pose proof (visit_range u (nbrs u) q cf Hq) as Hr.
  destruct (fold_left (visit u) (nbrs u) (q, cf)) as [q' cf']. simpl in Hr.
  apply IH, Hr. apply Forall_forall. intros e He. by eapply Hclosed.
Qed.

End Agree.

Lemma findPath_same cv rs :
  exists g, GameJs.buildGraph cv rs = Ret g /\
    GameJs.findPath g = Classes.findPath (Classes.buildGraph cv rs).
Proof.
  destruct (GameJsFacts.gj_buildGraph_good cv rs) as (g & Hg & [Hwf Htot] & _ & Hs & H0 & _).
  destruct (buildGraph_same cv rs) as (g' & Hg' & (Hn & Hst & Hd & Hnb)).
  assert (g' = g) as -> by congruence.
  exists g. split; [done|].
  unfold GameJs.findPath, Classes.findPath, findPath_with.
  rewrite <- Hn, <- Hst, <- Hd.
  apply (bfs_agree _ _ (neighbors (adj g)) (nodes g) _ (length (nodes g))).
  - intros k Hk. unfold GameJs.neighborsOf, neighbors.
    destruct (proj1 (Htot k) Hk) as [l Hl]. simpl in Hl. by rewrite Hl.
  - intros k Hk. unfold Classes.neighborsOf. f_equal. symmetry. apply Hnb.
  - apply Hwf.
  - constructor; [|done]. rewrite Hs. simpl. apply lookup_lt_Some in H0. lia.
Qed.

(** X8.  On the same roads the two scripts build the same graph, up to
    the keys of [adj] whose list is empty, and their searches return the
    same path, node for node. *)
Theorem X8_scripts_find_same_path (cv : canvas) (rs : list road) :
  exists g, GameJs.buildGraph cv rs = Ret g /\
    same_graph g (Classes.buildGraph cv rs) /\
    GameJs.findPath g = Classes.findPath (Classes.buildGraph cv rs).
Proof.
  destruct (findPath_same cv rs) as (g & Hg & E).
  destruct (buildGraph_same cv rs) as (g' & Hg' & Hsame).
  assert (g' = g) as -> by congruence. by exists g.
Qed.

(** ** A road straight from the origin to the destination *)

Lemma same_graph_sym g g' : same_graph g g' -> same_graph g' g.
Proof. intros (? & ? & ? & ?). by repeat split. Qed.

Module ClassesDirect.
Import Classes ClassesFacts ClassesRoads.

Lemma addRoad_joins cv st r tl :
  near origin_node (fst (dest cv)) (snd (dest cv)) = false ->
  st.1 = origin_node :: dest_node cv :: tl ->
  joins_anchors cv r ->
  (addRoad st r).1 = st.1 /\
  exists d, Neighbor 1 d ∈ neighbors (addRoad st r).2 0.
Proof.
  intros Hd Hst Hj. unfold addRoad, getOrCreateNode. rewrite Hst.
  cbn [List.find]. destruct Hj as [(Ha & Hb & Hc)|(Ha & Hb & Hc)].
  - rewrite Ha. cbn [List.find]. rewrite Hb, Hc. cbn [fst snd].
    split; [done|].
    destruct (cl_addEdge_edge_added origin_node (dest_node cv) st.2) as [Hn _].
    eexists. rewrite Hn. apply elem_of_app. right. apply elem_of_app. left.
    simpl. by left.
  - rewrite Ha, Hb. cbn [List.find]. rewrite Hc. cbn [fst snd].
    split; [done|].
    destruct (cl_addEdge_edge_added (dest_node cv) origin_node st.2) as [Hn _].
    eexists. rewrite Hn. apply elem_of_app. right. apply elem_of_app. right.
    simpl. by left.
Qed.

Lemma fold_joins cv r rs : forall st tl,
  near origin_node (fst (dest cv)) (snd (dest cv)) = false ->
  st.1 = origin_node :: dest_node cv :: tl ->
  r ∈ rs -> joins_anchors cv r ->
  exists d, Neighbor 1 d ∈ neighbors (fold_left addRoad rs st).2 0.
Proof.
  induction rs as [|r0 rs IH]; intros st tl Hd Hst Hin Hj; [by apply elem_of_nil in Hin|].
  simpl. apply elem_of_cons in Hin as [->|Hin].
  - destruct (addRoad_joins cv st r0 tl Hd Hst Hj) as [_ [d Hin]].
    exists d. eapply elem_of_prefix; [exact Hin|]. apply cl_fold_prefix.
  - destruct (ClassesEntries.addRoad_extends st r0) as [tl' Htl'].
    apply (IH (addRoad st r0) (tl ++ tl')); try done.
    by rewrite Htl', Hst.
Qed.

Lemma cl_direct_edge cv rs r :
  near origin_node (fst (dest cv)) (snd (dest cv)) = false ->
  r ∈ rs -> joins_anchors cv r ->
  adjacent (buildGraph cv rs) origin_node (dest_node cv).
Proof.
  intros Hd Hin Hj. unfold adjacent, buildGraph.
  change (getOrCreateNode (fst start) (snd start) []) with (origin_node, [origin_node]).
  cbv beta iota zeta. unfold getOrCreateNode. cbn [List.find length]. rewrite Hd.
  cbn [adj]. simpl node_id.
  apply (fold_joins cv r rs _ []); try done.
Qed.

End ClassesDirect.

(** A route of two nodes is the shortest there is between distinct anchors. *)
Lemma shortest_is_direct g r a b :
  startNode g = a -> destNode g = b -> a <> b ->
  adjacent g a b -> shortest_or_none g r -> r = Some [Some a; Some b].
Proof.
  intros Hs Hd Hne Hadj Hr.
  assert (Hroute : route g [a; b]).
  { split; [by rewrite Hs|]. split; [by rewrite Hd|].
    intros [|[|i]] x y Hx Hy; simpl in *; try done. by injection Hx as <-; injection Hy as <-. }
  destruct r as [p|]; [|by apply Hr in Hroute].
  destruct Hr as (nsl & -> & _ & (Hh & Hl & _) & Hmin).
  specialize (Hmin _ Hroute). simpl in Hmin.
  rewrite Hs in Hh. rewrite Hd in Hl.
  destruct nsl as [|x [|y [|z nsl]]]; simpl in *; try lia; try done.
  - congruence.
  - by injection Hh as ->; injection Hl as ->.
Qed.

(** X9.  As soon as one of the roads joins the two anchors, the path is
    the origin node followed by the destination node, whatever else is
    drawn and wherever in the order of drawing that road comes. *)
Theorem X9_direct_road_wins (cv : canvas) (rs : list road) (r : road) :
  near origin_node (fst (dest cv)) (snd (dest cv)) = false ->
  r ∈ rs -> joins_anchors cv r ->
  (exists g, GameJs.buildGraph cv rs = Ret g /\
             GameJs.findPath g = Ret (Some (direct_path cv))) /\
  Classes.findPath (Classes.buildGraph cv rs) = Ret (Some (direct_path cv)).
Proof.
  intros Hd Hin Hj.
  assert (Hcl : Classes.findPath (Classes.buildGraph cv rs) = Ret (Some (direct_path cv))).
  { destruct (ClassesSearch.cl_findPath_shortest cv rs) as (r0 & Hr & _ & Hs).
    rewrite Hr. f_equal.
    pose proof (ClassesRoads.cl_buildGraph_anchors cv rs) as (Hst & _ & Hdn).
    rewrite Hd in Hdn. destruct Hdn as [Hdn _].
    apply (shortest_is_direct (Classes.buildGraph cv rs) _ origin_node (dest_node cv));
      try done.
    by eapply ClassesDirect.cl_direct_edge. }
  split; [|done].
  destruct (findPath_same cv rs) as (g & Hg & E). exists g. by rewrite E.
Qed.

Lemma X9_direct_road_wins_witness :
  let cv := Canvas 800 600 in
  let rs := [Road 80 80 400 100; Road 400 100 720 520; Road 715 522 83 78] in
  Classes.findPath (Classes.buildGraph cv rs) = Ret (Some (direct_path cv)).
Proof.
  intros cv rs.
  refine (proj2 (X9_direct_road_wins cv rs (Road 715 522 83 78) eq_refl _ _)).
  - apply list_elem_of_In. simpl. auto.
  - right. repeat split.
Defined.

(** ** Coincident anchors, whatever is drawn *)

Lemma shortest_is_single g r a :
  startNode g = a -> destNode g = a ->
  shortest_or_none g r -> r = Some [Some a].
Proof.
  intros Hs Hd Hr.
  assert (Hroute : route g [a]).
  { split; [by rewrite Hs|]. split; [by rewrite Hd|].
    intros [|i] x y Hx Hy; simpl in *; done. }
  destruct r as [p|]; [|by apply Hr in Hroute].
  destruct Hr as (nsl & -> & _ & (Hh & Hl & _) & Hmin).
  specialize (Hmin _ Hroute). simpl in Hmin. rewrite Hs in Hh.
  destruct nsl as [|x [|y nsl]]; simpl in *; try lia; try done.
  by injection Hh as ->.
Qed.

Lemma cl_findPath_coincide cv rs :
  anchors_coincide cv ->
  Classes.findPath (Classes.buildGraph cv rs) = Ret (Some [Some origin_node]).
Proof.
  intros Hc. destruct (ClassesSearch.cl_findPath_shortest cv rs) as (r0 & Hr & _ & Hs).
  rewrite Hr. f_equal.
  pose proof (ClassesRoads.cl_buildGraph_anchors cv rs) as (Hst & _ & Hdn).
  unfold anchors_coincide in Hc. rewrite Hc in Hdn.
  by apply (shortest_is_single (Classes.buildGraph cv rs) _ origin_node).
Qed.

Lemma gj_updateCar_coincide cv g :
  anchors_coincide cv ->
  GameJs.updateCar cv g = Ret (with_path (Some [Some origin_node]) g).
Proof.
  intros Hc. unfold GameJs.updateCar.
  destruct (findPath_same cv (roads g)) as (gr & -> & E). simpl.
  rewrite E, (cl_findPath_coincide cv _ Hc). done.
Qed.

Lemma cl_updateCar_coincide cv g :
  anchors_coincide cv ->
  Classes.updateCar cv g = Ret (with_path (Some [Some origin_node]) g).
Proof.
  intros Hc. unfold Classes.updateCar.
  rewrite (cl_findPath_coincide cv _ Hc). done.
Qed.

Lemma run_still (upd : game -> result game) p :
  (forall g, upd g = Ret (with_path p g)) ->
  forall es g,
  exists g', run_with upd es g = Ret g' /\
    score g' = score g /\
    car_x (the_car g') = car_x (the_car g) /\
    car_y (the_car g') = car_y (the_car g) /\
    segIndex (the_car g') = segIndex (the_car g) /\
    progress (the_car g') = progress (the_car g) /\
    path (the_car g') = match frame_count es with 0 => path (the_car g) | _ => p end.
Proof.
  intros Hupd. induction es as [|[|a b] es IH]; intros g.
  - by exists g.
  - rewrite run_with_frame, (Hupd g). simpl mbind.
    destruct (IH (with_path p g)) as (g' & Hg' & H1 & H2 & H3 & H4 & H5 & H6).
    exists g'. split; [done|]. repeat (split; [done|]).
    rewrite H6. simpl. by destruct (frame_count es).
  - rewrite run_with_draw. apply (IH (mouseup a b g)).
Qed.

(** X10.  On a canvas so small that the destination merges with the
    origin, nothing ever happens: whatever roads are drawn, the path that
    both scripts find is the origin node alone; and through every run of
    frames and drawings no frame throws, the car keeps its position, its
    segment index and its progress, the score stays what it was, and from
    the first frame on the car's path is the origin node alone. *)
Theorem X10_coincident_anchors_no_arrival (cv : canvas) (es : list event) (g : game) :
  anchors_coincide cv ->
  forall upd, upd = GameJs.updateCar cv \/ upd = Classes.updateCar cv ->
  (forall rs,
     Classes.findPath (Classes.buildGraph cv rs) = Ret (Some [Some origin_node]) /\
     exists gr, GameJs.buildGraph cv rs = Ret gr /\
                GameJs.findPath gr = Ret (Some [Some origin_node])) /\
  exists g', run_with upd es g = Ret g' /\
    score g' = score g /\
    car_x (the_car g') = car_x (the_car g) /\
    car_y (the_car g') = car_y (the_car g) /\
    segIndex (the_car g') = segIndex (the_car g) /\
    progress (the_car g') = progress (the_car g) /\
    path (the_car g') =
      match frame_count es with
      | 0 => path (the_car g)
      | _ => Some [Some origin_node]
      end.
Proof.
  intros Hc upd Hupd. split.
  - intros rs. split; [by apply cl_findPath_coincide|].
    destruct (findPath_same cv rs) as (gr & Hgr & E). exists gr. split; [done|].
    by rewrite E, (cl_findPath_coincide cv rs Hc).
  - apply (run_still upd (Some [Some origin_node])).
    destruct Hupd as [-> | ->]; intros g0;
      [by apply gj_updateCar_coincide|by apply cl_updateCar_coincide].
Qed.

Lemma X10_coincident_anchors_no_arrival_witness :
  let cv := Canvas 165 162 in
  let es := [Draw (80, 80)%float (300, 80)%float; Frame;
             Draw (300, 80)%float (84, 83)%float; Frame; Frame] in
  anchors_coincide cv /\
  exists g', run_with (Classes.updateCar cv) es initial_game = Ret g' /\ score g' = 0 /\
    path (the_car g') = Some [Some origin_node].
Proof.
  intros cv es.
  assert (Hc : anchors_coincide cv) by reflexivity.
  split; [exact Hc|].
  destruct (X10_coincident_anchors_no_arrival cv es initial_game Hc
              (Classes.updateCar cv) (or_intror eq_refl))
    as (_ & g' & Hg' & Hs & _ & _ & _ & _ & Hp).
  exists g'. split; [exact Hg'|]. split; [exact Hs|exact Hp].
Defined.

(** ** One frame *)

Lemma Car_update_moveCar g : Classes.Car_update g = GameJs.moveCar g.
Proof. reflexivity. Qed.

Lemma at_index_defined (ns : list node) i : at_index (Some <$> ns) i = ns !! i.
Proof. unfold at_index. rewrite list_lookup_fmap. by destruct (ns !! i). Qed.

Lemma shortest_defined g r : shortest_or_none g r -> defined_path r.
Proof.
  destruct r as [p|]; [|done]. intros (ns & -> & _ & (Hh & _) & _).
  exists ns. split; [done|]. destruct ns; [done|simpl; lia].
Qed.

Lemma found_path cv rs :
  exists r, Classes.findPath (Classes.buildGraph cv rs) = Ret r /\ defined_path r /\
    exists gr, GameJs.buildGraph cv rs = Ret gr /\ GameJs.findPath gr = Ret r.
Proof.
  destruct (ClassesSearch.cl_findPath_shortest cv rs) as (r & Hr & _ & Hs).
  exists r. split; [done|]. split; [by eapply shortest_defined|].
  destruct (findPath_same cv rs) as (gr & Hg & E). exists gr. by rewrite E.
Qed.

(** The three ways [moveCar] can go on a path without holes. *)
Lemma moveCar_cases g :
  defined_path (path (the_car g)) ->
  match path (the_car g) with
  | None => GameJs.moveCar g = Ret g
  | Some p =>
      if length p <=? 1 then GameJs.moveCar g = Ret g
      else if length p <=? segIndex (the_car g) + 1 then GameJs.moveCar g = Throw
      else exists g', GameJs.moveCar g = Ret g' /\ frame_step (Some p) g g'
  end.
Proof.
  destruct g as [sc rs [cx cy sp [p|] i pr]]; simpl; [|done].
  intros (ns & -> & Hlen). rewrite length_fmap.
  destruct (Nat.leb_spec (length ns) 1) as [H1|H1].
  - unfold GameJs.moveCar. simpl. rewrite length_fmap.
    destruct (Nat.ltb_spec 1 (length ns)); [lia|done].
  - destruct (Nat.leb_spec (length ns) (i + 1)) as [H2|H2].
    + unfold GameJs.moveCar. simpl. rewrite length_fmap.
      destruct (Nat.ltb_spec 1 (length ns)); [|lia].
      rewrite !at_index_defined.
      rewrite (proj2 (lookup_ge_None ns (i + 1))) by lia. by destruct (ns !! i).
    + unfold GameJs.moveCar. simpl. rewrite length_fmap.
      destruct (Nat.ltb_spec 1 (length ns)); [|lia].
      rewrite !at_index_defined.
      destruct (lookup_lt_is_Some_2 ns i ltac:(lia)) as [a ->].
      destruct (lookup_lt_is_Some_2 ns (i + 1) ltac:(lia)) as [b ->].
      simpl. destruct (geb _ _).
      * destruct (Nat.leb_spec (length ns - 1) (S i)).
        -- eexists. split; [done|]. unfold frame_step, on_segment, at_origin. simpl.
           rewrite length_fmap. repeat split; try done; try lia. by right.
        -- eexists. split; [done|]. unfold frame_step, on_segment. simpl.
           rewrite length_fmap. repeat split; try done; try lia.
      * eexists. split; [done|]. unfold frame_step, on_segment. simpl.
        rewrite length_fmap. repeat split; try done; try lia.
Qed.

Lemma frame_step_idle r g :
  (match r with Some p => length p <= 1 | None => True end) ->
  frame_step r g (with_path r g).
Proof.
  intros Hr. unfold frame_step, on_segment, with_path. simpl.
  repeat split; try done; [|by left].
  destruct r as [p|]; [lia|done].
Qed.

Lemma gj_updateCar_moveCar cv g r :
  Classes.findPath (Classes.buildGraph cv (roads g)) = Ret r ->
  GameJs.updateCar cv g = GameJs.moveCar (with_path r g).
Proof.
  intros Hr. unfold GameJs.updateCar.
  destruct (findPath_same cv (roads g)) as (gr & -> & E). simpl.
  rewrite E, Hr. done.
Qed.

Lemma cl_updateCar_moveCar cv g r :
  Classes.findPath (Classes.buildGraph cv (roads g)) = Ret r ->
  Classes.updateCar cv g =
  GameJs.moveCar (if Classes.stale_index (the_car (with_path r g))
                  then restart (with_path r g) else with_path r g).
Proof.
  intros Hr. unfold Classes.updateCar. rewrite Hr. simpl.
  rewrite Car_update_moveCar. unfold with_path, restart. simpl.
  by destruct (Classes.stale_index _).
Qed.

(** The outcome of a frame, from the path found and the segment index. *)
Lemma gj_updateCar_cases cv g :
  exists r, Classes.findPath (Classes.buildGraph cv (roads g)) = Ret r /\
  match r with
  | None => GameJs.updateCar cv g = Ret (with_path r g)
  | Some p =>
      if length p <=? 1 then GameJs.updateCar cv g = Ret (with_path r g)
      else if length p <=? segIndex (the_car g) + 1 then GameJs.updateCar cv g = Throw
      else exists g', GameJs.updateCar cv g = Ret g' /\ frame_step r g g'
  end.
Proof.
  destruct (found_path cv (roads g)) as (r & Hr & Hdef & _).
  exists r. split; [done|]. rewrite (gj_updateCar_moveCar cv g r Hr).
  pose proof (moveCar_cases (with_path r g) Hdef) as H. simpl in H.
  destruct r as [p|]; [|done].
  destruct (length p <=? 1); [done|].
  destruct (length p <=? segIndex (the_car g) + 1); [done|].
  destruct H as (g' & Hg' & Hstep). by exists g'.
Qed.

Lemma cl_updateCar_cases cv g :
  exists r, Classes.findPath (Classes.buildGraph cv (roads g)) = Ret r /\
  match r with
  | None => Classes.updateCar cv g = Ret (with_path r g)
  | Some p =>
      if length p <=? 1 then Classes.updateCar cv g = Ret (with_path r g)
      else if length p =? segIndex (the_car g) + 1 then Classes.updateCar cv g = Throw
      else exists g', Classes.updateCar cv g = Ret g' /\ frame_step r g g'
  end.
Proof.
  destruct (found_path cv (roads g)) as (r & Hr & Hdef & _).
  exists r. split; [done|]. rewrite (cl_updateCar_moveCar cv g r Hr).
  destruct r as [p|]; [|reflexivity].
  unfold Classes.stale_index. simpl.
  destruct (Nat.ltb_spec 1 (length p)) as [H1|H1];
    destruct (Nat.leb_spec (length p) 1) as [H1'|H1']; try lia; simpl.
  - destruct (Nat.leb_spec (length p) (segIndex (the_car g))) as [H2|H2].
    + pose proof (moveCar_cases (restart (with_path (Some p) g)) Hdef) as H. simpl in H.
      destruct (Nat.leb_spec (length p) 1); [lia|].
      destruct (Nat.leb_spec (length p) (0 + 1)); [lia|].
      destruct (Nat.eqb_spec (length p) (segIndex (the_car g) + 1)); [lia|].
      destruct H as (g' & Hg' & Hstep). by exists g'.
    + pose proof (moveCar_cases (with_path (Some p) g) Hdef) as H. simpl in H.
      destruct (Nat.leb_spec (length p) 1); [lia|].
      destruct (Nat.leb_spec (length p) (segIndex (the_car g) + 1));
        destruct (Nat.eqb_spec (length p) (segIndex (the_car g) + 1)); try lia; [done|].
      destruct H as (g' & Hg' & Hstep). by exists g'.
  - pose proof (moveCar_cases (with_path (Some p) g) Hdef) as H. simpl in H.
    by destruct (Nat.leb_spec (length p) 1); [|lia].
Qed.

(** What a frame that returns has done. *)
Lemma updateCar_frame_step (cv : canvas) (g g' : game) (upd : game -> result game) :
  upd = GameJs.updateCar cv \/ upd = Classes.updateCar cv ->
  upd g = Ret g' ->
  exists r, Classes.findPath (Classes.buildGraph cv (roads g)) = Ret r /\
    frame_step r g g'.
Proof.
  intros [-> | ->] Hg'.
  - destruct (gj_updateCar_cases cv g) as (r & Hr & H). exists r. split; [done|].
    destruct r as [p|].
    + destruct (Nat.leb_spec (length p) 1).
      * rewrite H in Hg'. injection Hg' as <-. by apply frame_step_idle.
      * destruct (length p <=? segIndex (the_car g) + 1); [congruence|].
        destruct H as (g0 & Hg0 & Hstep). congruence.
    + rewrite H in Hg'. injection Hg' as <-. by apply frame_step_idle.
  - destruct (cl_updateCar_cases cv g) as (r & Hr & H). exists r. split; [done|].
    destruct r as [p|].
    + destruct (Nat.leb_spec (length p) 1).
      * rewrite H in Hg'. injection Hg' as <-. by apply frame_step_idle.
      * destruct (length p =? segIndex (the_car g) + 1); [congruence|].
        destruct H as (g0 & Hg0 & Hstep). congruence.
    + rewrite H in Hg'. injection Hg' as <-. by apply frame_step_idle.
Qed.

(** X11.  A frame either throws or returns, and when it returns it has
    kept the roads and the speed, has set the car's path to the path just
    found, has left the segment index on a segment of that path, and has
    left the score as it was or raised it by exactly one; the score is
    raised only as [resetCar] puts the car back at the origin with segment
    index 0 and progress 0. *)
Theorem X11_frame_steps (cv : canvas) (g : game) (upd : game -> result game) :
  upd = GameJs.updateCar cv \/ upd = Classes.updateCar cv ->
  exists r, Classes.findPath (Classes.buildGraph cv (roads g)) = Ret r /\
    (upd g = Throw \/ exists g', upd g = Ret g' /\ frame_step r g g').
Proof.
  intros Hupd.
  destruct (found_path cv (roads g)) as (r & Hr & _). exists r. split; [done|].
  destruct (upd g) as [g'| |] eqn:E.
  - right. exists g'. split; [done|].
    destruct (updateCar_frame_step cv g g' upd Hupd E) as (r' & Hr' & Hstep).
    by assert (r' = r) as -> by congruence.
  - by left.
  - exfalso. destruct Hupd as [-> | ->].
    + destruct (gj_updateCar_cases cv g) as (r' & _ & H).
      destruct r' as [p|]; [|congruence].
      destruct (length p <=? 1); [congruence|].
      destruct (length p <=? segIndex (the_car g) + 1); [congruence|].
      destruct H as (? & ? & _). congruence.
    + destruct (cl_updateCar_cases cv g) as (r' & _ & H).
      destruct r' as [p|]; [|congruence].
      destruct (length p <=? 1); [congruence|].
      destruct (length p =? segIndex (the_car g) + 1); [congruence|].
      destruct H as (? & ? & _). congruence.
Qed.

Lemma X11_frame_steps_witness :
  let cv := Canvas 190 160 in
  let g := Game 3 [Road 80 80 110 80] (Car 108 80 2 None 0 0.9375) in
  exists g' r, Classes.updateCar cv g = Ret g' /\
    Classes.findPath (Classes.buildGraph cv (roads g)) = Ret r /\
    frame_step r g g' /\ score g' = 4.
Proof.
  intros cv g.
  assert (Hrun : exists g', Classes.updateCar cv g = Ret g' /\ score g' = 4).
  { eexists. split; vm_compute; reflexivity. }
  destruct Hrun as (g' & Hg' & Hs).
  destruct (X11_frame_steps cv g (Classes.updateCar cv) (or_intror eq_refl))
    as (r & Hr & [Hthrow|(g1 & Hg1 & Hstep)]).
  - rewrite Hg' in Hthrow. discriminate Hthrow.
  - assert (E : g1 = g') by (rewrite Hg' in Hg1; injection Hg1 as ->; reflexivity).
    rewrite E in Hstep.
    exists g', r. split; [exact Hg'|]. split; [exact Hr|]. split; [exact Hstep|exact Hs].
Defined.

(** X12.  When a frame throws.  [game.js] throws exactly when the path
    found has two nodes or more and [segIndex + 1] is not an index of it.
    The class-based script throws exactly when the path found has two
    nodes or more and [segIndex + 1] is its length: its guard catches the
    indices from the length on, and lets the last index through.  Neither
    script loops for ever. *)
Theorem X12_frame_throws (cv : canvas) (g : game) :
  exists r, Classes.findPath (Classes.buildGraph cv (roads g)) = Ret r /\
    (GameJs.updateCar cv g = Throw <->
       exists p, r = Some p /\ 1 < length p /\ length p <= segIndex (the_car g) + 1) /\
    (Classes.updateCar cv g = Throw <->
       exists p, r = Some p /\ 1 < length p /\ length p = segIndex (the_car g) + 1) /\
    GameJs.updateCar cv g <> Timeout /\ Classes.updateCar cv g <> Timeout.
Proof.
  destruct (gj_updateCar_cases cv g) as (r & Hr & Hgj).
  destruct (cl_updateCar_cases cv g) as (r' & Hr' & Hcl).
  assert (r' = r) as -> by congruence.
  exists r. split; [done|].
  destruct r as [p|].
  - destruct (Nat.leb_spec (length p) 1) as [H1|H1].
    + rewrite Hgj, Hcl. repeat split; try done; intros (p' & [= <-] & ? & ?); lia.
    + destruct (Nat.leb_spec (length p) (segIndex (the_car g) + 1)) as [H2|H2];
        destruct (Nat.eqb_spec (length p) (segIndex (the_car g) + 1)) as [H3|H3];
        try lia.
      * rewrite Hgj, Hcl. repeat split; try done; by exists p.
      * destruct Hcl as (g' & -> & _). rewrite Hgj.
        repeat split; try done; try (by exists p); intros (p' & [= <-] & ? & ?); lia.
      * destruct Hgj as (g' & -> & _). destruct Hcl as (g'' & -> & _).
        repeat split; try done; intros (p' & [= <-] & ? & ?); lia.
  - rewrite Hgj, Hcl. repeat split; try done; by intros (p' & [=] & _).
Qed.

(** X13.  The two [updateCar]s differ by the guard of the class-based
    script and nothing else: when the guard does not fire, a frame of one
    is a frame of the other; when it fires, [game.js] throws, and the
    class-based script does what [game.js] would do with the car put back
    on segment 0 at progress 0, which is not to throw. *)
Theorem X13_scripts_agree (cv : canvas) (g : game) :
  exists r, Classes.findPath (Classes.buildGraph cv (roads g)) = Ret r /\
    if Classes.stale_index (the_car (with_path r g))
    then GameJs.updateCar cv g = Throw /\
         Classes.updateCar cv g = GameJs.updateCar cv (restart g) /\
         exists g', Classes.updateCar cv g = Ret g'
    else Classes.updateCar cv g = GameJs.updateCar cv g.
Proof.
  destruct (found_path cv (roads g)) as (r & Hr & Hdef & _).
  exists r. split; [done|].
  rewrite (cl_updateCar_moveCar cv g r Hr), (gj_updateCar_moveCar cv g r Hr).
  rewrite (gj_updateCar_moveCar cv (restart g) r Hr).
  destruct (Classes.stale_index _) eqn:E; [|done].
  unfold Classes.stale_index in E. simpl in E.
  destruct r as [p|]; [|done]. apply andb_prop in E as [H1%Nat.ltb_lt H2%Nat.leb_le].
  split; [|split; [done|]].
  - pose proof (moveCar_cases (with_path (Some p) g) Hdef) as H. simpl in H.
    destruct (Nat.leb_spec (length p) 1); [lia|].
    by destruct (Nat.leb_spec (length p) (segIndex (the_car g) + 1)); [|lia].
  - pose proof (moveCar_cases (restart (with_path (Some p) g)) Hdef) as H. simpl in H.
    destruct (Nat.leb_spec (length p) 1); [lia|].
    destruct (Nat.leb_spec (length p) (0 + 1)); [lia|].
    destruct H as (g' & Hg' & _). by exists g'.
Qed.

(** ** Runs *)

Lemma in_step_frame cv g upd :
  upd = GameJs.updateCar cv \/ upd = Classes.updateCar cv ->
  in_step cv g ->
  exists g' r, upd g = Ret g' /\
    Classes.findPath (Classes.buildGraph cv (roads g)) = Ret r /\ frame_step r g g'.
Proof.
  intros [-> | ->] Hin.
  - destruct (gj_updateCar_cases cv g) as (r & Hr & H).
    destruct r as [p|].
    + destruct (Nat.leb_spec (length p) 1).
      * eexists _, _. split; [done|]. split; [done|]. by apply frame_step_idle.
      * specialize (Hin p Hr ltac:(done)).
        destruct (Nat.leb_spec (length p) (segIndex (the_car g) + 1)); [lia|].
        destruct H as (g' & Hg' & Hstep). by exists g', (Some p).
    + eexists _, _. split; [done|]. split; [done|]. by apply frame_step_idle.
  - destruct (cl_updateCar_cases cv g) as (r & Hr & H).
    destruct r as [p|].
    + destruct (Nat.leb_spec (length p) 1).
      * eexists _, _. split; [done|]. split; [done|]. by apply frame_step_idle.
      * specialize (Hin p Hr ltac:(done)).
        destruct (Nat.eqb_spec (length p) (segIndex (the_car g) + 1)); [lia|].
        destruct H as (g' & Hg' & Hstep). by exists g', (Some p).
    + eexists _, _. split; [done|]. split; [done|]. by apply frame_step_idle.
Qed.

Lemma frame_step_in_step cv r g g' :
  Classes.findPath (Classes.buildGraph cv (roads g)) = Ret r ->
  frame_step r g g' -> in_step cv g'.
Proof.
  intros Hr (Hroads & _ & Hpath & Hon & _) p Hp Hlen.
  rewrite Hroads, Hr in Hp. injection Hp as ->.
  unfold on_segment in Hon. rewrite Hpath in Hon. by apply Hon.
Qed.

(** X14.  As long as nothing is drawn, no frame throws: from a game whose
    segment index fits the path of its roads (index 0 always does), any
    number of frames runs through, the roads stay, the index keeps
    fitting, and the score goes up by at most one a frame. *)
Theorem X14_steady_roads_never_throw (cv : canvas) (g : game) (n : nat)
    (upd : game -> result game) :
  upd = GameJs.updateCar cv \/ upd = Classes.updateCar cv ->
  in_step cv g ->
  exists g', run_with upd (frames n) g = Ret g' /\
    roads g' = roads g /\ in_step cv g' /\
    score g <= score g' <= score g + n.
Proof.
  intros Hupd. revert g. induction n as [|n IH]; intros g Hin.
  - exists g. split; [done|]. split; [done|]. split; [done|lia].
  - change (frames (S n)) with (Frame :: frames n). rewrite run_with_frame.
    destruct (in_step_frame cv g upd Hupd Hin) as (g1 & r & -> & Hr & Hstep).
    simpl. destruct (IH g1 (frame_step_in_step cv r g g1 Hr Hstep))
      as (g' & Hg' & Hroads & Hin' & Hsc).
    exists g'. split; [done|].
    destruct Hstep as (Hr1 & _ & _ & _ & Hs1).
    split; [congruence|]. split; [done|].
    destruct Hs1 as [?|[? _]]; lia.
Qed.

Lemma X14_steady_roads_never_throw_witness :
  let cv := Canvas 800 600 in
  let g := Game 0 [Road 80 80 400 100; Road 400 100 720 520] initial_car in
  in_step cv g /\
  exists g', run_with (GameJs.updateCar cv) (frames 1000) g = Ret g' /\
    roads g' = roads g.
Proof.
  intros cv g.
  assert (Hin : in_step cv g) by (intros p _ Hlen; simpl; lia).
  split; [exact Hin|].
  destruct (X14_steady_roads_never_throw cv g 1000 (GameJs.updateCar cv)
              (or_introl eq_refl) Hin) as (g' & Hg' & Hr & _).
  exists g'. split; [exact Hg'|exact Hr].
Defined.

Lemma frame_count_cons_frame es : frame_count (Frame :: es) = S (frame_count es).
Proof. reflexivity. Qed.

Lemma frame_count_cons_draw a b es : frame_count (Draw a b :: es) = frame_count es.
Proof. reflexivity. Qed.

(** X15.  Over a run of frames and drawings that does not throw, the score
    never goes down and goes up by at most one a frame; the roads are the
    roads before with the drawings of the run added at the end, in order,
    so no road is ever removed or changed; and the speed stays. *)
Theorem X15_run_score_and_roads (cv : canvas) (es : list event) (g g' : game)
    (upd : game -> result game) :
  upd = GameJs.updateCar cv \/ upd = Classes.updateCar cv ->
  run_with upd es g = Ret g' ->
  score g <= score g' <= score g + frame_count es /\
  roads g' = roads_after es (roads g) /\
  roads g `prefix_of` roads g' /\
  speed (the_car g') = speed (the_car g).
Proof.
  intros Hupd. revert g. induction es as [|[|a b] es IH]; intros g Hrun.
  - injection Hrun as <-. simpl. split; [lia|done].
  - rewrite run_with_frame in Hrun.
    destruct (upd g) as [g1| |] eqn:E1; try done. simpl in Hrun.
    destruct (updateCar_frame_step cv g g1 upd Hupd E1) as (r & _ & (Hr & Hsp & _ & _ & Hsc)).
    destruct (IH g1 Hrun) as (Hs1 & Hr1 & Hp1 & Hv1).
    rewrite frame_count_cons_frame. simpl. rewrite <- Hr, <- Hsp.
    split; [|done]. destruct Hsc as [?|[? _]]; lia.
  - rewrite run_with_draw in Hrun.
    destruct (IH (mouseup a b g) Hrun) as (Hs1 & Hr1 & Hp1 & Hv1).
    rewrite frame_count_cons_draw. simpl in *.
    split; [done|]. split; [done|]. split; [|done].
    etrans; [|exact Hp1]. unfold add_road. destruct (gtb _ _); [by apply prefix_app_r|done].
Qed.

Lemma X15_run_score_and_roads_witness :
  let cv := Canvas 190 160 in
  let es := [Draw (80, 80)%float (110, 80)%float] ++ frames 40 ++
            [Draw (10, 10)%float (12, 12)%float; Draw (90, 90)%float (10, 12)%float] in
  exists g', run_with (GameJs.updateCar cv) es initial_game = Ret g' /\
    score g' = 2 /\ frame_count es = 40 /\
    roads g' = [Road 80 80 110 80; Road 90 90 10 12].
Proof.
  intros cv es.
  assert (Hrun : exists g', run_with (GameJs.updateCar cv) es initial_game = Ret g' /\
                   score g' = 2).
  { eexists. split; vm_compute; reflexivity. }
  destruct Hrun as (g' & Hg' & Hs).
  destruct (X15_run_score_and_roads cv es initial_game g' (GameJs.updateCar cv)
              (or_introl eq_refl) Hg') as (_ & Hr & _).
  exists g'. split; [exact Hg'|]. split; [exact Hs|]. split; [reflexivity|exact Hr].
Defined.

(** ** The progress is a fraction *)

(** A positive number divided by a number that is not negative. *)
Lemma SFdiv_pos_nonneg mx ex h :
  sf_nan h = false -> sf_nonneg h = true ->
  sf_nan (SF64div (S754_finite false mx ex) h) = false /\
  sf_nonneg (SF64div (S754_finite false mx ex) h) = true.
Proof.
  destruct h as [[]|[]| |[] mh eh]; simpl; try done.
  intros _ _. unfold SF64div, SFdiv.
  pose proof (SFdiv_core_nonneg mx ex mh eh) as H.
  destruct (SFdiv_core_binary prec emax (Zpos mx) ex (Zpos mh) eh) as [[mz ez] lz].
  simpl in H. cbn [xorb].
  split; [by apply binary_round_aux_not_nan|by rewrite binary_round_aux_sign].
Qed.

Lemma SFleb_false_SFltb x y :
  sf_nan x = false -> sf_nan y = false -> SFleb x y = false -> SFltb y x = true.
Proof.
  intros Hx Hy. unfold SFltb, SFleb. rewrite (SFcompare_antisym x y).
  destruct (SFcompare x y) as [[]|] eqn:E; simpl; try done.
  destruct x, y; simpl in *; try done.
Qed.

(** Adding a number that is not negative to a fraction: the sum is a
    number, not negative; so it is a fraction again unless it is 1 or more. *)
Lemma add_fraction p q :
  (0 <=? p)%float && (p <? 1)%float = true ->
  sf_nan (Prim2SF q) = false -> sf_nonneg (Prim2SF q) = true ->
  geb (p + q) 1 = false ->
  (0 <=? p + q)%float && (p + q <? 1)%float = true.
Proof.
  unfold geb. rewrite !leb_spec, !ltb_spec, add_spec.
  change (Prim2SF 0) with (S754_zero false).
  set (one := Prim2SF 1). intros [Hp0 Hp1]%andb_prop Hq Hqs Hge.
  assert (H : sf_nan (SF64add (Prim2SF p) (Prim2SF q)) = false /\
              SFleb (S754_zero false) (SF64add (Prim2SF p) (Prim2SF q)) = true).
  { destruct (Prim2SF p) as [sp|[]| |[] mp ep]; try done.
    - destruct (Prim2SF q) as [[]|[]| |[] mq eq]; try done. by destruct sp.
    - destruct (SFadd_nonneg (S754_finite false mp ep) (Prim2SF q)) as [Hn Hs]; try done.
      split; [done|].
      by destruct (SF64add (S754_finite false mp ep) (Prim2SF q)) as [[]|[]| |[] ? ?]. }
  destruct H as [Hn H0]. rewrite H0. simpl.
  by apply SFleb_false_SFltb.
Qed.

(** The share [speed / segLength] of a segment between finite points. *)
Lemma step_nonneg (a b c d : float) :
  is_finite a = true -> is_finite b = true ->
  is_finite c = true -> is_finite d = true ->
  sf_nan (Prim2SF (2 / hypot (a - b) (c - d))) = false /\
  sf_nonneg (Prim2SF (2 / hypot (a - b) (c - d))) = true.
Proof.
  rewrite !is_finite_spec. intros Ha Hb Hc Hd.
  destruct (hypot_nonneg (a - b) (c - d)) as [Hn Hs];
    [rewrite is_nan_spec, sub_spec; by apply SFsub_not_nan..|].
  rewrite div_spec. by apply (SFdiv_pos_nonneg 4503599627370496 (-51)).
Qed.

Lemma at_index_elem p i n : at_index p i = Some n -> Some n ∈ p.
Proof.
  unfold at_index. destruct (p !! i) as [[m|]|] eqn:E; simpl; try done.
  intros [= ->]. apply list_elem_of_lookup. eauto.
Qed.

Lemma moveCar_unit_progress g g' :
  (forall p n, path (the_car g) = Some p -> Some n ∈ p -> finite_node n = true) ->
  speed (the_car g) = 2%float ->
  unit_progress (the_car g) = true ->
  GameJs.moveCar g = Ret g' ->
  unit_progress (the_car g') = true.
Proof.
  intros Hfin Hsp Hu. unfold GameJs.moveCar.
  destruct (path (the_car g)) as [p|] eqn:Hp; [|by intros [= <-]].
  destruct (1 <? length p); [|by intros [= <-]].
  destruct (at_index p (segIndex (the_car g))) as [curr|] eqn:Hc; [|done].
  destruct (at_index p (segIndex (the_car g) + 1)) as [next|] eqn:Hn; [|done].
  pose proof (Hfin p curr eq_refl (at_index_elem _ _ _ Hc)) as [Hcx Hcy]%andb_prop.
  pose proof (Hfin p next eq_refl (at_index_elem _ _ _ Hn)) as [Hnx Hny]%andb_prop.
  simpl. destruct (geb _ _) eqn:Hge.
  - destruct (_ <=? _); by intros [= <-].
  - intros [= <-]. unfold unit_progress. simpl.
    rewrite Hsp in *.
    destruct (step_nonneg (node_x next) (node_x curr) (node_y next) (node_y curr))
      as [Hq Hqs]; try done.
    by apply add_fraction.
Qed.

Lemma add_road_finite a b rs :
  finite_event (Draw a b) = true -> forallb finite_road rs = true ->
  forallb finite_road (add_road a b rs) = true.
Proof.
  intros Hf Hrs. unfold add_road. destruct (gtb _ _); [|done].
  rewrite forallb_app, Hrs. simpl. unfold finite_road. simpl.
  simpl in Hf. by rewrite Hf.
Qed.

Lemma found_finite cv rs r p n :
  finite_canvas cv = true -> forallb finite_road rs = true ->
  Classes.findPath (Classes.buildGraph cv rs) = Ret r ->
  r = Some p -> Some n ∈ p -> finite_node n = true.
Proof.
  intros Hcv Hrs Hr -> Hin.
  destruct (ClassesSearch.cl_findPath_shortest cv rs) as (r0 & Hr0 & _ & Hs).
  rewrite Hr in Hr0. injection Hr0 as <-.
  destruct Hs as (ns & -> & Hall & _).
  apply list_elem_of_fmap in Hin as (m & [= ->] & Hm).
  rewrite Forall_forall in Hall. specialize (Hall _ Hm).
  destruct (spread_buildGraph cv rs Hcv Hrs) as [_ Hfin].
  rewrite Forall_forall in Hfin. by apply Hfin.
Qed.

Lemma updateCar_unit_progress cv g g' upd :
  upd = GameJs.updateCar cv \/ upd = Classes.updateCar cv ->
  finite_canvas cv = true -> forallb finite_road (roads g) = true ->
  speed (the_car g) = 2%float ->
  unit_progress (the_car g) = true ->
  upd g = Ret g' ->
  unit_progress (the_car g') = true.
Proof.
  intros Hupd Hcv Hrs Hsp Hu Hg'.
  destruct (found_path cv (roads g)) as (r & Hr & _).
  destruct Hupd as [-> | ->].
  - rewrite (gj_updateCar_moveCar cv g r Hr) in Hg'.
    apply (moveCar_unit_progress _ _) in Hg'; try done.
    simpl. intros p n -> Hin. by eapply found_finite.
  - rewrite (cl_updateCar_moveCar cv g r Hr) in Hg'.
    apply (moveCar_unit_progress _ _) in Hg'; try done.
    + destruct (Classes.stale_index _); simpl; intros p n -> Hin; by eapply found_finite.
    + by destruct (Classes.stale_index _).
    + by destruct (Classes.stale_index _).
Qed.

(** X16.  The progress stays a fraction of the segment.  On a canvas and
    with drawings of finite coordinates, a car of speed 2 whose progress
    is at least 0 and below 1 has such a progress again after every run
    that does not throw: the sum [progress + speed / segLength] is a
    number, it is not negative, and it is kept only when it is below 1. *)
Theorem X16_progress_stays_fraction (cv : canvas) (es : list event) (g g' : game)
    (upd : game -> result game) :
  upd = GameJs.updateCar cv \/ upd = Classes.updateCar cv ->
  finite_canvas cv = true ->
  forallb finite_road (roads g) = true ->
  forallb finite_event es = true ->
  speed (the_car g) = 2%float ->
  unit_progress (the_car g) = true ->
  run_with upd es g = Ret g' ->
  unit_progress (the_car g') = true.
Proof.
  intros Hupd Hcv. revert g.
  induction es as [|[|a b] es IH]; intros g Hrs Hes Hsp Hu Hrun.
  - by injection Hrun as <-.
  - rewrite run_with_frame in Hrun.
    destruct (upd g) as [g1| |] eqn:E1; try done. simpl in Hrun.
    destruct (updateCar_frame_step cv g g1 upd Hupd E1) as (r & _ & (Hr & Hsp1 & _)).
    apply (IH g1); try done.
    + by rewrite Hr.
    + by rewrite Hsp1.
    + by eapply updateCar_unit_progress.
  - rewrite run_with_draw in Hrun. simpl in Hes.
    apply andb_prop in Hes as [He Hes].
    apply (IH (mouseup a b g)); try done.
    simpl. by apply add_road_finite.
Qed.

Lemma X16_progress_stays_fraction_witness :
  let cv := Canvas 800 600 in
  let es := [Draw (80, 80)%float (720, 520)%float] ++ frames 100 in
  exists g', run_with (GameJs.updateCar cv) es initial_game = Ret g' /\
    unit_progress (the_car g') = true.
Proof.
  intros cv es.
  assert (Hrun : exists g', run_with (GameJs.updateCar cv) es initial_game = Ret g').
  { eexists. vm_compute. reflexivity. }
  destruct Hrun as [g' Hg']. exists g'. split; [exact Hg'|].
  exact (X16_progress_stays_fraction cv es initial_game g' (GameJs.updateCar cv)
           (or_introl eq_refl) eq_refl eq_refl eq_refl eq_refl eq_refl Hg').
Defined.

(** ** The mouse *)

Lemma add_road_long a b rs :
  forallb long_road rs = true -> forallb long_road (add_road a b rs) = true.
Proof.
  intros H. unfold add_road. destruct (gtb _ _) eqn:E; [|done].
  rewrite forallb_app, H. simpl. unfold long_road. simpl. by rewrite E.
Qed.

(** X17.  Every road that is kept is longer than 5, as the [mouseup]
    listener measures it, and no frame changes that: if it holds of the
    roads before a run, it holds of the roads after. *)
Theorem X17_roads_are_long (cv : canvas) (es : list event) (g g' : game)
    (upd : game -> result game) :
  upd = GameJs.updateCar cv \/ upd = Classes.updateCar cv ->
  forallb long_road (roads g) = true ->
  run_with upd es g = Ret g' ->
  forallb long_road (roads g') = true.
Proof.
  intros Hupd. revert g. induction es as [|[|a b] es IH]; intros g Hl Hrun.
  - by injection Hrun as <-.
  - rewrite run_with_frame in Hrun.
    destruct (upd g) as [g1| |] eqn:E1; try done. simpl in Hrun.
    destruct (updateCar_frame_step cv g g1 upd Hupd E1) as (r & _ & (Hr & _)).
    apply (IH g1); [by rewrite Hr|done].
  - rewrite run_with_draw in Hrun. apply (IH (mouseup a b g)); [|done].
    simpl. by apply add_road_long.
Qed.

Lemma X17_roads_are_long_witness :
  let cv := Canvas 800 600 in
  let es := [Draw (80, 80)%float (83, 84)%float; Frame;
             Draw (80, 80)%float (83, 84.5)%float; Frame] in
  exists g', run_with (Classes.updateCar cv) es initial_game = Ret g' /\
    roads g' = [Road 80 80 83 84.5] /\ forallb long_road (roads g') = true.
Proof.
  intros cv es.
  assert (Hrun : exists g', run_with (Classes.updateCar cv) es initial_game = Ret g' /\
                   roads g' = [Road 80 80 83 84.5]).
  { eexists. split; vm_compute; reflexivity. }
  destruct Hrun as (g' & Hg' & Hr). exists g'. split; [exact Hg'|]. split; [exact Hr|].
  exact (X17_roads_are_long cv es initial_game g' (Classes.updateCar cv)
           (or_intror eq_refl) eq_refl Hg').
Defined.

(** ** The browser's calls *)

Lemma play_cons tick i ins w :
  play tick (i :: ins) w =
  w' ← match i with
       | Tick => tick w
       | MouseDown rect e => Ret (on_mousedown rect e w)
       | MouseMove rect e => Ret (on_mousemove rect e w)
       | MouseUp rect e => Ret (on_mouseup rect e w)
       end; play tick ins w'.
Proof. reflexivity. Qed.

(** A run of calls, frame by frame and drawing by drawing. *)
Lemma play_events tick upd :
  (forall w, tick w = frame_of upd w) ->
  forall ins w,
  play tick ins w =
  g' ← run_with upd (events_of (the_pointer w) ins) (globals w);
  Ret (World g' (fold_left pointer_step ins (the_pointer w))).
Proof.
  intros Htick ins. induction ins as [|i ins IH]; intros [g p]; [done|].
  rewrite play_cons. cbn [events_of fold_left globals the_pointer].
  destruct i as [|rect e|rect e|rect e]; cbn [pointer_step].
  - change ([Frame] ++ events_of p ins) with (Frame :: events_of p ins).
    rewrite run_with_frame, Htick. unfold frame_of. simpl.
    destruct (upd g) as [g1| |]; simpl; [|done..].
    apply (IH (World g1 p)).
  - simpl. apply (IH (on_mousedown rect e (World g p))).
  - simpl. rewrite (IH (on_mousemove rect e (World g p))).
    unfold on_mousemove. simpl. by destruct (isDrawing p) eqn:E; simpl; rewrite ?E.
  - simpl. rewrite (IH (on_mouseup rect e (World g p))).
    unfold on_mouseup. simpl. destruct (isDrawing p); simpl; [|done].
    by rewrite run_with_draw.
Qed.

Lemma SFsub_self a : SF64sub a a = S754_zero false \/ SF64sub a a = S754_nan.
Proof.
  destruct a as [[]|[]| |s m e]; simpl; auto.
  left. by rewrite Z.sub_diag.
Qed.

Lemma hypot_self x y : gtb (hypot (x - x) (y - y)) 5 = false.
Proof.
  unfold gtb. rewrite ltb_spec, hypot_spec, !sub_spec.
  by destruct (SFsub_self (Prim2SF x)) as [-> | ->],
              (SFsub_self (Prim2SF y)) as [-> | ->].
Qed.

(** X18.  A click draws nothing.  When the button is released where it was
    pressed, with any moves of the mouse in between, no road is added and
    the drawing is over, whatever the coordinates: the length measured is
    0, or not a number, and neither is above 5. *)
Theorem X18_click_adds_no_road (rect : dom_rect) (e : mouse_event) (w : world)
    (moves : list input) :
  Forall (fun i => exists rect' e', i = MouseMove rect' e') moves ->
  forall tick,
  play tick (MouseDown rect e :: moves ++ [MouseUp rect e]) w =
  Ret (World (globals w)
             (Pointer false (canvas_pos rect e)
                (mousePos (fold_left pointer_step moves
                   (Pointer true (canvas_pos rect e) (mousePos (the_pointer w))))))).
Proof.
  intros Hm tick. rewrite play_cons. simpl mbind.
  assert (H : forall w0, isDrawing (the_pointer w0) = true ->
            play tick (moves ++ [MouseUp rect e]) w0 =
            Ret (World (mouseup (drawStart (the_pointer w0)) (canvas_pos rect e) (globals w0))
                   (Pointer false (drawStart (the_pointer w0))
                      (mousePos (fold_left pointer_step moves (the_pointer w0)))))).
  { induction Hm as [|i moves (rect' & e' & ->) _ IH]; intros [g0 p0] Hd; simpl in Hd.
    - rewrite app_nil_l, play_cons. simpl. unfold on_mouseup. simpl. by rewrite Hd.
    - rewrite <- app_comm_cons, play_cons. simpl mbind.
      unfold on_mousemove. simpl. rewrite Hd.
      by rewrite IH. }
  rewrite H by done. simpl. f_equal. f_equal.
  destruct (globals w) as [sc rs c]. unfold mouseup, add_road. simpl.
  by rewrite hypot_self.
Qed.

Lemma X18_click_adds_no_road_witness :
  let rect := DomRect 8 8 in
  let e := MouseEvent 308 208 in
  exists w', play (frame_of (GameJs.updateCar (Canvas 800 600)))
               [MouseDown rect e; MouseMove rect (MouseEvent 309 208); MouseUp rect e]
               initial_world = Ret w' /\
    roads (globals w') = [] /\ isDrawing (the_pointer w') = false.
Proof.
  intros rect e. eexists. split.
  - refine (X18_click_adds_no_road rect e initial_world
              [MouseMove rect (MouseEvent 309 208)] _ _).
    constructor; [|constructor]. by exists rect, (MouseEvent 309 208).
  - split; reflexivity.
Defined.

(** ** Drawing *)

Lemma in_order_cons d ds :
  snd (in_order (d :: ds)) =
  match snd d with Done => snd (in_order ds) | e => e end.
Proof. destruct d as [ops []]; reflexivity. Qed.

Lemma draws_then ops b : snd (and_then (draws ops) b) = snd b.
Proof. reflexivity. Qed.

Lemma for_grid_not_threw limit body : forall fuel x,
  snd (for_grid fuel limit body x) <> Threw.
Proof.
  induction fuel as [|fuel IH]; intros x; simpl; [done|].
  destruct (x <? limit)%float; [|done]. rewrite draws_then. apply IH.
Qed.

(** The loop ends as soon as its counter is not below the limit. *)
Lemma for_grid_done limit body : forall n fuel x,
  (accumulate x gridSize n <? limit)%float = false -> n < fuel ->
  snd (for_grid fuel limit body x) = Done.
Proof.
  induction n as [|n IH]; intros fuel x Hn Hf;
    (destruct fuel as [|fuel]; [lia|]); simpl in *.
  - by rewrite Hn.
  - destruct (x <? limit)%float; [|done]. rewrite draws_then.
    apply IH; [done|lia].
Qed.

Lemma not_above_100000 limit :
  gtb limit 100000 = false -> (accumulate 0 gridSize grid_steps <? limit)%float = false.
Proof.
  intros H. replace (accumulate 0 gridSize grid_steps) with 100000%float; [done|].
  vm_compute. reflexivity.
Qed.

Lemma drawGrid_not_threw fuel cv : snd (drawGrid fuel cv) <> Threw.
Proof.
  unfold drawGrid. rewrite !in_order_cons. simpl snd at 1. cbn iota.
  pose proof (for_grid_not_threw (width cv)
    (fun x => [BeginPath; MoveTo x 0; LineTo x (height cv); Stroke]) fuel 0) as H1.
  pose proof (for_grid_not_threw (height cv)
    (fun y => [BeginPath; MoveTo 0 y; LineTo (width cv) y; Stroke]) fuel 0) as H2.
  destruct (snd (for_grid fuel (width cv) _ _)); try done.
  destruct (snd (for_grid fuel (height cv) _ _)); done.
Qed.

Lemma drawGrid_done fuel cv :
  fits cv = true -> grid_fuel <= fuel -> snd (drawGrid fuel cv) = Done.
Proof.
  unfold fits, grid_fuel. intros [Hw%negb_true_iff Hh%negb_true_iff]%andb_prop Hf.
  unfold drawGrid. rewrite !in_order_cons. simpl snd at 1. cbn iota.
  rewrite (for_grid_done _ _ grid_steps) by (by apply not_above_100000 || lia).
  by rewrite (for_grid_done _ _ grid_steps) by (by apply not_above_100000 || lia).
Qed.

Lemma line_to_each_defined (ns : list node) : snd (line_to_each (Some <$> ns)) = Done.
Proof. induction ns as [|n ns IH]; simpl; [done|]. exact IH. Qed.

Lemma draw_path_defined r : defined_path r -> snd (draw_path r) = Done.
Proof.
  destruct r as [p|]; [|done]. intros (ns & -> & Hlen). unfold draw_path.
  rewrite in_order_cons. simpl snd at 1. cbn iota.
  rewrite in_order_cons, at_index_defined.
  destruct ns as [|n ns]; [simpl in Hlen; lia|]. simpl lookup. cbn iota.
  rewrite !in_order_cons. simpl snd at 1. cbn iota.
  simpl drop. rewrite drop_0, line_to_each_defined. done.
Qed.

(** X19.  [drawGrid] never throws.  On a canvas whose sides are at most
    100000 each of its two loops ends within 5000 rounds, so that it runs
    to its end; and on a canvas whose sides are not above 0, or not
    numbers, it sets the style and draws no line. *)
Theorem X19_drawGrid_ends (cv : canvas) (fuel : nat) :
  snd (drawGrid fuel cv) <> Threw /\
  (fits cv = true -> grid_fuel <= fuel -> snd (drawGrid fuel cv) = Done) /\
  ((0 <? width cv)%float = false -> (0 <? height cv)%float = false ->
     drawGrid (S fuel) cv = ([StrokeStyle "#444"; LineWidth 1], Done)).
Proof.
  split; [apply drawGrid_not_threw|]. split; [apply drawGrid_done|].
  intros Hw Hh. unfold drawGrid. simpl. by rewrite Hw, Hh.
Qed.

Lemma X19_drawGrid_ends_witness :
  let cv := Canvas 800 600 in
  snd (drawGrid grid_fuel cv) = Done /\
  length (fst (drawGrid grid_fuel cv)) = 2 + 4 * (40 + 30).
Proof.
  intros cv. split.
  - exact (proj1 (proj2 (X19_drawGrid_ends cv grid_fuel)) eq_refl (le_n _)).
  - vm_compute. reflexivity.
Defined.

(** The end of [drawScene] is that of the grid, when the path holds nodes only. *)
Lemma drawScene_ending fuel cv w :
  defined_path (path (the_car (globals w))) ->
  snd (GameJs.drawScene fuel cv w) = snd (drawGrid fuel cv) /\
  snd (Classes.drawScene fuel cv w) = snd (drawGrid fuel cv).
Proof.
  intros Hdef. unfold GameJs.drawScene, Classes.drawScene.
  rewrite !in_order_cons, (draw_path_defined _ Hdef).
  assert (Hp : snd (draw_preview (the_pointer w)) = Done)
    by (unfold draw_preview; by destruct (isDrawing _)).
  rewrite Hp. cbn [snd draws draw_anchors draw_score].
  destruct (snd (drawGrid fuel cv)); split; reflexivity.
Qed.

Lemma drawScene_after_updateCar cv g g' p fuel upd :
  upd = GameJs.updateCar cv \/ upd = Classes.updateCar cv ->
  upd g = Ret g' ->
  snd (GameJs.drawScene fuel cv (World g' p)) = snd (drawGrid fuel cv) /\
  snd (Classes.drawScene fuel cv (World g' p)) = snd (drawGrid fuel cv).
Proof.
  intros Hupd Hg'.
  destruct (updateCar_frame_step cv g g' upd Hupd Hg') as (r & Hr & (_ & _ & Hp & _)).
  destruct (found_path cv (roads g)) as (r' & Hr' & Hdef & _).
  assert (r' = r) as -> by congruence.
  apply drawScene_ending. simpl. by rewrite Hp.
Qed.

(** X20.  After a frame, [drawScene] does not throw: the path it draws is
    [null] or holds nodes only, and at least one, so that [car.path[0]]
    and every [car.path[i]] is there.  On a canvas whose sides are at
    most 100000 it runs to its end. *)
Theorem X20_drawScene_after_frame (cv : canvas) (g g' : game) (p : pointer)
    (fuel : nat) (upd : game -> result game) :
  upd = GameJs.updateCar cv \/ upd = Classes.updateCar cv ->
  upd g = Ret g' ->
  snd (GameJs.drawScene fuel cv (World g' p)) <> Threw /\
  snd (Classes.drawScene fuel cv (World g' p)) <> Threw /\
  (fits cv = true -> grid_fuel <= fuel ->
     snd (GameJs.drawScene fuel cv (World g' p)) = Done /\
     snd (Classes.drawScene fuel cv (World g' p)) = Done).
Proof.
  intros Hupd Hg'.
  destruct (drawScene_after_updateCar cv g g' p fuel upd Hupd Hg') as [E1 E2].
  rewrite E1, E2.
  split; [apply drawGrid_not_threw|]. split; [apply drawGrid_not_threw|].
  intros Hfit Hfuel. split; by apply drawGrid_done.
Qed.

Lemma X20_drawScene_after_frame_witness :
  let cv := Canvas 800 600 in
  let g := Game 0 [Road 80 80 400 100; Road 400 100 720 520] initial_car in
  exists g', GameJs.updateCar cv g = Ret g' /\
    snd (GameJs.drawScene grid_fuel cv (World g' initial_pointer)) = Done.
Proof.
  intros cv g.
  assert (Hrun : exists g', GameJs.updateCar cv g = Ret g').
  { eexists. vm_compute. reflexivity. }
  destruct Hrun as (g' & Hg'). exists g'. split; [exact Hg'|].
  refine (proj1 (proj2 (proj2 (X20_drawScene_after_frame cv g g' initial_pointer grid_fuel
                   (GameJs.updateCar cv) (or_introl eq_refl) Hg')) eq_refl _)).
  apply le_n.
Defined.

(** A round of the game loop, on a canvas that fits. *)
Lemma gameLoop_frame_of cv w fuel :
  fits cv = true -> grid_fuel <= fuel ->
  snd (gameLoop (GameJs.updateCar cv) (GameJs.drawScene fuel cv) w)
    = frame_of (GameJs.updateCar cv) w /\
  snd (gameLoop (Classes.updateCar cv) (Classes.drawScene fuel cv) w)
    = frame_of (Classes.updateCar cv) w.
Proof.
  intros Hfit Hfuel. unfold gameLoop, frame_of. split.
  - destruct (GameJs.updateCar cv (globals w)) as [g'| |] eqn:E;
      cbv beta iota zeta; cbn [snd]; try done.
    destruct (drawScene_after_updateCar cv (globals w) g' (the_pointer w) fuel
                (GameJs.updateCar cv) (or_introl eq_refl) E) as (-> & _).
    by rewrite (drawGrid_done fuel cv Hfit Hfuel).
  - destruct (Classes.updateCar cv (globals w)) as [g'| |] eqn:E;
      cbv beta iota zeta; cbn [snd]; try done.
    destruct (drawScene_after_updateCar cv (globals w) g' (the_pointer w) fuel
                (Classes.updateCar cv) (or_intror eq_refl) E) as (_ & ->).
    by rewrite (drawGrid_done fuel cv Hfit Hfuel).
Qed.

(** X21.  A round of the game loop throws exactly when its [updateCar]
    throws: the drawing that follows never does.  On a canvas whose sides
    are at most 100000 the round ends as [updateCar] ends, with the
    globals that [updateCar] leaves. *)
Theorem X21_gameLoop_throws_in_updateCar (cv : canvas) (w : world) (fuel : nat) :
  (snd (gameLoop (GameJs.updateCar cv) (GameJs.drawScene fuel cv) w) = Throw <->
     GameJs.updateCar cv (globals w) = Throw) /\
  (snd (gameLoop (Classes.updateCar cv) (Classes.drawScene fuel cv) w) = Throw <->
     Classes.updateCar cv (globals w) = Throw) /\
  (fits cv = true -> grid_fuel <= fuel ->
     snd (gameLoop (GameJs.updateCar cv) (GameJs.drawScene fuel cv) w)
       = frame_of (GameJs.updateCar cv) w /\
     snd (gameLoop (Classes.updateCar cv) (Classes.drawScene fuel cv) w)
       = frame_of (Classes.updateCar cv) w).
Proof.
  split; [|split; [|apply gameLoop_frame_of]]; unfold gameLoop.
  - destruct (GameJs.updateCar cv (globals w)) as [g'| |] eqn:E;
      cbv beta iota zeta; cbn [snd]; try done.
    destruct (drawScene_after_updateCar cv (globals w) g' (the_pointer w) fuel
                (GameJs.updateCar cv) (or_introl eq_refl) E) as (-> & _).
    pose proof (drawGrid_not_threw fuel cv) as H.
    by destruct (snd (drawGrid fuel cv)).
  - destruct (Classes.updateCar cv (globals w)) as [g'| |] eqn:E;
      cbv beta iota zeta; cbn [snd]; try done.
    destruct (drawScene_after_updateCar cv (globals w) g' (the_pointer w) fuel
                (Classes.updateCar cv) (or_intror eq_refl) E) as (_ & ->).
    pose proof (drawGrid_not_threw fuel cv) as H.
    by destruct (snd (drawGrid fuel cv)).
Qed.

(** X22.  The calls of the browser amount to a run of frames and drawings.
    On a canvas whose sides are at most 100000, the script under any
    sequence of calls of its frame callback and its three listeners ends
    as the run of the frames and drawings does that the calls amount to
    (a drawing for every release of a pressed button), with the globals
    of that run: the listeners touch neither the car nor the score, and
    the frames touch nothing of the mouse. *)
Theorem X22_play_is_run (cv : canvas) (fuel : nat) (ins : list input) (w : world) :
  fits cv = true -> grid_fuel <= fuel ->
  play (fun w => snd (gameLoop (GameJs.updateCar cv) (GameJs.drawScene fuel cv) w)) ins w =
    (g' ← run_with (GameJs.updateCar cv) (events_of (the_pointer w) ins) (globals w);
     Ret (World g' (fold_left pointer_step ins (the_pointer w)))) /\
  play (fun w => snd (gameLoop (Classes.updateCar cv) (Classes.drawScene fuel cv) w)) ins w =
    (g' ← run_with (Classes.updateCar cv) (events_of (the_pointer w) ins) (globals w);
     Ret (World g' (fold_left pointer_step ins (the_pointer w)))).
Proof.
  intros Hfit Hfuel. split; apply play_events; intros w0;
    by destruct (gameLoop_frame_of cv w0 fuel Hfit Hfuel).
Qed.

Lemma X22_play_is_run_witness :
  let cv := Canvas 190 160 in
  let rect := DomRect 8 8 in
  let ins := [MouseUp rect (MouseEvent 50 50); Tick;
              MouseDown rect (MouseEvent 88 88); MouseMove rect (MouseEvent 100 90);
              Tick; MouseUp rect (MouseEvent 118 88); Tick; Tick] in
  events_of initial_pointer ins =
    [Frame; Frame; Draw (80, 80)%float (110, 80)%float; Frame; Frame] /\
  exists w', play (fun w => snd (gameLoop (GameJs.updateCar cv)
                                   (GameJs.drawScene grid_fuel cv) w)) ins initial_world
             = Ret w' /\
    roads (globals w') = [Road 80 80 110 80] /\
    isDrawing (the_pointer w') = false.
Proof.
  intros cv rect ins. split; [reflexivity|].
  eexists. split.
  - rewrite (proj1 (X22_play_is_run cv grid_fuel ins initial_world eq_refl (le_n _))).
    vm_compute. reflexivity.
  - split; reflexivity.
Defined.

(** ** A route needs roads at both anchors *)

Lemma resolve_near ns x y a :
  ids_ok ns -> resolve ns x y = Some a ->
  ns !! node_id a = Some a /\ near a x y = true.
Proof.
  intros Hids H. apply find_some_elem in H as [[i Hi]%list_elem_of_lookup Hn].
  by rewrite (Hids i a Hi).
Qed.

(** An entry under the key of [n] comes from a road that touches [n]. *)
Lemma entry_touches ns adj rs n e :
  ids_ok ns -> edges_of_roads ns adj rs ->
  ns !! node_id n = Some n ->
  e ∈ neighbors adj (node_id n) ->
  exists r, r ∈ rs /\ touches n r.
Proof.
  intros Hids [_ Hbw] Hn He.
  destruct (Hbw _ _ He) as (r & a & b & Hr & [Ra Rb] & [[Hk _]|[Hk _]]).
  - destruct (resolve_near _ _ _ _ Hids Ra) as [Ha Hnear].
    rewrite <- Hk, Hn in Ha. injection Ha as <-. exists r. split; [done|by left].
  - destruct (resolve_near _ _ _ _ Hids Rb) as [Hb Hnear].
    rewrite <- Hk, Hn in Hb. injection Hb as <-. exists r. split; [done|by right].
Qed.

Lemma route_touches g rs ns :
  wf_build (nodes g) (adj g) ->
  edges_of_roads (nodes g) (adj g) rs ->
  nodes g !! node_id (startNode g) = Some (startNode g) ->
  nodes g !! node_id (destNode g) = Some (destNode g) ->
  route g ns -> 1 < length ns ->
  (exists r, r ∈ rs /\ touches (startNode g) r) /\
  (exists r, r ∈ rs /\ touches (destNode g) r).
Proof.
  intros Hwf He Hs Hd (Hh & Hl & Hc) Hlen. split.
  - destruct ns as [|a [|b ns]]; simpl in Hlen; try lia.
    simpl in Hh. injection Hh as ->.
    destruct (Hc 0 _ b eq_refl eq_refl) as [d Hin].
    eapply entry_touches; [apply Hwf|done|done|exact Hin].
  - rewrite last_lookup in Hl.
    destruct (lookup_lt_is_Some_2 ns (pred (pred (length ns))) ltac:(lia)) as [y Hy].
    assert (HS : ns !! S (pred (pred (length ns))) = Some (destNode g)).
    { rewrite <- Hl. f_equal. lia. }
    destruct (Hc _ _ _ Hy HS) as [d Hin].
    apply (wf_sym _ _ Hwf) in Hin.
    eapply entry_touches; [apply Hwf|done|done|exact Hin].
Qed.

(** X23.  A path of two nodes or more needs a road at each anchor: if
    [findPath] returns such a path over finite roads, some road has an end
    within the snap threshold of the origin and some road has an end within
    the snap threshold of the destination.  The script of [src/game.js]
    finds the same path. *)
Theorem X23_route_needs_roads_at_anchors (cv : canvas) (rs : list road) (p : path_t) :
  forallb finite_road rs = true ->
  Classes.findPath (Classes.buildGraph cv rs) = Ret (Some p) ->
  1 < length p ->
  (exists r, r ∈ rs /\ touches origin_node r) /\
  (exists r, r ∈ rs /\ touches (dest_node cv) r) /\
  exists g, GameJs.buildGraph cv rs = Ret g /\ GameJs.findPath g = Ret (Some p).
Proof.
  intros Hfin Hp Hlen.
  destruct (ClassesSearch.cl_findPath_shortest cv rs) as (r0 & Hr & _ & Hs).
  rewrite Hp in Hr. injection Hr as <-.
  destruct Hs as (ns & -> & _ & Hroute & _). rewrite length_fmap in Hlen.
  destruct (ClassesFacts.cl_buildGraph_good cv rs) as ([Hwf _] & _ & _ & H0 & Hd).
  pose proof (ClassesRoads.cl_buildGraph_anchors cv rs) as (Hst & Hn0 & Hdn).
  destruct (route_touches (Classes.buildGraph cv rs) rs ns) as [Ho Hde]; try done.
  { by apply ClassesRoads.cl_buildGraph_edges. }
  { by rewrite Hst. }
  rewrite Hst in Ho.
  split; [done|]. split.
  - destruct (near origin_node (fst (dest cv)) (snd (dest cv))) eqn:Hnear.
    + exfalso. rewrite (cl_findPath_coincide cv rs Hnear) in Hp.
      injection Hp as E. apply (f_equal length) in E.
      rewrite length_fmap in E. simpl in E. lia.
    + destruct Hdn as [Hdn _]. by rewrite Hdn in Hde.
  - destruct (findPath_same cv rs) as (g & Hg & E). exists g. by rewrite E.
Qed.

Lemma X23_route_needs_roads_at_anchors_witness :
  let cv := Canvas 800 600 in
  let rs := [Road 400 100 716 523; Road 85 82 400 100] in
  (exists r, r ∈ rs /\ touches origin_node r) /\
  (exists r, r ∈ rs /\ touches (dest_node cv) r).
Proof.
  intros cv rs.
  destruct (X23_route_needs_roads_at_anchors cv rs
              [Some origin_node; Some (Node 2 400 100); Some (dest_node cv)]
              eq_refl) as (H1 & H2 & _).
  - vm_compute. reflexivity.
  - simpl. lia.
  - split; [exact H1|exact H2].
Defined.

(** ** Drawing never lengthens the path *)

Lemma route_extends g g' ns :
  extends_graph g g' -> route g ns -> route g' ns.
Proof.
  intros (_ & Hs & Hd & Hnb) (Hh & Hl & Hc). unfold route.
  rewrite Hs, Hd. split; [done|]. split; [done|].
  intros i a b Ha Hb. destruct (Hc i a b Ha Hb) as [d Hin].
  exists d. eapply elem_of_prefix; [exact Hin|apply Hnb].
Qed.

(** X24.  Drawing never takes the route away nor lengthens it: if
    [findPath] finds a path over the roads [rs], it finds one over [rs]
    followed by any further roads, with no more nodes than the first.  Both
    scripts find these two paths. *)
Theorem X24_path_never_lengthens (cv : canvas) (rs rs' : list road) (p : path_t) :
  Classes.findPath (Classes.buildGraph cv rs) = Ret (Some p) ->
  exists p', Classes.findPath (Classes.buildGraph cv (rs ++ rs')) = Ret (Some p') /\
    length p' <= length p /\
    exists g g', GameJs.buildGraph cv rs = Ret g /\ GameJs.findPath g = Ret (Some p) /\
      GameJs.buildGraph cv (rs ++ rs') = Ret g' /\ GameJs.findPath g' = Ret (Some p').
Proof.
  intros Hp.
  destruct (ClassesSearch.cl_findPath_shortest cv rs) as (r0 & Hr & _ & Hs).
  rewrite Hp in Hr. injection Hr as <-.
  destruct Hs as (ns & -> & _ & Hroute & _).
  destruct (ClassesSearch.cl_findPath_shortest cv (rs ++ rs')) as (r1 & Hr1 & _ & Hs1).
  apply (route_extends _ _ _ (ClassesRoads.cl_buildGraph_extends cv rs rs')) in Hroute.
  destruct r1 as [p'|]; [|by apply Hs1 in Hroute].
  exists p'. split; [done|].
  destruct Hs1 as (ns' & -> & _ & _ & Hmin). split.
  - rewrite !length_fmap. by apply Hmin.
  - destruct (findPath_same cv rs) as (g & Hg & E).
    destruct (findPath_same cv (rs ++ rs')) as (g' & Hg' & E').
    exists g, g'. by rewrite E, E'.
Qed.

Lemma X24_path_never_lengthens_witness :
  let cv := Canvas 190 160 in
  let rs := [Road 80 80 95 100; Road 95 100 110 80] in
  exists p', Classes.findPath (Classes.buildGraph cv (rs ++ [Road 80 80 110 80]))
             = Ret (Some p') /\ length p' <= 3.
Proof.
  intros cv rs.
  destruct (X24_path_never_lengthens cv rs [Road 80 80 110 80]
              [Some origin_node; Some (Node 2 95 100); Some (dest_node cv)])
    as (p' & Hp' & Hlen & _).
  - vm_compute. reflexivity.
  - exists p'. split; [exact Hp'|exact Hlen].
Defined.

(** ** Deliveries recur *)

Lemma run_with_app upd es es' g :
  run_with upd (es ++ es') g = g' ← run_with upd es g; run_with upd es' g'.
Proof.
  revert g. induction es as [|e es IH]; intros g; [done|].
  destruct e as [|a b]; simpl.
  - change (run_with upd (Frame :: es ++ es') g) with
      (g1 ← upd g; run_with upd (es ++ es') g1).
    rewrite run_with_frame. destruct (upd g) as [g1| |]; simpl; [apply IH|done..].
  - rewrite !run_with_draw. apply IH.
Qed.

Lemma frames_add n m : frames (n + m) = frames n ++ frames m.
Proof. unfold frames. by rewrite repeat_app. Qed.

Lemma moveCar_later k g :
  GameJs.moveCar (Game (k + score g) (roads g) (the_car g)) =
  g' ← GameJs.moveCar g; Ret (Game (k + score g') (roads g') (the_car g')).
Proof.
  unfold GameJs.moveCar. simpl.
  destruct (path (the_car g)) as [p|]; [|done].
  destruct (1 <? length p); [|done].
  destruct (at_index p (segIndex (the_car g))); [|done].
  destruct (at_index p (segIndex (the_car g) + 1)); [|done].
  simpl. destruct (geb _ _); [|done].
  destruct (_ <=? _); simpl; [|done]. by rewrite Nat.add_succ_r.
Qed.

Lemma set_path_twice p q c : set_path p (set_path q c) = set_path p c.
Proof. reflexivity. Qed.

Lemma updateCar_later cv k q g upd :
  upd = GameJs.updateCar cv \/ upd = Classes.updateCar cv ->
  upd (later k q g) =
  g' ← upd g; Ret (Game (k + score g') (roads g') (the_car g')).
Proof.
  intros [-> | ->].
  - unfold GameJs.updateCar, later. simpl.
    destruct (GameJs.buildGraph cv (roads g)) as [gr| |]; simpl; try done.
    destruct (GameJs.findPath gr) as [r| |]; simpl; try done.
    apply (moveCar_later k (Game (score g) (roads g) (set_path r (the_car g)))).
  - unfold Classes.updateCar, later. simpl.
    destruct (Classes.findPath _) as [r| |]; simpl; try done.
    rewrite !Car_update_moveCar.
    unfold Classes.stale_index. simpl.
    destruct r as [p|]; simpl.
    + destruct ((1 <? length p) && (length p <=? segIndex (the_car g))).
      * apply (moveCar_later k
          (Game (score g) (roads g)
             (set_progress 0 (set_segIndex 0 (set_path (Some p) (the_car g)))))).
      * apply (moveCar_later k (Game (score g) (roads g) (set_path (Some p) (the_car g)))).
    + apply (moveCar_later k (Game (score g) (roads g) (set_path None (the_car g)))).
Qed.

Lemma set_path_self c : set_path (path c) c = c.
Proof. by destruct c. Qed.

Lemma later_self g : later 0 (path (the_car g)) g = g.
Proof. destruct g as [s rs c]. unfold later. simpl. by rewrite set_path_self. Qed.

Lemma run_later cv upd n :
  upd = GameJs.updateCar cv \/ upd = Classes.updateCar cv ->
  forall k q g,
  run_with upd (frames (S n)) (later k q g) =
  g' ← run_with upd (frames (S n)) g;
  Ret (Game (k + score g') (roads g') (the_car g')).
Proof.
  intros Hupd. induction n as [|n IH]; intros k q g.
  - change (frames 1) with [Frame]. rewrite !run_with_frame.
    rewrite (updateCar_later cv k q g upd Hupd).
    destruct (upd g) as [g1| |]; done.
  - change (frames (S (S n))) with (Frame :: frames (S n)). rewrite !run_with_frame.
    rewrite (updateCar_later cv k q g upd Hupd).
    destruct (upd g) as [g1| |]; simpl; try done.
    rewrite <- (IH k (path (the_car g1)) g1). f_equal.
    unfold later. by rewrite set_path_self.
Qed.

Lemma run_frames_keep cv upd :
  upd = GameJs.updateCar cv \/ upd = Classes.updateCar cv ->
  forall n g g', run_with upd (frames n) g = Ret g' ->
  roads g' = roads g /\ speed (the_car g') = speed (the_car g).
Proof.
  intros Hupd. induction n as [|n IH]; intros g g' Hrun.
  - by injection Hrun as <-.
  - change (frames (S n)) with (Frame :: frames n) in Hrun.
    rewrite run_with_frame in Hrun.
    destruct (upd g) as [g1| |] eqn:E1; try done. simpl in Hrun.
    destruct (updateCar_frame_step cv g g1 upd Hupd E1) as (r & _ & (Hr & Hsp & _)).
    destruct (IH g1 g' Hrun) as [Hr' Hsp']. split; congruence.
Qed.

(** A car at the origin is told from another by its speed and its path. *)
Lemma at_origin_later g g1 :
  at_origin (the_car g) -> at_origin (the_car g1) ->
  roads g1 = roads g -> speed (the_car g1) = speed (the_car g) ->
  g1 = later (score g1 - score g) (path (the_car g1)) (Game (score g) (roads g) (the_car g))
  \/ score g1 < score g.
Proof.
  destruct g as [s rs [cx cy v q i pr]], g1 as [s1 rs1 [cx1 cy1 v1 q1 i1 pr1]].
  unfold at_origin, later. simpl.
  intros (-> & -> & -> & ->) (-> & -> & -> & ->) -> ->.
  destruct (decide (s1 < s)) as [|Hge]; [by right|left].
  f_equal. lia.
Qed.

(** X25.  Deliveries recur.  If, with nothing drawn meanwhile, a run of
    [S T] frames takes the car from the origin back to the origin with one
    point more, then every [k] times [S T] frames end, with [k] points
    more, the car at the origin again, and the roads and the speed as they
    were: what a frame does depends neither on the score nor on the path
    the car held before. *)
Theorem X25_deliveries_recur (cv : canvas) (g g1 : game) (T : nat)
    (upd : game -> result game) :
  upd = GameJs.updateCar cv \/ upd = Classes.updateCar cv ->
  at_origin (the_car g) ->
  run_with upd (frames (S T)) g = Ret g1 ->
  score g1 = S (score g) -> at_origin (the_car g1) ->
  forall k, exists gk, run_with upd (frames (k * S T)) g = Ret gk /\
    score gk = k + score g /\ at_origin (the_car gk) /\
    roads gk = roads g /\ speed (the_car gk) = speed (the_car g).
Proof.
  intros Hupd Hg Hrun Hs1 Hg1.
  induction k as [|k (gk & Hk & Hsk & Hok & Hrk & Hvk)].
  - exists g. split; [done|]. split; [done|]. split; [exact Hg|done].
  - change (S k * S T) with (S T + k * S T). rewrite Nat.add_comm, frames_add.
    rewrite run_with_app, Hk. simpl mbind.
    destruct (at_origin_later g gk Hg Hok Hrk Hvk) as [E|Hlt]; [|lia].
    assert (Eg : Game (score g) (roads g) (the_car g) = g) by (by destruct g).
    rewrite Eg in E. rewrite E, (run_later cv upd T Hupd), Hrun. simpl.
    eexists. split; [done|]. simpl.
    destruct (run_frames_keep cv upd Hupd _ _ _ Hrun) as [Hr1 Hv1].
    repeat split; try done; try apply Hg1. lia.
Qed.

Lemma X25_deliveries_recur_witness :
  let cv := Canvas 190 160 in
  let g := Game 0 [Road 80 80 110 80] initial_car in
  exists g100, run_with (Classes.updateCar cv) (frames (100 * 16)) g = Ret g100 /\
    score g100 = 100.
Proof.
  intros cv g.
  assert (Hrun : exists g1, run_with (Classes.updateCar cv) (frames 16) g = Ret g1 /\
            score g1 = 1 /\ at_origin (the_car g1)).
  { eexists. split; [vm_compute; reflexivity|]. split; [reflexivity|]. by repeat split. }
  destruct Hrun as (g1 & Hg1 & Hs1 & Ho1).
  destruct (X25_deliveries_recur cv g g1 15 (Classes.updateCar cv) (or_intror eq_refl)
              ltac:(by repeat split) Hg1 Hs1 Ho1 100) as (g100 & Hrun & Hs & _).
  exists g100. split; [exact Hrun|]. rewrite Hs. reflexivity.
Defined.
